(** * Live vehicle tracking and heading estimation: a shallow embedding

    The development follows the TypeScript sources of the
    bratislava-public-transport application:

    - [Normalize]     src/utils/normalize.ts (position normaliser)
    - [UseVehicles]   hooks/useVehicles.ts    (poll scheduler with backoff)
    - [VehicleLayer]  components/VehicleLayer.ts (heading tracker, angle helpers)
    - [RoutedPath]    hooks/useRoutedPath.ts  (chunked routing requests)
    - [TripStops]     src/utils/tripStops.ts  (trip-stop parser)

    Part I holds the embedding, Part II the properties proved about it. *)

From Stdlib Require Import ZArith QArith Lia Floats.
From Stdlib Require Lqa.
From stdpp Require Import gmap strings list pretty sorting.
From Equations Require Import Equations.

Set Warnings "-register-all,-clear-no-such-hyp,-inexact-float".
#[local] Open Scope Z_scope.

(* ===================================================================== *)
(** * Part I.  The embedding                                              *)
(* ===================================================================== *)

(** ** JavaScript values used by the sources *)

Module JS.

(** A JavaScript [number].  Finite doubles are rationals; the three
    non-finite values are kept apart.  Arithmetic on [Fin] is exact: where
    the sources compute with numbers (the sort comparator of
    [TripStops.parseTripStops]) only the sign of a difference of finite
    values is used, which rounding to double precision preserves. *)
Inductive number : Type :=
| Fin (q : Q)
| PosInf
| NegInf
| NaN.

Definition zero : number := Fin 0.

(** [Number.isFinite]. *)
Definition isFinite (n : number) : bool :=
  match n with Fin _ => true | _ => false end.

(** A property read on an object: absent ([undefined]), [null], or a value.
    The two empty cases are the same to [??] and [?.] and differ under string
    interpolation. *)
Inductive field (A : Type) : Type :=
| Undefined
| Null
| Val (a : A).
Arguments Undefined {A}.
Arguments Null {A}.
Arguments Val {A} a.

(** [f ?? d] *)
Definition nullish {A : Type} (f : field A) (d : A) : A :=
  match f with Val a => a | _ => d end.

(** *** Printing an integral number

    The identifiers of the feed are integers, and the record fields that
    hold them are [Z]: a [Val z] stands for the number whose value is the
    integer [z] (a number with a fractional part is outside this type).
    [Number::toString] prints such a number in decimal up to 10^21 and in
    exponent form from there on, with the fewest digits that still denote
    the same binary64 value. *)

(** The binary64 value nearest to the integer [z > 0], ties to even (below
    2^1024, where the nearest value is finite). *)
Definition toBinary64 (z : Z) : Z :=
  let e := Z.log2 z - 52 in
  if e <=? 0 then z
  else
    let q := z / 2 ^ e in
    let r := z mod 2 ^ e in
    let half := 2 ^ (e - 1) in
    let q' :=
      if r <? half then q
      else if half <? r then q + 1
      else if Z.even q then q else q + 1 in
    q' * 2 ^ e.

(** The digits [s] and the decimal exponent [n] with [k] digits, if [k]
    digits can denote [z]: [s * 10^(n - k)] rounds to [z]; of two such, the
    one nearer to [z], and the even one on a tie.  [n0] is the number of
    decimal digits of [z]. *)
Definition digitsOf (z n0 k : Z) : option (Z * Z) :=
  let p := 10 ^ (n0 - k) in
  let lo := z / p in
  let hi := lo + 1 in
  let okLo := toBinary64 (lo * p) =? z in
  let okHi := toBinary64 (hi * p) =? z in
  let pick :=
    if okLo && okHi then
      if z - lo * p <? hi * p - z then Some lo
      else if hi * p - z <? z - lo * p then Some hi
      else if Z.even lo then Some lo else Some hi
    else if okLo then Some lo
    else if okHi then Some hi
    else None in
  match pick with
  | Some s => if s =? 10 ^ k then Some (10 ^ (k - 1), n0 + 1) else Some (s, n0)
  | None => None
  end.

(** The least [k], from [k] on, with [fuel] tries. *)
Fixpoint shortest (fuel : nat) (z n0 k : Z) : Z * Z :=
  match fuel with
  | O => (z, n0)
  | S fuel' =>
      match digitsOf z n0 k with
      | Some sn => sn
      | None => shortest fuel' z n0 (k + 1)
      end
  end.

(** [d.ddde+x] for an integer [z >= 10^21]. *)
Definition exponentForm (z : Z) : string :=
  let n0 := Z.of_nat (String.length (pretty z)) in
  let (s, n) := shortest 17 z n0 1 in
  match pretty s with
  | String c EmptyString => String c ("e+" +:+ pretty (n - 1))
  | String c rest => String c ("." +:+ rest +:+ "e+" +:+ pretty (n - 1))
  | EmptyString => EmptyString
  end.

(** [Number::toString] on an integral number. *)
Definition numberToString (z : Z) : string :=
  if Z.abs z <? 10 ^ 21 then pretty z
  else if z <? 0 then "-" +:+ exponentForm (- z)
  else exponentForm z.

(** [`${f}`] for an integer-valued field; [undefined] and [null] print
    their name. *)
Definition template (f : field Z) : string :=
  match f with
  | Val z => numberToString z
  | Undefined => "undefined"
  | Null => "null"
  end.

#[global] Instance field_eq_dec {A : Type} `{EqDecision A} : EqDecision (field A).
Proof. solve_decision. Defined.

Definition field_to_sum {A : Type} (f : field A) : bool + A :=
  match f with Undefined => inl false | Null => inl true | Val a => inr a end.

Definition field_of_sum {A : Type} (s : bool + A) : field A :=
  match s with inl false => Undefined | inl true => Null | inr a => Val a end.

#[global] Instance field_countable {A : Type} `{Countable A} : Countable (field A).
Proof.
  apply (inj_countable' field_to_sum field_of_sum).
  intros [| |a]; reflexivity.
Defined.

(** Case mapping, on ASCII letters.  [String.prototype.toUpperCase] and
    [toLowerCase] agree with it on ASCII text; other characters are left as
    they are here (JavaScript also maps a few non-ASCII letters, such as
    U+017F, to ASCII ones).  The mapping only feeds the choice of the
    vehicle type. *)
Definition upperAscii (c : Ascii.ascii) : Ascii.ascii :=
  let n := Ascii.nat_of_ascii c in
  if (97 <=? n)%nat && (n <=? 122)%nat then Ascii.ascii_of_nat (n - 32) else c.

Definition lowerAscii (c : Ascii.ascii) : Ascii.ascii :=
  let n := Ascii.nat_of_ascii c in
  if (65 <=? n)%nat && (n <=? 90)%nat then Ascii.ascii_of_nat (n + 32) else c.

Fixpoint mapString (f : Ascii.ascii -> Ascii.ascii) (s : string) : string :=
  match s with
  | EmptyString => EmptyString
  | String c r => String (f c) (mapString f r)
  end.

Definition toUpperCase : string -> string := mapString upperAscii.
Definition toLowerCase : string -> string := mapString lowerAscii.

(** What a [try] block ends with. *)
Inductive result (E A : Type) : Type :=
| Ok (a : A)
| Throw (e : E).
Arguments Ok {E A} a.
Arguments Throw {E A} e.

(** A thrown value as [catch] inspects it:
    [err instanceof Error ? err.message : 'Unknown error']. *)
Inductive thrown : Type :=
| ErrorObject (message : string)
| OtherValue.

Definition errorMessage (t : thrown) : string :=
  match t with ErrorObject m => m | OtherValue => "Unknown error" end.

(** Sequencing of steps that may throw. *)
Definition andThen {E A B : Type} (r : result E A) (k : A -> result E B)
  : result E B :=
  match r with
  | Ok a => k a
  | Throw e => Throw e
  end.

Notation "'doR' x <- m ; k" := (andThen m (fun x => k))
  (at level 10, x name, m at level 100, k at level 200).

End JS.

(** ** types.ts *)

Module Types.
Import JS.

Inductive VehicleType : Type := TRAM | BUS | TROLLEY | UNKNOWN.

(** Raw feed records.  Fields only consumed through [??] or [?.] are
    [option]s ([None]: absent or null); the two identifier fields that are
    interpolated and passed through are [field]s. *)
Module Raw.

Record TimeTableLine : Type := {
  ezVehicleType : option string;
  ezLineType : option string;
  line : option string;
  lineName : option string;
}.

Record TimeTableTrip : Type := {
  timeTableLine : option TimeTableLine;
  tripID : option Z;
  destination : option string;
  destinationStopName : option string;
  lowFloor : option bool;
  ezTripDirection : option string;
  operatorName : option string;
}.

Record RawVehicle : Type := {
  vehicleID : field Z;
  delayMinutes : option number;
  latitude : option number;
  longitude : option number;
  timeTableTrip : option TimeTableTrip;
  lastCommunication : option string;
  lastStopOrder : field Z;
  isOnStop : option bool;
  tooltip : option string;
}.

End Raw.

Record Vehicle : Type := {
  id : string;
  vehicleID : field Z;
  latitude : number;
  longitude : number;
  prevLatitude : option number;
  prevLongitude : option number;
  line : string;
  lineName : string;
  vehicleType : VehicleType;
  vehicleTypeClass : string;
  destination : string;
  destinationStop : string;
  delayMinutes : number;
  lowFloor : bool;
  tooltip : option string;
  tripDirection : string;
  operatorName : string;
  lastCommunication : string;
  lastStopOrder : Z;
  isOnStop : bool;
  lastSeen : Z;
  tripID : Z;
}.

(** [{ ...v, lastSeen: t }] *)
Definition withLastSeen (t : Z) (v : Vehicle) : Vehicle := {|
  id := id v;
  vehicleID := vehicleID v;
  latitude := latitude v;
  longitude := longitude v;
  prevLatitude := prevLatitude v;
  prevLongitude := prevLongitude v;
  line := line v;
  lineName := lineName v;
  vehicleType := vehicleType v;
  vehicleTypeClass := vehicleTypeClass v;
  destination := destination v;
  destinationStop := destinationStop v;
  delayMinutes := delayMinutes v;
  lowFloor := lowFloor v;
  tooltip := tooltip v;
  tripDirection := tripDirection v;
  operatorName := operatorName v;
  lastCommunication := lastCommunication v;
  lastStopOrder := lastStopOrder v;
  isOnStop := isOnStop v;
  lastSeen := t;
  tripID := tripID v;
|}.

End Types.

(** ** utils/normalize.ts *)

Module Normalize.
Import JS Types.

(** [raw.timeTableTrip?.timeTableLine] *)
Definition lineOf (raw : Raw.RawVehicle) : option Raw.TimeTableLine :=
  Raw.timeTableTrip raw ≫= Raw.timeTableLine.

Definition resolveVehicleType (raw : Raw.RawVehicle) : VehicleType :=
  let vt := toUpperCase <$> (lineOf raw ≫= Raw.ezVehicleType) in
  if decide (vt = Some "TRAM") then TRAM
  else if decide (vt = Some "BUS") then BUS
  else if decide (vt = Some "TROLLEY") then TROLLEY
  else
    let lt := toLowerCase <$> (lineOf raw ≫= Raw.ezLineType) in
    if decide (lt = Some "tram") then TRAM
    else if decide (lt = Some "bus") then BUS
    else if decide (lt = Some "trolley") then TROLLEY
    else UNKNOWN.

(** [vType.toLowerCase()] *)
Definition typeClass (t : VehicleType) : string :=
  match t with
  | TRAM => "tram"
  | BUS => "bus"
  | TROLLEY => "trolley"
  | UNKNOWN => "unknown"
  end.

Definition makeId (raw : Raw.RawVehicle) : string :=
  template (Raw.vehicleID raw) +:+ "-" +:+ template (Raw.lastStopOrder raw).

(** The part of the heap a call of the normaliser can reach: its two
    argument objects, and the host clock behind [Date.now()].
    [hostClock k] is what the k-th call of [Date.now()] returns;
    [existingMapObj = None] is the omitted optional argument. *)
Record Heap : Type := {
  hostClock : nat -> Z;
  clockCalls : nat;
  rawListObj : list Raw.RawVehicle;
  existingMapObj : option (gmap string Vehicle);
}.

(** Computations that read and write the heap. *)
Definition M (A : Type) : Type := Heap -> A * Heap.

Definition ret {A : Type} (a : A) : M A := fun h => (a, h).

Definition bind {A B : Type} (m : M A) (k : A -> M B) : M B :=
  fun h => let (a, h') := m h in k a h'.

Notation "'do' x <- m ; k" := (bind m (fun x => k))
  (at level 10, x name, m at level 100, k at level 200).

(** [Date.now()] *)
Definition Date_now : M Z :=
  fun h => (hostClock h (clockCalls h),
            {| hostClock := hostClock h;
               clockCalls := S (clockCalls h);
               rawListObj := rawListObj h;
               existingMapObj := existingMapObj h |}).

(** [existingMap?.get(id)] *)
Definition existingMap_get (key : string) : M (option Vehicle) :=
  fun h => (existingMapObj h ≫= (fun m => m !! key), h).

Definition normalizeVehicle (raw : Raw.RawVehicle) : M Vehicle :=
  let id := makeId raw in
  do existing <- existingMap_get id;
  let vType := resolveVehicleType raw in
  do now <- Date_now;
  ret {|
    id := id;
    vehicleID := Raw.vehicleID raw;
    latitude := default zero (Raw.latitude raw);
    longitude := default zero (Raw.longitude raw);
    prevLatitude := latitude <$> existing;
    prevLongitude := longitude <$> existing;
    line := default "?" (lineOf raw ≫= Raw.line);
    lineName := default "" (lineOf raw ≫= Raw.lineName);
    vehicleType := vType;
    vehicleTypeClass := typeClass vType;
    destination := default "" (Raw.timeTableTrip raw ≫= Raw.destination);
    destinationStop := default "" (Raw.timeTableTrip raw ≫= Raw.destinationStopName);
    delayMinutes := default zero (Raw.delayMinutes raw);
    lowFloor := default false (Raw.timeTableTrip raw ≫= Raw.lowFloor);
    tooltip := Raw.tooltip raw;
    tripDirection := default "" (Raw.timeTableTrip raw ≫= Raw.ezTripDirection);
    operatorName := default "" (Raw.timeTableTrip raw ≫= Raw.operatorName);
    lastCommunication := default "" (Raw.lastCommunication raw);
    lastStopOrder := nullish (Raw.lastStopOrder raw) 0;
    isOnStop := default false (Raw.isOnStop raw);
    lastSeen := now;
    tripID := default 0 (Raw.timeTableTrip raw ≫= Raw.tripID);
  |}.

(** [for (const raw of rawList) { const v = ...; map.set(v.id, v); }] *)
Fixpoint forOf (raws : list Raw.RawVehicle) (map : gmap string Vehicle)
  : M (gmap string Vehicle) :=
  match raws with
  | [] => ret map
  | raw :: rest =>
      do v <- normalizeVehicle raw;
      forOf rest (<[id v := v]> map)
  end.

Definition normalizeVehicles : M (gmap string Vehicle) :=
  fun h => forOf (rawListObj h) ∅ h.

(** A call [normalizeVehicles(rawList, existingMap)] made when the clock has
    been read [k] times. *)
Definition call (clock : nat -> Z) (k : nat)
    (rawList : list Raw.RawVehicle) (existingMap : option (gmap string Vehicle))
  : gmap string Vehicle * Heap :=
  normalizeVehicles {| hostClock := clock; clockCalls := k;
                       rawListObj := rawList; existingMapObj := existingMap |}.

End Normalize.

(** ** hooks/useVehicles.ts *)

Module UseVehicles.
Import JS Types.

(** [AppSettings]: only [pollInterval] (seconds) reaches the scheduler; the
    other settings only shape the request URL. *)
Record AppSettings : Type := {
  pollInterval : Z;
}.

(** The parsed body of a feed response, by the shapes the hook tells apart. *)
Inductive body : Type :=
| Wrapped (vehicles : list Raw.RawVehicle)   (* [data.vehicles] is an array *)
| Bare (records : list Raw.RawVehicle)       (* [data] itself is an array *)
| OtherShape.

(** A resolved [fetch]: [res.ok], [res.status], and what [res.json()] gives. *)
Record response : Type := {
  ok : bool;
  status : Z;
  json : result thrown body;
}.

(** What [await fetch(url)] ends with: a response, or a rejection. *)
Definition outcome : Type := result thrown response.

(** The hook's state: the five [useState] cells and the two refs read by
    [fetchVehicles] and [schedule]. *)
Record State : Type := {
  vehicles : gmap string Vehicle;
  lastFetch : option Z;
  error : option string;
  loading : bool;
  reloading : bool;
  backoffRef : Z;
  vehiclesRef : gmap string Vehicle;
}.

Definition initial : State := {|
  vehicles := ∅;
  lastFetch := None;
  error := None;
  loading := true;
  reloading := false;
  backoffRef := 1;
  vehiclesRef := ∅;
|}.

Definition setReloading (b : bool) (st : State) : State := {|
  vehicles := vehicles st;
  lastFetch := lastFetch st;
  error := error st;
  loading := loading st;
  reloading := b;
  backoffRef := backoffRef st;
  vehiclesRef := vehiclesRef st;
|}.

(** The [try] block up to the raw list: [fetch], the [res.ok] test,
    [res.json()], and the defensive choice of the list. *)
Definition rawListOf (o : outcome) : result thrown (list Raw.RawVehicle) :=
  match o with
  | Throw e => Throw e
  | Ok res =>
      if ok res then
        match json res with
        | Throw e => Throw e
        | Ok (Wrapped l) => Ok l
        | Ok (Bare l) => Ok l
        | Ok OtherShape => Ok []
        end
      else Throw (ErrorObject ("HTTP " +:+ pretty (status res)))
  end.

(** The rest of the [try] block: normalise against [vehiclesRef.current],
    publish, stamp, clear the error, reset the backoff.  [k] counts the reads
    of the clock made so far. *)
Definition onSuccess (clock : nat -> Z) (k : nat)
    (rawList : list Raw.RawVehicle) (st : State) : State * nat :=
  let (newMap, h) := Normalize.call clock k rawList (Some (vehiclesRef st)) in
  ({| vehicles := newMap;
      lastFetch := Some (clock (Normalize.clockCalls h));
      error := None;
      loading := false;
      reloading := reloading st;
      backoffRef := 1;
      vehiclesRef := newMap |},
   S (Normalize.clockCalls h)).

(** The [catch] block. *)
Definition onFailure (err : thrown) (st : State) : State := {|
  vehicles := vehicles st;
  lastFetch := lastFetch st;
  error := Some (errorMessage err);
  loading := false;
  reloading := reloading st;
  backoffRef := Z.min (backoffRef st * 2) 12;
  vehiclesRef := vehiclesRef st;
|}.

(** One run of [fetchVehicles(opts)] against the given outcome of the
    request. *)
Definition fetchVehicles (clock : nat -> Z) (manual : bool) (o : outcome)
    (sk : State * nat) : State * nat :=
  let (st, k) := sk in
  let st1 := if manual then setReloading true st else st in
  let (st2, k2) :=
    match rawListOf o with
    | Ok rawList => onSuccess clock k rawList st1
    | Throw err => (onFailure err st1, k)
    end in
  (if manual then setReloading false st2 else st2, k2).

(** The attempt failed: the [try] block threw. *)
Definition failed (o : outcome) : bool :=
  match rawListOf o with Ok _ => false | Throw _ => true end.

(** The two failures the scheduler is specified for: the request was
    rejected (network error), or the status was not a success. *)
Definition networkOrStatusFailure (o : outcome) : bool :=
  match o with
  | Throw _ => true
  | Ok res => negb (ok res)
  end.

(** [schedule]: the delay (ms) handed to [setTimeout]. *)
Definition scheduleInterval (settings : AppSettings) (st : State) : Z :=
  pollInterval settings * 1000 * backoffRef st.

(** Successive fetches, each scheduled or manual, in the order they settle. *)
Definition fetches (clock : nat -> Z) (runs : list (bool * outcome))
    (sk : State * nat) : State * nat :=
  foldl (fun acc r => fetchVehicles clock r.1 r.2 acc) sk runs.

End UseVehicles.

(** ** components/VehicleLayer.ts *)

Module VehicleLayer.
Import JS Types.

(** *** Angle helpers

    Angles are binary64 numbers, computed as the engine computes them, and
    [Math.PI] is the binary64 number nearest to pi.  A [while] loop is a
    fuelled recursion: [None] means the fuel ran out before the loop did. *)

Definition MathPI : float := 0x1.921fb54442d18p+1%float.

(** [while (d > Math.PI) d -= 2 * Math.PI;] *)
Fixpoint whileAbove (fuel : nat) (d : float) : option float :=
  if (MathPI <? d)%float then
    match fuel with
    | O => None
    | S n => whileAbove n (d - 2 * MathPI)%float
    end
  else Some d.

(** [while (d < -Math.PI) d += 2 * Math.PI;] *)
Fixpoint whileBelow (fuel : nat) (d : float) : option float :=
  if (d <? - MathPI)%float then
    match fuel with
    | O => None
    | S n => whileBelow n (d + 2 * MathPI)%float
    end
  else Some d.

Definition angleDelta (fuel : nat) (target current : float) : option float :=
  whileAbove fuel (target - current)%float ≫= whileBelow fuel.

Definition angleDiff (fuel : nat) (a b : float) : option float :=
  PrimFloat.abs <$> (whileAbove fuel (a - b)%float ≫= whileBelow fuel).

(** [Math.min] and [Math.max] of two numbers: [NaN] when one of them is
    [NaN]; of the two zeros, [-0] is the smaller. *)
Definition Math_min (a b : float) : float :=
  if PrimFloat.is_nan a || PrimFloat.is_nan b then PrimFloat.nan
  else if (a <? b)%float then a
  else if (b <? a)%float then b
  else if PrimFloat.is_zero b && PrimFloat.get_sign b then b
  else a.

Definition Math_max (a b : float) : float :=
  if PrimFloat.is_nan a || PrimFloat.is_nan b then PrimFloat.nan
  else if (b <? a)%float then a
  else if (a <? b)%float then b
  else if PrimFloat.is_zero a && PrimFloat.get_sign a then b
  else a.

(** [THREE.MathUtils.degToRad] (a product with [DEG2RAD = Math.PI / 180])
    and [THREE.MathUtils.clamp] ([Math.max(min, Math.min(max, value))]). *)
Definition DEG2RAD : float := (MathPI / 180)%float.
Definition degToRad (deg : float) : float := (deg * DEG2RAD)%float.
Definition clamp (value lo hi : float) : float := Math_max lo (Math_min hi value).

Definition MAX_TURN_RATE : float := degToRad 120.
Definition TURN_SMOOTHING : float := 6%float.
Definition MAX_DIRECTION_CONE : float := degToRad 75.
Definition HEADING_WEIGHT : float := 45%float.
Definition SWITCH_PENALTY : float := 160%float.

(** The rotation applied to one group in one [render] tick of length [dt]. *)
Definition turnStep (fuel : nat) (targetHeading rotationY dt : float)
  : option float :=
  delta ← angleDelta fuel targetHeading rotationY;
  let desiredStep := (delta * Math_min 1 (dt * TURN_SMOOTHING))%float in
  let maxStep := (MAX_TURN_RATE * dt)%float in
  Some (clamp desiredStep (- maxStep)%float maxStep).

(** *** Heading tracker

    The tracker only moves numbers around and hands them to host functions
    ([Math.hypot], [Math.atan2], the Mercator projection behind [toLocal],
    the map queries behind [getRoadMatch]), so it is stated over any type of
    numbers with these operations. *)

Record HeadingState (num : Type) : Type := {
  x : num;
  z : num;
  heading : num;
  roadKey : option string;
}.
Arguments x {num} _.
Arguments z {num} _.
Arguments heading {num} _.
Arguments roadKey {num} _.

(** The result of [getRoadMatch]. *)
Module RoadMatch.
Record t (num : Type) : Type := {
  heading : num;
  roadKey : string;
  score : num;
}.
Arguments heading {num} _.
Arguments roadKey {num} _.
Arguments score {num} _.
End RoadMatch.

(** [getRoadMatch(lng, lat, preferredHeading, stickyRoadKey)] as the map
    answers it during one call of [updateVehicles]. *)
Definition RoadOracle (num : Type) : Type :=
  number -> number -> option num -> option string -> option (RoadMatch.t num).

(** The layer's bookkeeping that the heading estimator reads and writes:
    [headingTracker], keyed by the physical [vehicleID], and, per rendered
    group (keyed by the composite id), [userData.targetHeading]. *)
Record Layer (num : Type) : Type := {
  headingTracker : gmap (field Z) (HeadingState num);
  targetHeading : gmap string num;
}.
Arguments headingTracker {num} _.
Arguments targetHeading {num} _.

Section Tracker.
Context {num : Type}.
Variables (zero two : num).
Variables (sub : num -> num -> num) (neg : num -> num).
Variables (hypot atan2 : num -> num -> num).
Variable gtb : num -> num -> bool.
Variable toLocal : number -> number -> num * num.

(** [Math.hypot(lx - tracker.x, lz - tracker.z) > 2] *)
Definition moved (lx lz : num) (t : HeadingState num) : bool :=
  gtb (hypot (sub lx (x t)) (sub lz (z t))) two.

(** [-Math.atan2(lz - tracker.z, lx - tracker.x)] *)
Definition movementHeadingOf (lx lz : num) (t : HeadingState num) : num :=
  neg (atan2 (sub lz (z t)) (sub lx (x t))).

(** The body of [for (const v of vehicles)]. *)
Definition visit (getRoadMatch : RoadOracle num) (st : Layer num) (v : Vehicle)
  : Layer num :=
  let (lx, lz) := toLocal (longitude v) (latitude v) in
  let tracker := headingTracker st !! vehicleID v in
  let movementHeading :=
    match tracker with
    | Some t => if moved lx lz t then Some (movementHeadingOf lx lz t) else None
    | None => None
    end in
  let preferredHeading :=
    match movementHeading with
    | Some h => Some h
    | None => heading <$> tracker
    end in
  let roadMatch :=
    getRoadMatch (longitude v) (latitude v) preferredHeading (tracker ≫= roadKey) in
  match roadMatch, tracker with
  | Some rm, Some _ =>
      let t' := {| x := lx; z := lz;
                   heading := RoadMatch.heading rm;
                   roadKey := Some (RoadMatch.roadKey rm) |} in
      {| headingTracker := <[vehicleID v := t']> (headingTracker st);
         targetHeading := <[id v := heading t']> (targetHeading st) |}
  | Some rm, None =>
      {| headingTracker :=
           <[vehicleID v := {| x := lx; z := lz;
                               heading := RoadMatch.heading rm;
                               roadKey := Some (RoadMatch.roadKey rm) |}]>
             (headingTracker st);
         targetHeading := <[id v := RoadMatch.heading rm]> (targetHeading st) |}
  | None, Some t =>
      if moved lx lz t then
        let t' := {| x := lx; z := lz;
                     heading := movementHeadingOf lx lz t;
                     roadKey := roadKey t |} in
        {| headingTracker := <[vehicleID v := t']> (headingTracker st);
           targetHeading := <[id v := heading t']> (targetHeading st) |}
      else
        {| headingTracker := headingTracker st;
           targetHeading := <[id v := heading t]> (targetHeading st) |}
  | None, None =>
      {| headingTracker :=
           <[vehicleID v := {| x := lx; z := lz; heading := zero; roadKey := None |}]>
             (headingTracker st);
         targetHeading := <[id v := zero]> (targetHeading st) |}
  end.

Definition updateVehicles (getRoadMatch : RoadOracle num) (st : Layer num)
    (vehicles : list Vehicle) : Layer num :=
  let st1 := foldl (visit getRoadMatch) st vehicles in
  (* remove stale groups *)
  let alive : gset string := list_to_set (id <$> vehicles) in
  (* clean up heading tracker for vehicleIDs no longer in the dataset *)
  let aliveVehicleIDs : gset (field Z) := list_to_set (vehicleID <$> vehicles) in
  {| headingTracker :=
       filter (fun kv => kv.1 ∈ aliveVehicleIDs) (headingTracker st1);
     targetHeading := filter (fun kv => kv.1 ∈ alive) (targetHeading st1) |}.

(** Successive calls, each with the map's answers at that time. *)
Definition updates (st : Layer num) (calls : list (RoadOracle num * list Vehicle))
  : Layer num :=
  foldl (fun acc c => updateVehicles c.1 acc c.2) st calls.

End Tracker.

End VehicleLayer.

(** ** utils/tripStops.ts *)

Module TripStops.
Import JS.

(** A value produced by [res.json()]. *)
Inductive json : Type :=
| JNull
| JBool (b : bool)
| JNumber (n : number)
| JString (s : string)
| JArray (items : list json)
| JObject (props : gmap string json).

(** [TripStop]; every number in it went through [toNumber] and is finite. *)
Record TripStop : Type := {
  stopOrder : Q;
  stopID : Q;
  stopName : string;
  stopCity : string;
  platformNumber : Q;
  platformName : string;
  plannedDepartureMinutes : Q;
  plannedDepartureTimestamp : string;
  latitude : Q;
  longitude : Q;
  zones : string;
  crossing : bool;
}.

(** [row.key] on a row that is not [null]: the property of an object, and
    [undefined] ([None]) on anything else (no array, string, number or
    boolean has one of the keys read here). *)
Definition prop (row : json) (key : string) : option json :=
  match row with
  | JObject props => props !! key
  | _ => None
  end.

(** [a ?? b] *)
Definition orElse (a b : option json) : option json :=
  match a with
  | None | Some JNull => b
  | Some _ => a
  end.

(** [Boolean(value)] *)
Definition Boolean (value : option json) : bool :=
  match value with
  | None | Some JNull => false
  | Some (JBool b) => b
  | Some (JNumber (Fin q)) => negb (Qeq_bool q 0)
  | Some (JNumber NaN) => false
  | Some (JNumber _) => true
  | Some (JString s) => negb (String.eqb s "")
  | Some (JArray _) | Some (JObject _) => true
  end.

(** [Array.prototype.sort(compare)] for a comparator that returns finite
    numbers: a stable sort, [a] staying before [b] unless [compare(a, b) > 0]. *)
Fixpoint sortInsert {A : Type} (compare : A -> A -> Q) (a : A) (sorted : list A)
  : list A :=
  match sorted with
  | [] => [a]
  | b :: rest =>
      if Qle_bool (compare a b) 0 then a :: b :: rest
      else b :: sortInsert compare a rest
  end.

Fixpoint Array_sort {A : Type} (compare : A -> A -> Q) (l : list A) : list A :=
  match l with
  | [] => []
  | a :: rest => sortInsert compare a (Array_sort compare rest)
  end.

Section Host.
(** [Number.parseFloat] and the printing of a number by [String(...)]. *)
Variable parseFloat : string -> number.
Variable numberToString : number -> string.

Definition toNumber (value : option json) : option Q :=
  match value with
  | Some (JNumber (Fin q)) => Some q
  | Some (JString s) =>
      match parseFloat s with
      | Fin q => Some q
      | _ => None
      end
  | _ => None
  end.

(** The [TypeError] of a conversion to a primitive that finds no method. *)
Definition cannotConvert : thrown :=
  ErrorObject "Cannot convert object to primitive value".

(** [String(value)].  An array prints its elements, joined by commas, with
    [null] printed as nothing.  An object prints as ["[object Object]"]
    through the inherited [toString]; an object with a property of its own
    named [toString] has no such method (what [res.json()] puts there is no
    function, and the inherited [valueOf] returns the object), and the
    conversion throws. *)
Fixpoint String_ (value : json) : result thrown string :=
  match value with
  | JNull => Ok "null"
  | JBool true => Ok "true"
  | JBool false => Ok "false"
  | JNumber n => Ok (numberToString n)
  | JString s => Ok s
  | JArray items =>
      match
        (fix elements (l : list json) : result thrown (list string) :=
           match l with
           | [] => Ok []
           | e :: rest =>
               match (match e with JNull => Ok EmptyString | _ => String_ e end) with
               | Throw err => Throw err
               | Ok t =>
                   match elements rest with
                   | Throw err => Throw err
                   | Ok ts => Ok (t :: ts)
                   end
               end
           end) items
      with
      | Throw err => Throw err
      | Ok texts => Ok (String.concat "," texts)
      end
  | JObject props =>
      match props !! "toString" with
      | Some _ => Throw cannotConvert
      | None => Ok "[object Object]"
      end
  end.

(** [String(a ?? b ?? 'literal')] *)
Definition stringOr (value : option json) (literal : string)
  : result thrown string :=
  match orElse value None with
  | Some v => String_ v
  | None => Ok literal
  end.

(** [toStop] on a row that is not [null]: the two coordinates first, then
    the fields of the record in the order they are written. *)
Definition toStopObject (row : json) : result thrown (option TripStop) :=
  match toNumber (orElse (prop row "latitude") (prop row "lat")),
        toNumber (orElse (prop row "longitude") (prop row "lng")) with
  | Some lat, Some lng =>
      doR name <-
        stringOr (orElse (prop row "stopName") (prop row "name")) "Unknown stop";
      doR city <- stringOr (orElse (prop row "stopCity") (prop row "cityName")) "";
      doR platform <-
        stringOr (orElse (prop row "platformName") (prop row "platform")) "";
      doR timestamp <- stringOr (prop row "plannedDepartureTimestamp") "";
      doR zonesText <- stringOr (prop row "zones") "";
      Ok (Some {|
        stopOrder := default 0%Q (toNumber (prop row "stopOrder"));
        stopID := default 0%Q (toNumber (orElse (prop row "stopID") (prop row "id")));
        stopName := name;
        stopCity := city;
        platformNumber :=
          default 0%Q
            (toNumber (orElse (prop row "platformNumber") (prop row "platform")));
        platformName := platform;
        plannedDepartureMinutes :=
          default 0%Q (toNumber (prop row "plannedDepartureMinutes"));
        plannedDepartureTimestamp := timestamp;
        latitude := lat;
        longitude := lng;
        zones := zonesText;
        crossing := Boolean (prop row "crossing");
      |})
  | _, _ => Ok None
  end.

(** [toStop(row)]: reading a property of [null] throws a [TypeError]. *)
Definition toStop (row : json) : result thrown (option TripStop) :=
  match row with
  | JNull => Throw (ErrorObject "Cannot read properties of null (reading 'latitude')")
  | _ => toStopObject row
  end.

(** The stop that [toStop] makes of a row, if it makes one. *)
Definition stopOf (row : json) : option TripStop :=
  match toStop row with
  | Ok made => made
  | Throw _ => None
  end.

(** [rawStops.map((row) => toStop(row))]: the first throw ends the call. *)
Fixpoint mapToStop (rawStops : list json) : result thrown (list (option TripStop)) :=
  match rawStops with
  | [] => Ok []
  | row :: rest =>
      match toStop row with
      | Throw e => Throw e
      | Ok s =>
          match mapToStop rest with
          | Throw e => Throw e
          | Ok ss => Ok (s :: ss)
          end
      end
  end.

Definition isArray (value : option json) : option (list json) :=
  match value with
  | Some (JArray items) => Some items
  | _ => None
  end.

(** The choice of [rawStops]. *)
Definition rawStopsOf (data : json) : list json :=
  match data with
  | JArray items => items
  | JObject obj =>
      match isArray (obj !! "tripStops") with
      | Some items => items
      | None =>
          match isArray (obj !! "stops") with
          | Some items => items
          | None =>
              match isArray (obj !! "data") with
              | Some items => items
              | None => default [] (isArray (obj !! "result"))
              end
          end
      end
  | _ => []
  end.

Definition byStopOrder (a b : TripStop) : Q := (stopOrder a - stopOrder b)%Q.

Definition parseTripStops (data : json) : result thrown (list TripStop) :=
  match mapToStop (rawStopsOf data) with
  | Throw e => Throw e
  | Ok stops => Ok (Array_sort byStopOrder (omap (fun s => s) stops))
  end.

End Host.

End TripStops.

(** ** hooks/useRoutedPath.ts *)

Module RoutedPath.
Import JS.

(** Maximum waypoints per OSRM request, and the overlap between chunks. *)
Definition MAX_WAYPOINTS : nat := 80.
Definition CHUNK_OVERLAP : nat := 2.

(** A [[lng, lat]] pair. *)
Definition coord : Type := number * number.

(** What [geometry.coordinates] evaluates to, and what the hook then holds
    as its path: an array of [[lng, lat]] pairs, or a value that is no
    array and cannot be iterated ([undefined] when the geometry has no such
    property, [null], an object, a number; a string, which can be iterated,
    is left out).  The code hands the value on unchecked. *)
Inductive coordinates : Type :=
| Points (pts : list coord)
| NotAnArray.

(** The body of a routing response, as far as [fetchOSRMRoute] reads it:
    [data.code], whether [data.routes?.[0]] is there, and, if so, its
    [geometry] ([None]: missing) with what its [coordinates] are. *)
Record osrmData : Type := {
  code : option string;
  firstRoute : option (option coordinates);
}.

Record response : Type := {
  ok : bool;
  status : Z;
  json : result thrown osrmData;
}.

Definition outcome : Type := result thrown response.

(** The routing service: what the [k]-th request of a run, made for the
    given coordinates, ends with. *)
Definition service : Type := nat -> list coord -> outcome.

Definition fetchOSRMRoute (o : outcome) : result thrown coordinates :=
  match o with
  | Throw e => Throw e
  | Ok res =>
      if ok res then
        match json res with
        | Throw e => Throw e
        | Ok data =>
            match code data, firstRoute data with
            | Some "Ok", Some (Some value) => Ok value
            | Some "Ok", Some None =>
                Throw (ErrorObject
                  "Cannot read properties of undefined (reading 'coordinates')")
            | Some "Ok", None => Throw (ErrorObject "OSRM: Ok")
            | Some "", _ | None, _ => Throw (ErrorObject "OSRM: no route")
            | Some c, _ => Throw (ErrorObject ("OSRM: " +:+ c))
            end
        end
      else Throw (ErrorObject ("OSRM: " +:+ pretty (status res)))
  end.

(** The index ranges [(i, end)] pushed by the chunking loop, started at [i],
    for a list of [n] waypoints. *)
Equations? chunkRanges (n i : nat) : list (nat * nat) by wf (n - i)%nat lt :=
chunkRanges n i with lt_dec i n := {
  | right _ => []
  | left _ with le_dec n (Nat.min (i + MAX_WAYPOINTS) n) := {
    | left _ => [(i, Nat.min (i + MAX_WAYPOINTS) n)]
    | right _ =>
        (i, Nat.min (i + MAX_WAYPOINTS) n)
          :: chunkRanges n (Nat.min (i + MAX_WAYPOINTS) n - CHUNK_OVERLAP)
    }
  }.
Proof. unfold MAX_WAYPOINTS, CHUNK_OVERLAP in *. lia. Qed.

(** [waypoints.slice(i, end)] *)
Definition slice {A : Type} (l : list A) (i stop : nat) : list A :=
  take (stop - i) (drop i l).

Definition chunksOf (waypoints : list coord) : list (list coord) :=
  (fun r => slice waypoints r.1 r.2) <$> chunkRanges (length waypoints) 0.

(** [for (const chunk of chunks) results.push(await fetchOSRMRoute(chunk))],
    the requests numbered from [k]. *)
Fixpoint requestAll (osrm : service) (k : nat) (chunks : list (list coord))
  : result thrown (list coordinates) :=
  match chunks with
  | [] => Ok []
  | chunk :: rest =>
      match fetchOSRMRoute (osrm k chunk) with
      | Throw e => Throw e
      | Ok r =>
          match requestAll osrm (S k) rest with
          | Throw e => Throw e
          | Ok rs => Ok (r :: rs)
          end
      end
  end.

Section Stitch.
(** [Math.hypot(p[0] - q[0], p[1] - q[1]) < 0.0001] *)
Variable near : coord -> coord -> bool.

(** The scan of the first 50 points of a chunk: [startIdx] after it. *)
Fixpoint scan (lastPt : coord) (pts : list coord) (j startIdx : nat) : nat :=
  match pts with
  | [] => startIdx
  | p :: rest => scan lastPt rest (S j) (if near p lastPt then S j else startIdx)
  end.

(** One round of the stitching loop.  With nothing stitched so far [lastPt]
    is [undefined], and reading [lastPt[0]] throws as soon as the chunk has a
    point to compare. *)
Definition stitchOne (stitched : list coord) (r : list coord)
  : result thrown (list coord) :=
  match last stitched with
  | Some lastPt => Ok (stitched ++ drop (scan lastPt (take 50 r) 0 0) r)
  | None =>
      match r with
      | [] => Ok stitched
      | _ :: _ =>
          Throw (ErrorObject "Cannot read properties of undefined (reading '0')")
      end
  end.

(** The stitching loop; [results[c].length] or [results[c].slice] of a
    result that is no array throws. *)
Fixpoint stitchFrom (stitched : list coord) (results : list coordinates)
  : result thrown (list coord) :=
  match results with
  | [] => Ok stitched
  | NotAnArray :: _ =>
      Throw (ErrorObject "Cannot read properties of undefined (reading 'length')")
  | Points r :: rest =>
      match stitchOne stitched r with
      | Throw e => Throw e
      | Ok stitched' => stitchFrom stitched' rest
      end
  end.

(** A single request hands on what [fetchOSRMRoute] returns; a chunked run
    spreads the first result ([[...results[0]]] throws when it is no array)
    and stitches the others to it. *)
Definition fetchChunkedRoute (osrm : service) (waypoints : list coord)
  : result thrown coordinates :=
  if (length waypoints <=? MAX_WAYPOINTS)%nat then
    fetchOSRMRoute (osrm 0%nat waypoints)
  else
    match requestAll osrm 0 (chunksOf waypoints) with
    | Throw e => Throw e
    | Ok [] | Ok (NotAnArray :: _) =>
        Throw (ErrorObject "undefined is not iterable")
    | Ok (Points first :: rest) =>
        match stitchFrom first rest with
        | Throw e => Throw e
        | Ok stitched => Ok (Points stitched)
        end
    end.

(** The hook: its two state cells, and the lines written by [console.warn]. *)
Record State : Type := {
  routedPath : coordinates;
  loading : bool;
  warnings : list string;
}.

Definition waypointsOf (tripStops : list TripStops.TripStop) : list coord :=
  (fun ts => (Fin (TripStops.longitude ts), Fin (TripStops.latitude ts)))
    <$> tripStops.

(** One run of the effect for [tripStops], up to the settling of the promise
    chain; [aborted] is [ctrl.signal.aborted] at that time. *)
Definition effect (osrm : service) (aborted : bool)
    (tripStops : list TripStops.TripStop) (st : State) : State :=
  if (length tripStops <? 2)%nat then
    {| routedPath := Points []; loading := false; warnings := warnings st |}
  else
    let waypoints := waypointsOf tripStops in
    let st1 := {| routedPath := routedPath st; loading := true;
                  warnings := warnings st |} in
    if aborted then st1
    else
      match fetchChunkedRoute osrm waypoints with
      | Ok coords =>
          {| routedPath := coords; loading := false; warnings := warnings st1 |}
      | Throw err =>
          {| routedPath := Points waypoints; loading := false;
             warnings :=
               warnings st1
                 ++ ["OSRM routing failed, falling back to straight lines:"] |}
      end.

End Stitch.

(** A request that fails: [fetchOSRMRoute] throws on its outcome. *)
Definition requestFails (o : outcome) : bool :=
  match fetchOSRMRoute o with Ok _ => false | Throw _ => true end.

(** A request that returns an array of points. *)
Definition returnsPoints (o : outcome) : bool :=
  match fetchOSRMRoute o with Ok (Points _) => true | _ => false end.

(** The requests a run issues for [waypoints], had none of them failed. *)
Definition requestsFor (waypoints : list coord) : list (list coord) :=
  if (length waypoints <=? MAX_WAYPOINTS)%nat then [waypoints]
  else chunksOf waypoints.

End RoutedPath.

(** ** components/VehicleLayer.ts: road matching *)

Module RoadMatching.
Import VehicleLayer.

(** The geometry of a rendered feature: a line, several lines, or anything
    else; each point is an array of numbers. *)
Inductive geometry : Type :=
| LineString (line : list (list float))
| MultiLineString (lines : list (list (list float)))
| OtherGeometry.

(** A feature returned by [queryRenderedFeatures]; [None]: its geometry
    lacks a type or coordinates. *)
Definition feature : Type := option geometry.

(** A segment [(aLng, aLat, bLng, bLat)]. *)
Definition segment : Type := (float * float * float * float)%type.

(** The calls of [testSegment] made for one line: one for each pair of
    consecutive points that both have two coordinates. *)
Fixpoint segmentsOf (line : list (list float)) : list segment :=
  match line with
  | a :: (b :: _) as rest =>
      match a, b with
      | a0 :: a1 :: _, b0 :: b1 :: _ => (a0, a1, b0, b1) :: segmentsOf rest
      | _, _ => segmentsOf rest
      end
  | _ => []
  end.

Definition segmentsOfFeature (f : feature) : list segment :=
  match f with
  | Some (LineString line) => segmentsOf line
  | Some (MultiLineString lines) => concat (segmentsOf <$> lines)
  | _ => []
  end.

(** [bestScore], [bestHeading], [bestRoadKey], which are written together:
    [None] before the first accepted segment ([Infinity], [null], [null]). *)
Definition best : Type := option (float * float * string).

Section Host.
(** [n.toFixed(6)], [this.map.project([lng, lat])] as [(x, y)], [toLocal]
    and [Math.atan2]. *)
Variable toFixed6 : float -> string.
Variable project : float -> float -> float * float.
Variable toLocal : float -> float -> float * float.
Variable atan2 : float -> float -> float.

Definition segmentKey (aLng aLat bLng bLat : float) : string :=
  let a := toFixed6 aLng +:+ "," +:+ toFixed6 aLat in
  let b := toFixed6 bLng +:+ "," +:+ toFixed6 bLat in
  if String.ltb a b then a +:+ "|" +:+ b else b +:+ "|" +:+ a.

(** The squared pixel distance from [p] to the segment, [None] when the
    squared length of the segment is below [1e-6]. *)
Definition distance2 (p : float * float) (seg : segment) : option float :=
  let '(aLng, aLat, bLng, bLat) := seg in
  let a := project aLng aLat in
  let b := project bLng bLat in
  let vx := (b.1 - a.1)%float in
  let vy := (b.2 - a.2)%float in
  let len2 := (vx * vx + vy * vy)%float in
  if (len2 <? 1e-6)%float then None
  else
    let wx := (p.1 - a.1)%float in
    let wy := (p.2 - a.2)%float in
    let t := Math_max 0 (Math_min 1 ((wx * vx + wy * vy) / len2)%float) in
    let cx := (a.1 + t * vx)%float in
    let cy := (a.2 + t * vy)%float in
    let dx := (p.1 - cx)%float in
    let dy := (p.2 - cy)%float in
    Some (dx * dx + dy * dy)%float.

(** [hForward] *)
Definition forwardHeading (seg : segment) : float :=
  let '(aLng, aLat, bLng, bLat) := seg in
  let (ax, az) := toLocal aLng aLat in
  let (bx, bz) := toLocal bLng bLat in
  (- atan2 (bz - az) (bx - ax))%float.

(** [score] as [testSegment] computes it from the squared distance and the
    heading penalty: the switch penalty is added when there is a sticky
    road (a string that is not empty) and the segment is not on it. *)
Definition scoreOf (stickyRoadKey : option string) (d2 headingPenalty : float)
    (roadKey : string) : float :=
  let score := (d2 + headingPenalty * headingPenalty)%float in
  match stickyRoadKey with
  | Some sticky =>
      if negb (String.eqb sticky "") && negb (String.eqb roadKey sticky)
      then (score + SWITCH_PENALTY)%float
      else score
  | None => score
  end.

(** The end of [testSegment]: [if (score < bestScore) { ... }]. *)
Definition consider (score heading : float) (roadKey : string) (sofar : best)
  : best :=
  let bestScore :=
    match sofar with
    | Some (bestScore, _, _) => bestScore
    | None => PrimFloat.infinity
    end in
  if (score <? bestScore)%float then Some (score, heading, roadKey) else sofar.

(** [testSegment]; the outer [None] is fuel running out in [angleDiff]. *)
Definition testSegment (fuel : nat) (p : float * float)
    (preferredHeading : option float) (stickyRoadKey : option string)
    (sofar : best) (seg : segment) : option best :=
  match distance2 p seg with
  | None => Some sofar
  | Some d2 =>
      let '(aLng, aLat, bLng, bLat) := seg in
      let hForward := forwardHeading seg in
      let hReverse := (hForward + MathPI)%float in
      match preferredHeading with
      | None =>
          let roadKey := segmentKey aLng aLat bLng bLat in
          Some (consider (scoreOf stickyRoadKey d2 0 roadKey) hForward roadKey
                  sofar)
      | Some preferred =>
          forwardDiff ← angleDiff fuel hForward preferred;
          reverseDiff ← angleDiff fuel hReverse preferred;
          let heading :=
            if (forwardDiff <=? reverseDiff)%float then hForward else hReverse in
          headingDiff ← angleDiff fuel heading preferred;
          if (MAX_DIRECTION_CONE <? headingDiff)%float then Some sofar
          else
            let headingPenalty := (headingDiff * HEADING_WEIGHT)%float in
            let roadKey := segmentKey aLng aLat bLng bLat in
            Some (consider (scoreOf stickyRoadKey d2 headingPenalty roadKey)
                    heading roadKey sofar)
      end
  end.

Fixpoint testSegments (fuel : nat) (p : float * float)
    (preferredHeading : option float) (stickyRoadKey : option string)
    (sofar : best) (segs : list segment) : option best :=
  match segs with
  | [] => Some sofar
  | seg :: rest =>
      sofar' ← testSegment fuel p preferredHeading stickyRoadKey sofar seg;
      testSegments fuel p preferredHeading stickyRoadKey sofar' rest
  end.

(** [getRoadMatch]; [ready] is [this.map && this.roadLayerIds.length !== 0]
    and [feats] what [queryRenderedFeatures] returns around the point. *)
Definition getRoadMatch (fuel : nat) (ready : bool) (feats : list feature)
    (lng lat : float) (preferredHeading : option float)
    (stickyRoadKey : option string)
  : option (option (RoadMatch.t float)) :=
  if negb ready then Some None
  else
    let p := project lng lat in
    found ← testSegments fuel p preferredHeading stickyRoadKey None
              (concat (segmentsOfFeature <$> feats));
    Some match found with
         | Some (bestScore, bestHeading, bestRoadKey) =>
             if (16 * 16 <? bestScore)%float then None
             else Some {| RoadMatch.heading := bestHeading;
                          RoadMatch.roadKey := bestRoadKey;
                          RoadMatch.score := bestScore |}
         | None => None
         end.

End Host.

End RoadMatching.

(** ** utils/time.ts *)

Module Time.

(** Timestamps are [Date.now()] readings, integers in milliseconds; [now] is
    the reading taken by the call. *)
Definition relativeTime (now timestampMs : Z) : string :=
  let diff := Z.max 0 (now - timestampMs) in
  let seconds := diff / 1000 in
  if seconds <? 60 then pretty seconds +:+ "s ago"
  else
    let minutes := seconds / 60 in
    if minutes <? 60 then pretty minutes +:+ "m ago"
    else
      let hours := minutes / 60 in
      pretty hours +:+ "h ago".

Inductive ConnectionStatus : Type := live | drifting | offline.

Definition getConnectionStatus (now : Z) (lastFetchMs : option Z)
  : ConnectionStatus :=
  match lastFetchMs with
  | None => offline
  | Some t =>
      let age := now - t in
      if age <? 10000 then live
      else if age <? 30000 then drifting
      else offline
  end.

End Time.

(** ** utils/normalizeStops.ts *)

Module NormalizeStops.
Import JS TripStops.

Record Stop : Type := {
  id : string;
  stopID : option Q;
  name : string;
  latitude : Q;
  longitude : Q;
  cityName : option string;
  platform : option string;
}.

Section Host.
Variable parseFloat : string -> number.
Variable numberToString : number -> string.
(** [String.prototype.trim] *)
Variable trim : string -> string.

(** [toNumber] has the same body as in tripStops.ts. *)
Definition toNumber : option json -> option Q := TripStops.toNumber parseFloat.

Definition toStringValue (value : option json) : option string :=
  match value with
  | Some (JString s) => if String.eqb (trim s) "" then None else Some (trim s)
  | Some (JNumber n) => Some (numberToString n)
  | _ => None
  end.

(** [String(value)] and [`${value}`] of a property that may be missing. *)
Definition text (value : option json) : result thrown string :=
  match value with
  | None => Ok "undefined"
  | Some v => String_ numberToString v
  end.

(** [`${stopID ?? _idx}`] *)
Definition stopKey (stopID : option Q) (idx : nat) : string :=
  numberToString (Fin (default (inject_Z (Z.of_nat idx)) stopID)).

(** The body of [for (const p of platforms)]: the stop pushed for [p], if
    any; reading [p.latitude] of a [null] platform throws. *)
Definition platformStop (stopID : option Q) (idx : nat) (baseName : string)
    (cityName : option string) (p : json) : result thrown (option Stop) :=
  match p with
  | JNull =>
      Throw (ErrorObject "Cannot read properties of null (reading 'latitude')")
  | _ =>
      match toNumber (prop p "latitude"), toNumber (prop p "longitude") with
      | Some pLat, Some pLng =>
          doR number <- text (prop p "platformNumber");
          doR platformText <-
            match toStringValue (prop p "platformName") with
            | Some s =>
                if String.eqb s "" then text (prop p "platformNumber")
                else Ok s
            | None => text (prop p "platformNumber")
            end;
          Ok (Some {|
            id := "stop-" +:+ stopKey stopID idx +:+ "-p" +:+ number;
            stopID := stopID;
            name := baseName;
            latitude := pLat;
            longitude := pLng;
            cityName := cityName;
            platform := Some platformText;
          |})
      | _, _ => Ok None
      end
  end.

Fixpoint platformStops (stopID : option Q) (idx : nat) (baseName : string)
    (cityName : option string) (platforms : list json)
  : result thrown (list Stop) :=
  match platforms with
  | [] => Ok []
  | p :: rest =>
      match platformStop stopID idx baseName cityName p with
      | Throw e => Throw e
      | Ok pushed =>
          match platformStops stopID idx baseName cityName rest with
          | Throw e => Throw e
          | Ok results =>
              Ok match pushed with
                 | Some s => s :: results
                 | None => results
                 end
          end
      end
  end.

Definition normalizeStop (raw : json) (idx : nat) : result thrown (list Stop) :=
  match raw with
  | JNull =>
      Throw (ErrorObject
        "Cannot read properties of null (reading 'forUrbanPublicTransport')")
  | _ =>
      if negb (Boolean (prop raw "forUrbanPublicTransport"))
         && negb (Boolean (prop raw "forBusTransport"))
      then Ok []
      else
        let stopID := toNumber (prop raw "stopID") in
        let baseName :=
          default ("Stop " +:+ stopKey stopID idx)
            (toStringValue (orElse (prop raw "stopName") (prop raw "name"))) in
        let cityName :=
          toStringValue (orElse (prop raw "stopCity") (prop raw "cityName")) in
        match toNumber (orElse (prop raw "latitude") (prop raw "lat")),
              toNumber (orElse (prop raw "longitude") (prop raw "lng")) with
        | Some lat, Some lng =>
            Ok [ {| id := "stop-" +:+ stopKey stopID idx;
                    stopID := stopID;
                    name := baseName;
                    latitude := lat;
                    longitude := lng;
                    cityName := cityName;
                    platform := None |} ]
        | _, _ =>
            match prop raw "platforms" with
            | Some (JArray platforms) =>
                platformStops stopID idx baseName cityName platforms
            | _ => Ok []
            end
        end
  end.

(** [for (const s of stops) { if (seen.has(s.id)) continue; ... }] *)
Fixpoint pushNew (stops : list Stop) (acc : list Stop * gset string)
  : list Stop * gset string :=
  match stops with
  | [] => acc
  | s :: rest =>
      if decide (id s ∈ acc.2) then pushNew rest acc
      else pushNew rest (acc.1 ++ [s], {[ id s ]} ∪ acc.2)
  end.

(** [rawList.forEach((raw, idx) => ...)] from index [idx] on, with [out] and
    [seen] as they stand. *)
Fixpoint forEach (rawList : list json) (idx : nat)
    (acc : list Stop * gset string) : result thrown (list Stop * gset string) :=
  match rawList with
  | [] => Ok acc
  | raw :: rest =>
      match normalizeStop raw idx with
      | Throw e => Throw e
      | Ok stops => forEach rest (S idx) (pushNew stops acc)
      end
  end.

Definition normalizeStops (rawList : list json) : result thrown (list Stop) :=
  match forEach rawList 0 ([], ∅) with
  | Throw e => Throw e
  | Ok acc => Ok acc.1
  end.

End Host.

End NormalizeStops.

(** ** hooks/useStops.ts *)

Module UseStops.
Import JS TripStops.

Record response : Type := {
  ok : bool;
  status : Z;
  json : result thrown TripStops.json;
}.

Definition outcome : Type := result thrown response.

Record State : Type := {
  stops : list NormalizeStops.Stop;
  error : option string;
  loading : bool;
}.

(** The choice of [rawList]. *)
Definition rawListOf (data : TripStops.json) : list TripStops.json :=
  match data with
  | JArray items => items
  | JObject obj =>
      match isArray (obj !! "stops") with
      | Some items => items
      | None =>
          match isArray (obj !! "data") with
          | Some items => items
          | None => default [] (isArray (obj !! "result"))
          end
      end
  | _ => []
  end.

Section Host.
Variable parseFloat : string -> number.
Variable numberToString : number -> string.
Variable trim : string -> string.

(** The [try] block of [fetchStops], up to the normalised list. *)
Definition attempt (o : outcome) : result thrown (list NormalizeStops.Stop) :=
  match o with
  | Throw e => Throw e
  | Ok res =>
      if ok res then
        match json res with
        | Throw e => Throw e
        | Ok data =>
            NormalizeStops.normalizeStops parseFloat numberToString trim
              (rawListOf data)
        end
      else Throw (ErrorObject ("HTTP " +:+ pretty (status res)))
  end.

Definition fetchStops (o : outcome) (st : State) : State :=
  match attempt o with
  | Ok normalized => {| stops := normalized; error := None; loading := false |}
  | Throw err =>
      {| stops := []; error := Some (errorMessage err); loading := false |}
  end.

End Host.

End UseStops.

(** ** hooks/useTripStops.ts *)

Module UseTripStops.
Import JS TripStops.

Record response : Type := {
  ok : bool;
  status : Z;
  json : result thrown TripStops.json;
}.

Definition outcome : Type := result thrown response.

Record State : Type := {
  tripStops : list TripStop;
  loading : bool;
  error : option string;
  activeTripID : option Z;
}.

Definition initial : State :=
  {| tripStops := []; loading := false; error := None; activeTripID := None |}.

Definition clearTripStops (st : State) : State :=
  {| tripStops := []; loading := loading st; error := None;
     activeTripID := None |}.

Section Host.
Variable parseFloat : string -> number.
Variable numberToString : number -> string.

(** The [try] block of [fetchTripStops], up to the parsed list. *)
Definition attempt (o : outcome) : result thrown (list TripStop) :=
  match o with
  | Throw e => Throw e
  | Ok res =>
      if ok res then
        match json res with
        | Throw e => Throw e
        | Ok data => parseTripStops parseFloat numberToString data
        end
      else Throw (ErrorObject ("HTTP " +:+ pretty (status res)))
  end.

(** The part of a call [fetchTripStops(tripID)] that runs at once, up to
    the request: the two early returns, and the three writes made before
    the [await].  The flag tells whether the request is made. *)
Definition start (tripID : Z) (st : State) : State * bool :=
  if tripID =? 0 then (st, false)
  else if decide (activeTripID st = Some tripID) then
    ({| tripStops := []; loading := loading st; error := None;
        activeTripID := None |}, false)
  else
    ({| tripStops := tripStops st; loading := true; error := None;
        activeTripID := Some tripID |}, true).

(** The rest of the call, run when its request has ended with [o].  The
    state it writes to is the state of that time: other calls may have
    started or settled since.  The error is only written on a failure and
    on an empty result; a non-empty result leaves it as it is. *)
Definition settle (o : outcome) (st : State) : State :=
  match attempt o with
  | Ok normalized =>
      {| tripStops := normalized;
         loading := false;
         error :=
           match normalized with
           | [] => Some "No route data available for this trip."
           | _ :: _ => error st
           end;
         activeTripID := activeTripID st |}
  | Throw err =>
      {| tripStops := []; loading := false;
         error := Some (errorMessage err);
         activeTripID := activeTripID st |}
  end.

(** A call [fetchTripStops(tripID)] whose request, if made, ends with [o]
    before anything else happens to the hook. *)
Definition fetchTripStops (tripID : Z) (o : outcome) (st : State) : State :=
  let (st1, requested) := start tripID st in
  if requested then settle o st1 else st1.

(** What the user does with the hook. *)
Inductive action : Type :=
| Fetch (tripID : Z) (o : outcome)
| Clear.

Definition act (st : State) (a : action) : State :=
  match a with
  | Fetch tripID o => fetchTripStops tripID o st
  | Clear => clearTripStops st
  end.

(** What happens to the hook, one event at a time; the calls started by
    [void fetchTripStops(...)] may overlap, a request of one settling after
    another call has started. *)
Inductive event : Type :=
| Started (tripID : Z)
| Settled (o : outcome)
| Cleared.

Definition step (st : State) (ev : event) : State :=
  match ev with
  | Started tripID => (start tripID st).1
  | Settled o => settle o st
  | Cleared => clearTripStops st
  end.

End Host.

End UseTripStops.

(** ** Sample data used by the worked examples of Part II *)

Module Samples.
Import JS Types.

(** [{ vehicleID: 7, lastStopOrder: 3, latitude: 48.15, longitude: 17.11 }] *)
Definition raw_7_3 : Raw.RawVehicle := {|
  Raw.vehicleID := Val 7;
  Raw.delayMinutes := None;
  Raw.latitude := Some (Fin (4815 # 100));
  Raw.longitude := Some (Fin (1711 # 100));
  Raw.timeTableTrip := None;
  Raw.lastCommunication := None;
  Raw.lastStopOrder := Val 3;
  Raw.isOnStop := None;
  Raw.tooltip := None;
|}.

(** [{ vehicleID: 1e21, lastStopOrder: 3 }] *)
Definition raw_1e21_3 : Raw.RawVehicle := {|
  Raw.vehicleID := Val (10 ^ 21);
  Raw.delayMinutes := None;
  Raw.latitude := None;
  Raw.longitude := None;
  Raw.timeTableTrip := None;
  Raw.lastCommunication := None;
  Raw.lastStopOrder := Val 3;
  Raw.isOnStop := None;
  Raw.tooltip := None;
|}.

(** [{ vehicleID: 7, latitude: 48.15, longitude: 17.11 }]: no
    [lastStopOrder]. *)
Definition raw_7_missing : Raw.RawVehicle := {|
  Raw.vehicleID := Val 7;
  Raw.delayMinutes := None;
  Raw.latitude := Some (Fin (4815 # 100));
  Raw.longitude := Some (Fin (1711 # 100));
  Raw.timeTableTrip := None;
  Raw.lastCommunication := None;
  Raw.lastStopOrder := Undefined;
  Raw.isOnStop := None;
  Raw.tooltip := None;
|}.

(** A record of an earlier pass, at another position. *)
Definition earlier_7_3 : Vehicle := {|
  id := "7-3";
  vehicleID := Val 7;
  latitude := Fin (4810 # 100);
  longitude := Fin (1710 # 100);
  prevLatitude := None;
  prevLongitude := None;
  line := "?";
  lineName := "";
  vehicleType := UNKNOWN;
  vehicleTypeClass := "unknown";
  destination := "";
  destinationStop := "";
  delayMinutes := Fin 0;
  lowFloor := false;
  tooltip := None;
  tripDirection := "";
  operatorName := "";
  lastCommunication := "";
  lastStopOrder := 3;
  isOnStop := false;
  lastSeen := 500;
  tripID := 0;
|}.

Definition earlierMap : gmap string Vehicle := {[ "7-3" := earlier_7_3 ]}.

(** The same physical vehicle one stop later. *)
Definition later_7_4 : Vehicle := {|
  id := "7-4";
  vehicleID := Val 7;
  latitude := Fin (4820 # 100);
  longitude := Fin (1712 # 100);
  prevLatitude := None;
  prevLongitude := None;
  line := "?";
  lineName := "";
  vehicleType := UNKNOWN;
  vehicleTypeClass := "unknown";
  destination := "";
  destinationStop := "";
  delayMinutes := Fin 0;
  lowFloor := false;
  tooltip := None;
  tripDirection := "";
  operatorName := "";
  lastCommunication := "";
  lastStopOrder := 4;
  isOnStop := false;
  lastSeen := 900;
  tripID := 0;
|}.

(** Feed responses: a 503, a rejected request, and a good one. *)
Definition unavailable : UseVehicles.outcome :=
  Ok {| UseVehicles.ok := false; UseVehicles.status := 503;
        UseVehicles.json := Ok UseVehicles.OtherShape |}.

Definition rejected : UseVehicles.outcome := Throw (ErrorObject "Failed to fetch").

Definition delivered : UseVehicles.outcome :=
  Ok {| UseVehicles.ok := true; UseVehicles.status := 200;
        UseVehicles.json := Ok (UseVehicles.Wrapped [raw_7_3]) |}.

Definition fiveFailures : list (bool * UseVehicles.outcome) :=
  [(false, unavailable); (false, rejected); (true, unavailable);
   (false, rejected); (false, unavailable)].

(** A hook state that already holds a canonical map. *)
Definition polled : UseVehicles.State := {|
  UseVehicles.vehicles := earlierMap;
  UseVehicles.lastFetch := Some 500;
  UseVehicles.error := None;
  UseVehicles.loading := false;
  UseVehicles.reloading := false;
  UseVehicles.backoffRef := 1;
  UseVehicles.vehiclesRef := earlierMap;
|}.

(** A tracker over integer numbers with a blind map: no road is ever
    matched and every vehicle sits at the local origin. *)
Definition blindOracle : VehicleLayer.RoadOracle Z := fun _ _ _ _ => None.

Definition blindUpdates (st : VehicleLayer.Layer Z)
    (calls : list (VehicleLayer.RoadOracle Z * list Vehicle))
  : VehicleLayer.Layer Z :=
  VehicleLayer.updates 0 2 Z.sub Z.opp (fun a b => Z.abs a + Z.abs b)
    (fun _ _ => 0) Z.gtb (fun _ _ => (0, 0)) st calls.

Definition emptyLayer : VehicleLayer.Layer Z :=
  {| VehicleLayer.headingTracker := ∅; VehicleLayer.targetHeading := ∅ |}.

(** One update with the same stand-ins, and the layer after vehicle 7 has
    been seen once at stop 3. *)
Definition blindUpdate (st : VehicleLayer.Layer Z) (vehicles : list Vehicle)
  : VehicleLayer.Layer Z :=
  VehicleLayer.updateVehicles 0 2 Z.sub Z.opp (fun a b => Z.abs a + Z.abs b)
    (fun _ _ => 0) Z.gtb (fun _ _ => (0, 0)) blindOracle st vehicles.

Definition seen_7_3 : VehicleLayer.Layer Z := blindUpdate emptyLayer [earlier_7_3].

(** Another physical vehicle. *)
Definition other_9_1 : Vehicle := {|
  id := "9-1";
  vehicleID := Val 9;
  latitude := Fin (4830 # 100);
  longitude := Fin (1715 # 100);
  prevLatitude := None;
  prevLongitude := None;
  line := "?";
  lineName := "";
  vehicleType := UNKNOWN;
  vehicleTypeClass := "unknown";
  destination := "";
  destinationStop := "";
  delayMinutes := Fin 0;
  lowFloor := false;
  tooltip := None;
  tripDirection := "";
  operatorName := "";
  lastCommunication := "";
  lastStopOrder := 1;
  isOnStop := false;
  lastSeen := 500;
  tripID := 0;
|}.

(** Waypoints: 150 copies of one point, and a routing service that is
    down. *)
Definition origin : RoutedPath.coord := (Fin 0, Fin 0).

Definition waypoints150 : list RoutedPath.coord := replicate 150 origin.

(** 150 waypoints, the [i]-th at longitude [i]. *)
Definition numbered150 : list RoutedPath.coord :=
  (fun i => (Fin (inject_Z (Z.of_nat i)), Fin 0)) <$> seq 0 150.

Definition serviceDown : RoutedPath.service :=
  fun _ _ => Throw (ErrorObject "Failed to fetch").

(** Stand-ins for [Number.parseFloat] and for the printing of numbers, good
    for the strings and numbers used below. *)
Definition sampleParseFloat (s : string) : number :=
  if String.eqb s "48.1" then Fin (481 # 10) else NaN.

Definition samplePrint (n : number) : string := "0".

Definition stopRow (order : Z) (lat lng : TripStops.json) : TripStops.json :=
  TripStops.JObject
    {[ "stopOrder" := TripStops.JNumber (Fin (inject_Z order));
       "latitude" := lat;
       "longitude" := lng ]}.

(** [{ "latitude": 48.1, "longitude": 17.1, "stopName": { "toString": 1 } }] *)
Definition unprintableRow : TripStops.json :=
  TripStops.JObject
    {[ "latitude" := TripStops.JNumber (Fin (481 # 10));
       "longitude" := TripStops.JNumber (Fin (171 # 10));
       "stopName" :=
         TripStops.JObject {[ "toString" := TripStops.JNumber (Fin 1) ]} ]}.

(** Three rows out of order; the middle one has a null latitude, the last
    one a latitude given as a string. *)
Definition tripBody : TripStops.json :=
  TripStops.JObject
    {[ "tripStops" :=
         TripStops.JArray
           [ stopRow 2 (TripStops.JNumber (Fin (482 # 10)))
                       (TripStops.JNumber (Fin (171 # 10)));
             stopRow 3 TripStops.JNull (TripStops.JNumber (Fin (172 # 10)));
             stopRow 1 (TripStops.JString "48.1")
                       (TripStops.JNumber (Fin (170 # 10))) ] ]}.

(** A stop with nothing but its order and position. *)
Definition stopAt (order lat lng : Q) : TripStops.TripStop := {|
  TripStops.stopOrder := order;
  TripStops.stopID := 0;
  TripStops.stopName := "Unknown stop";
  TripStops.stopCity := "";
  TripStops.platformNumber := 0;
  TripStops.platformName := "";
  TripStops.plannedDepartureMinutes := 0;
  TripStops.plannedDepartureTimestamp := "";
  TripStops.latitude := lat;
  TripStops.longitude := lng;
  TripStops.zones := "";
  TripStops.crossing := false;
|}.

Definition twoStops : list TripStops.TripStop :=
  [stopAt 1 (481 # 10) (170 # 10); stopAt 2 (482 # 10) (171 # 10)].

Definition idle : RoutedPath.State :=
  {| RoutedPath.routedPath := RoutedPath.Points []; RoutedPath.loading := false;
     RoutedPath.warnings := [] |}.

(** A stand-in for the closeness test of the stitcher. *)
Definition neverNear (p q : RoutedPath.coord) : bool := false.

(** Stand-ins for the map of the road matcher: a flat projection, a
    printer and an arc tangent that are constant; one rendered road from
    (0, 0) to (10, 0); and the match it gives at (5, 3). *)
Definition flat (lng lat : float) : float * float := (lng, lat).

Definition printZero (n : float) : string := "0.000000".

Definition levelAtan2 (y x : float) : float := 0%float.

Definition sampleRoad : list RoadMatching.feature :=
  [Some (RoadMatching.LineString [[0%float; 0%float]; [10%float; 0%float]])].

Definition sampleMatch : VehicleLayer.RoadMatch.t float :=
  {| VehicleLayer.RoadMatch.heading := (- 0)%float;
     VehicleLayer.RoadMatch.roadKey := "0.000000,0.000000|0.000000,0.000000";
     VehicleLayer.RoadMatch.score := 9%float |}.

(** A routing service that answers every request with the coordinates it
    was sent. *)
Definition echoService : RoutedPath.service :=
  fun _ coordinates =>
    Ok {| RoutedPath.ok := true; RoutedPath.status := 200;
          RoutedPath.json :=
            Ok {| RoutedPath.code := Some "Ok";
                  RoutedPath.firstRoute :=
                    Some (Some (RoutedPath.Points coordinates)) |} |}.

(** A routing service that answers every request with
    [{"code":"Ok","routes":[{"geometry":{}}]}]. *)
Definition emptyGeometryService : RoutedPath.service :=
  fun _ _ =>
    Ok {| RoutedPath.ok := true; RoutedPath.status := 200;
          RoutedPath.json :=
            Ok {| RoutedPath.code := Some "Ok";
                  RoutedPath.firstRoute := Some (Some RoutedPath.NotAnArray) |} |}.


(** A second breadcrumb of vehicle 7 at stop 3, further along. *)
Definition raw_7_3_again : Raw.RawVehicle := {|
  Raw.vehicleID := Val 7;
  Raw.delayMinutes := None;
  Raw.latitude := Some (Fin (4816 # 100));
  Raw.longitude := Some (Fin (1712 # 100));
  Raw.timeTableTrip := None;
  Raw.lastCommunication := None;
  Raw.lastStopOrder := Val 3;
  Raw.isOnStop := None;
  Raw.tooltip := None;
|}.

(** A 200 response whose body is not JSON, and one of an unexpected shape. *)
Definition garbled : UseVehicles.outcome :=
  Ok {| UseVehicles.ok := true; UseVehicles.status := 200;
        UseVehicles.json := Throw (ErrorObject "Unexpected token < in JSON") |}.

Definition unexpected : UseVehicles.outcome :=
  Ok {| UseVehicles.ok := true; UseVehicles.status := 200;
        UseVehicles.json := Ok UseVehicles.OtherShape |}.

(** Trip-detail responses: the three rows above, and a body with a null
    row. *)
Definition tripDelivered : UseTripStops.outcome :=
  Ok {| UseTripStops.ok := true; UseTripStops.status := 200;
        UseTripStops.json := Ok tripBody |}.

Definition tripNullRow : UseTripStops.outcome :=
  Ok {| UseTripStops.ok := true; UseTripStops.status := 200;
        UseTripStops.json :=
          Ok (TripStops.JArray [TripStops.JNull]) |}.

(** Nearby stops: a stop with its own coordinates, the same stop again, a
    bike-sharing entry, and a stop located by its two platforms. *)
Definition sampleTrim (s : string) : string := s.

Definition stopWithCoordinates : TripStops.json :=
  TripStops.JObject
    {[ "stopID" := TripStops.JNumber (Fin 12);
       "stopName" := TripStops.JString "Hlavna stanica";
       "latitude" := TripStops.JNumber (Fin (481 # 10));
       "longitude" := TripStops.JNumber (Fin (171 # 10));
       "forUrbanPublicTransport" := TripStops.JBool true ]}.

Definition bikeStation : TripStops.json :=
  TripStops.JObject
    {[ "stopID" := TripStops.JNumber (Fin 13);
       "latitude" := TripStops.JNumber (Fin (482 # 10));
       "longitude" := TripStops.JNumber (Fin (172 # 10)) ]}.

Definition platformAt (n : Z) (lat : Q) : TripStops.json :=
  TripStops.JObject
    {[ "platformNumber" := TripStops.JNumber (Fin (inject_Z n));
       "platformName" := TripStops.JString "A";
       "latitude" := TripStops.JNumber (Fin lat);
       "longitude" := TripStops.JNumber (Fin (173 # 10)) ]}.

Definition stopWithPlatforms : TripStops.json :=
  TripStops.JObject
    {[ "stopID" := TripStops.JNumber (Fin 14);
       "latitude" := TripStops.JNull;
       "longitude" := TripStops.JNull;
       "platforms" :=
         TripStops.JArray [platformAt 1 (483 # 10); platformAt 2 (484 # 10)];
       "forBusTransport" := TripStops.JBool true ]}.

Definition nearbyStops : list TripStops.json :=
  [stopWithCoordinates; stopWithCoordinates; bikeStation; stopWithPlatforms].

Definition stopsDelivered : UseStops.outcome :=
  Ok {| UseStops.ok := true; UseStops.status := 200;
        UseStops.json := Ok (TripStops.JArray nearbyStops) |}.

(** A stand-in for the printing of numbers that prints whole numbers. *)
Definition printInteger (n : number) : string :=
  match n with
  | Fin q => pretty (Qnum q / Z.pos (Qden q))
  | _ => "NaN"
  end.

End Samples.

(* ===================================================================== *)
(** * Part II.  Properties                                                *)
(* ===================================================================== *)

(** ** The position normaliser *)

Section NormalizeFacts.
Import JS Types Normalize.

(** The record built for [raw] spelled out: what it depends on is the clock
    reading and the entry of the previous map under the record's id. *)
Lemma normalizeVehicle_id raw h : id (normalizeVehicle raw h).1 = makeId raw.
Proof. reflexivity. Qed.

Lemma normalizeVehicle_prev raw h :
  prevLatitude (normalizeVehicle raw h).1
    = latitude <$> (existingMapObj h ≫= (fun m => m !! makeId raw))
  ∧ prevLongitude (normalizeVehicle raw h).1
    = longitude <$> (existingMapObj h ≫= (fun m => m !! makeId raw)).
Proof. split; reflexivity. Qed.

Lemma normalizeVehicle_lastSeen raw h :
  lastSeen (normalizeVehicle raw h).1 = hostClock h (clockCalls h).
Proof. reflexivity. Qed.

(** A call reads the clock once and writes nothing else. *)
Lemma normalizeVehicle_heap raw h :
  (normalizeVehicle raw h).2
  = {| hostClock := hostClock h; clockCalls := S (clockCalls h);
       rawListObj := rawListObj h; existingMapObj := existingMapObj h |}.
Proof. reflexivity. Qed.

(** Two heaps that hold the same previous map give the same record, up to
    the stamp. *)
Lemma normalizeVehicle_erase raw h1 h2 :
  existingMapObj h1 = existingMapObj h2 →
  withLastSeen 0 (normalizeVehicle raw h1).1
  = withLastSeen 0 (normalizeVehicle raw h2).1.
Proof.
  intros He. unfold normalizeVehicle, bind, ret, existingMap_get, Date_now.
  simpl. unfold withLastSeen. simpl. rewrite He. reflexivity.
Qed.

Lemma forOf_cons raw rest map h :
  forOf (raw :: rest) map h
  = forOf rest (<[makeId raw := (normalizeVehicle raw h).1]> map)
      (normalizeVehicle raw h).2.
Proof. reflexivity. Qed.

Lemma forOf_heap raws : ∀ map h,
  hostClock (forOf raws map h).2 = hostClock h
  ∧ clockCalls (forOf raws map h).2 = (clockCalls h + length raws)%nat
  ∧ rawListObj (forOf raws map h).2 = rawListObj h
  ∧ existingMapObj (forOf raws map h).2 = existingMapObj h.
Proof.
  induction raws as [|raw rest IH]; intros map h.
  - simpl. repeat split; lia.
  - rewrite forOf_cons.
    destruct (IH (<[makeId raw := (normalizeVehicle raw h).1]> map)
                 (normalizeVehicle raw h).2) as (Hc & Hk & Hr & He).
    rewrite Hc, Hk, Hr, He, normalizeVehicle_heap. simpl.
    repeat split; lia.
Qed.

(** Every entry of the output is either an entry of the accumulator or the
    record of some raw record of the list, built on a heap with the same
    previous map and a clock reading taken during the loop. *)
Lemma forOf_lookup raws : ∀ map h key v,
  (forOf raws map h).1 !! key = Some v →
  map !! key = Some v
  ∨ ∃ raw h', raw ∈ raws ∧ key = makeId raw ∧ v = (normalizeVehicle raw h').1
      ∧ existingMapObj h' = existingMapObj h
      ∧ hostClock h' = hostClock h
      ∧ (clockCalls h ≤ clockCalls h' < clockCalls h + length raws)%nat.
Proof.
  induction raws as [|raw rest IH]; intros map h key v Hl.
  - left. exact Hl.
  - rewrite forOf_cons in Hl. apply IH in Hl.
    destruct Hl as [Hl | (raw' & h' & Hin & Hk & Hv & He & Hc & Hn)].
    + destruct (decide (makeId raw = key)) as [<- | Hne].
      * rewrite lookup_insert_eq in Hl. inversion Hl; subst.
        right. exists raw, h. repeat split; try reflexivity.
        -- left.
        -- simpl. lia.
      * rewrite lookup_insert_ne in Hl by exact Hne. left. exact Hl.
    + right. exists raw', h'. rewrite normalizeVehicle_heap in He, Hc, Hn.
      simpl in *. repeat split; try assumption; try lia.
      right. exact Hin.
Qed.

Lemma forOf_keeps raws : ∀ map h key,
  is_Some (map !! key) → is_Some ((forOf raws map h).1 !! key).
Proof.
  induction raws as [|r rest IH]; intros map h key Hs; [exact Hs |].
  rewrite forOf_cons. apply IH.
  destruct (decide (makeId r = key)) as [<- | Hne].
  - rewrite lookup_insert_eq. eauto.
  - rewrite lookup_insert_ne by exact Hne. exact Hs.
Qed.

Lemma forOf_member raws : ∀ map h raw,
  raw ∈ raws → is_Some ((forOf raws map h).1 !! makeId raw).
Proof.
  induction raws as [|r rest IH]; intros map h raw Hin.
  - inversion Hin.
  - rewrite forOf_cons. apply elem_of_cons in Hin as [-> | Hin].
    + apply forOf_keeps. rewrite lookup_insert_eq. eauto.
    + apply IH. exact Hin.
Qed.

(** The erased outputs of two loops over the same list agree when the
    accumulators do and the previous maps are the same. *)
Lemma forOf_erase raws : ∀ map1 map2 h1 h2,
  existingMapObj h1 = existingMapObj h2 →
  withLastSeen 0 <$> map1 = withLastSeen 0 <$> map2 →
  withLastSeen 0 <$> (forOf raws map1 h1).1
  = withLastSeen 0 <$> (forOf raws map2 h2).1.
Proof.
  induction raws as [|raw rest IH]; intros map1 map2 h1 h2 He Hm.
  - exact Hm.
  - rewrite !forOf_cons. apply IH.
    + rewrite !normalizeVehicle_heap. exact He.
    + rewrite !fmap_insert, Hm.
      rewrite (normalizeVehicle_erase raw h1 h2 He). reflexivity.
Qed.

(** With the same clock readings the outputs are equal. *)
Lemma forOf_same_clock raws : ∀ map h1 h2,
  existingMapObj h1 = existingMapObj h2 →
  (∀ j, (j < length raws)%nat →
        hostClock h1 (clockCalls h1 + j)%nat = hostClock h2 (clockCalls h2 + j)%nat) →
  (forOf raws map h1).1 = (forOf raws map h2).1.
Proof.
  induction raws as [|raw rest IH]; intros map h1 h2 He Hc.
  - reflexivity.
  - rewrite !forOf_cons.
    assert (Hv : (normalizeVehicle raw h1).1 = (normalizeVehicle raw h2).1).
    { unfold normalizeVehicle, bind, ret, existingMap_get, Date_now. simpl.
      rewrite He. specialize (Hc 0%nat). simpl in Hc.
      rewrite !Nat.add_0_r in Hc. rewrite Hc by lia. reflexivity. }
    rewrite Hv. apply IH.
    + rewrite !normalizeVehicle_heap. exact He.
    + intros j Hj. rewrite !normalizeVehicle_heap. simpl.
      specialize (Hc (S j)). simpl in Hc.
      rewrite <- !Nat.add_succ_comm in Hc. apply Hc. lia.
Qed.

End NormalizeFacts.

Section NormalizeClaims.
Import JS Types Normalize Samples.

(** C3.  For every raw list and previous canonical map: the record built
    for a raw record carries, as [prevLatitude]/[prevLongitude], exactly the
    position of the previous map's record under the same composite id, and
    leaves both unset when the previous map has no such record.  This holds
    for the record [normalizeVehicle] returns and for the entry the output
    map of [normalizeVehicles] holds under that id. *)
Theorem normalize_previous_position
    (clock : nat → Z) (k : nat) (rawList : list Raw.RawVehicle)
    (prev : gmap string Vehicle) (raw : Raw.RawVehicle) :
  raw ∈ rawList →
  let h := {| hostClock := clock; clockCalls := k;
              rawListObj := rawList; existingMapObj := Some prev |} in
  let carried (v : Vehicle) :=
    match prev !! makeId raw with
    | Some old =>
        prevLatitude v = Some (latitude old)
        ∧ prevLongitude v = Some (longitude old)
    | None => prevLatitude v = None ∧ prevLongitude v = None
    end in
  carried (normalizeVehicle raw h).1
  ∧ ∃ v, (call clock k rawList (Some prev)).1 !! makeId raw = Some v
         ∧ id v = makeId raw ∧ carried v.
Proof.
  intros Hin h carried. split.
  - unfold carried. destruct (normalizeVehicle_prev raw h) as [Hla Hlo].
    rewrite Hla, Hlo. simpl. destruct (prev !! makeId raw); simpl; split; reflexivity.
  - unfold call, normalizeVehicles. simpl rawListObj. fold h.
    destruct (forOf_member rawList ∅ h raw Hin) as [v Hv].
    exists v. split; [exact Hv |].
    apply forOf_lookup in Hv as [Hv | (raw' & h' & _ & Hk & -> & He & _)].
    + rewrite lookup_empty in Hv. discriminate.
    + split; [rewrite normalizeVehicle_id; symmetry; exact Hk |].
      unfold carried. destruct (normalizeVehicle_prev raw' h') as [Hla Hlo].
      rewrite Hla, Hlo, He, <- Hk. simpl.
      destruct (prev !! makeId raw); simpl; split; reflexivity.
Qed.

Lemma normalize_previous_position_witness :
  raw_7_3 ∈ [raw_7_3]
  ∧ ∃ v, (call (fun _ => 1000) 0 [raw_7_3] (Some earlierMap)).1 !! "7-3" = Some v
         ∧ prevLatitude v = Some (Fin (4810 # 100))
         ∧ prevLongitude v = Some (Fin (1710 # 100)).
Proof.
  assert (Hin : raw_7_3 ∈ [raw_7_3]) by constructor.
  split; [exact Hin |].
  destruct (normalize_previous_position (fun _ => 1000) 0 [raw_7_3] earlierMap
              raw_7_3 Hin) as (_ & v & Hv & _ & Hc).
  exists v. split; [exact Hv |]. exact Hc.
Defined.




(** From 10^21 on the interpolation prints in exponent form: the id of a
    record whose [vehicleID] is 10^21 starts with ["1e+21"]. *)
Example composite_id_exponent_form :
  makeId raw_1e21_3 = "1e+21-3"
  ∧ template (Val (2 ^ 70)) = "1.1805916207174113e+21"
  ∧ template (Val (- 2 ^ 100)) = "-1.2676506002282294e+30".
Proof. repeat split; vm_compute; reflexivity. Qed.

(** C5 as stated fails: two evaluations on the same inputs, made at
    different times, stamp different [lastSeen] values. *)
Lemma normalize_depends_on_clock :
  (call (fun _ => 1000) 0 [raw_7_3] (Some earlierMap)).1
  ≠ (call (fun _ => 2000) 0 [raw_7_3] (Some earlierMap)).1.
Proof.
  intros Heq.
  apply (f_equal (fun m : gmap string Vehicle => lastSeen <$> m !! "7-3")) in Heq.
  vm_compute in Heq. discriminate.
Qed.

(** C5, amended.  Normalisation is a function of (rawList, previousMap) and
    of the host clock: two evaluations on the same (rawList, previousMap)
    produce maps that are equal once [lastSeen] is erased; every [lastSeen]
    is a clock reading taken during the evaluation; when the readings of
    the two evaluations agree the maps are equal; and neither evaluation
    changes rawList or previousMap (each reads the clock once per record
    and writes nothing else). *)
Theorem normalize_deterministic_up_to_clock
    (clock1 clock2 : nat → Z) (k1 k2 : nat)
    (rawList : list Raw.RawVehicle) (previousMap : option (gmap string Vehicle)) :
  let r1 := call clock1 k1 rawList previousMap in
  let r2 := call clock2 k2 rawList previousMap in
  withLastSeen 0 <$> r1.1 = withLastSeen 0 <$> r2.1
  ∧ (∀ key v, r1.1 !! key = Some v →
       ∃ j, (k1 ≤ j < k1 + length rawList)%nat ∧ lastSeen v = clock1 j)
  ∧ ((∀ j, (j < length rawList)%nat → clock1 (k1 + j)%nat = clock2 (k2 + j)%nat) →
     r1.1 = r2.1)
  ∧ rawListObj r1.2 = rawList ∧ existingMapObj r1.2 = previousMap
  ∧ rawListObj r2.2 = rawList ∧ existingMapObj r2.2 = previousMap
  ∧ clockCalls r1.2 = (k1 + length rawList)%nat.
Proof.
  intros r1 r2. unfold r1, r2, call, normalizeVehicles. simpl rawListObj.
  set (h1 := {| hostClock := clock1; clockCalls := k1;
                rawListObj := rawList; existingMapObj := previousMap |}).
  set (h2 := {| hostClock := clock2; clockCalls := k2;
                rawListObj := rawList; existingMapObj := previousMap |}).
  destruct (forOf_heap rawList ∅ h1) as (_ & Hk1 & Hr1 & He1).
  destruct (forOf_heap rawList ∅ h2) as (_ & _ & Hr2 & He2).
  split; [apply forOf_erase; reflexivity |].
  split.
  { intros key v Hl.
    apply forOf_lookup in Hl as [Hl | (raw & h' & _ & _ & -> & _ & Hc & Hn)].
    - rewrite lookup_empty in Hl. discriminate.
    - exists (clockCalls h'). split; [exact Hn |].
      rewrite normalizeVehicle_lastSeen, Hc. reflexivity. }
  split; [intros Hc; apply forOf_same_clock; [reflexivity | exact Hc] |].
  repeat split; assumption.
Qed.

Lemma normalize_deterministic_up_to_clock_witness :
  (∀ j, (j < length [raw_7_3])%nat →
        (fun _ : nat => 1000) (0 + j)%nat = (fun _ : nat => 1000) (5 + j)%nat)
  ∧ (call (fun _ => 1000) 0 [raw_7_3] (Some earlierMap)).1
    = (call (fun _ => 1000) 5 [raw_7_3] (Some earlierMap)).1.
Proof.
  assert (Hc : ∀ j, (j < length [raw_7_3])%nat →
             (fun _ : nat => 1000) (0 + j)%nat = (fun _ : nat => 1000) (5 + j)%nat)
    by (intros j _; reflexivity).
  split; [exact Hc |].
  destruct (normalize_deterministic_up_to_clock (fun _ => 1000) (fun _ => 1000)
              0 5 [raw_7_3] (Some earlierMap)) as (_ & _ & Heq & _).
  exact (Heq Hc).
Defined.

End NormalizeClaims.

(** ** The poll scheduler *)

Section UseVehiclesFacts.
Import JS Types UseVehicles.

(** A failed attempt runs the [catch] block on the state it started from. *)
Lemma fetchVehicles_failed clock manual o st k err :
  rawListOf o = Throw err →
  (fetchVehicles clock manual o (st, k)).1
  = (if manual then setReloading false else fun s => s)
      (onFailure err ((if manual then setReloading true else fun s => s) st)).
Proof.
  intros Ho. unfold fetchVehicles. rewrite Ho. destruct manual; reflexivity.
Qed.

Lemma failed_throws o : failed o = true → ∃ err, rawListOf o = Throw err.
Proof.
  unfold failed. destruct (rawListOf o) as [l | err]; [discriminate | eauto].
Qed.

Lemma fetchVehicles_failed_backoff clock manual o st k :
  failed o = true →
  backoffRef (fetchVehicles clock manual o (st, k)).1
  = Z.min (backoffRef st * 2) 12.
Proof.
  intros Hf. destruct (failed_throws o Hf) as [err Ho].
  rewrite (fetchVehicles_failed _ _ _ _ _ _ Ho). destruct manual; reflexivity.
Qed.

Lemma fetchVehicles_ok_backoff clock manual o sk :
  failed o = false →
  backoffRef (fetchVehicles clock manual o sk).1 = 1.
Proof.
  unfold failed, fetchVehicles. destruct sk as [st k].
  destruct (rawListOf o) as [l | err]; [intros _ | discriminate].
  unfold onSuccess.
  destruct (Normalize.call clock k l (Some (vehiclesRef _))) as [newMap h].
  destruct manual; reflexivity.
Qed.

Lemma fetches_snoc clock runs r sk :
  fetches clock (runs ++ [r]) sk
  = fetchVehicles clock r.1 r.2 (fetches clock runs sk).
Proof. unfold fetches. rewrite foldl_app. reflexivity. Qed.

Lemma networkOrStatusFailure_throws o :
  networkOrStatusFailure o = true →
  rawListOf o
  = Throw match o with
          | Throw e => e
          | Ok res => ErrorObject ("HTTP " +:+ pretty (status res))
          end.
Proof.
  destruct o as [res | e]; simpl; [| reflexivity].
  destruct (ok res); [discriminate | reflexivity].
Qed.

End UseVehiclesFacts.

Section UseVehiclesClaims.
Import JS Types UseVehicles Samples.

(** C2.  Starting from a multiplier of 1, after N failed fetches in a row
    the multiplier is min(2^N, 12), and the delay handed to the timer is the
    base interval (pollInterval seconds, in ms) times that multiplier; a
    fetch that then succeeds puts the multiplier, and with it the delay,
    back to 1 time the base interval. *)
Theorem backoff_after_failures
    (clock : nat → Z) (settings : AppSettings)
    (runs : list (bool * outcome)) (st : State) (k : nat) :
  backoffRef st = 1 →
  Forall (fun r => failed r.2 = true) runs →
  let after := fetches clock runs (st, k) in
  backoffRef after.1 = Z.min (2 ^ Z.of_nat (length runs)) 12
  ∧ scheduleInterval settings after.1
    = pollInterval settings * 1000 * Z.min (2 ^ Z.of_nat (length runs)) 12
  ∧ ∀ manual o, failed o = false →
      backoffRef (fetchVehicles clock manual o after).1 = 1
      ∧ scheduleInterval settings (fetchVehicles clock manual o after).1
        = pollInterval settings * 1000 * 1.
Proof.
  intros Hb Hall after.
  assert (Hk : backoffRef after.1 = Z.min (2 ^ Z.of_nat (length runs)) 12).
  { unfold after. clear after. induction runs as [|r runs IH] using rev_ind.
    - simpl. rewrite Hb. reflexivity.
    - apply Forall_app in Hall as [Hall Hr].
      apply Forall_inv in Hr.
      rewrite fetches_snoc.
      destruct (fetches clock runs (st, k)) as [st' k'] eqn:Hrun.
      rewrite (fetchVehicles_failed_backoff _ _ _ _ _ Hr).
      specialize (IH Hall). simpl in IH. rewrite IH.
      rewrite length_app. simpl length.
      replace (Z.of_nat (length runs + 1)) with (Z.succ (Z.of_nat (length runs)))
        by lia.
      rewrite Z.pow_succ_r by lia.
      pose proof (Z.pow_pos_nonneg 2 (Z.of_nat (length runs))). lia. }
  split; [exact Hk |].
  split; [unfold scheduleInterval; rewrite Hk; reflexivity |].
  intros manual o Ho. unfold scheduleInterval.
  rewrite (fetchVehicles_ok_backoff _ _ _ _ Ho). split; reflexivity.
Qed.

(** C6.  A fetch that fails by rejection of the request or by a
    non-success status leaves the canonical map as it was, in the state cell
    and in the ref, and records the error message. *)
Theorem failed_fetch_keeps_map
    (clock : nat → Z) (manual : bool) (o : outcome) (st : State) (k : nat) :
  networkOrStatusFailure o = true →
  let st' := (fetchVehicles clock manual o (st, k)).1 in
  vehicles st' = vehicles st
  ∧ vehiclesRef st' = vehiclesRef st
  ∧ lastFetch st' = lastFetch st
  ∧ error st'
    = Some match o with
           | Throw e => errorMessage e
           | Ok res => "HTTP " +:+ pretty (status res)
           end.
Proof.
  intros Hf st'. unfold st'.
  rewrite (fetchVehicles_failed _ _ _ _ _ _ (networkOrStatusFailure_throws o Hf)).
  destruct manual, o as [res | e]; repeat split.
Qed.

End UseVehiclesClaims.

(** ** The heading tracker *)

Section TrackerFacts.
Import JS Types VehicleLayer.
Context {num : Type}.
Variables (zero two : num).
Variables (sub : num → num → num) (neg : num → num).
Variables (hypot atan2 : num → num → num).
Variable gtb : num → num → bool.
Variable toLocal : number → number → num * num.

Abbreviation visit' := (visit zero two sub neg hypot atan2 gtb toLocal).
Abbreviation updateVehicles' :=
  (updateVehicles zero two sub neg hypot atan2 gtb toLocal).
Abbreviation updates' := (updates zero two sub neg hypot atan2 gtb toLocal).

(** Visiting a vehicle leaves an entry under its physical id and touches no
    other key. *)
Lemma visit_dom (orc : RoadOracle num) (st : Layer num) (v : Vehicle) :
  dom (headingTracker (visit' orc st v))
  = {[ vehicleID v ]} ∪ dom (headingTracker st).
Proof.
  unfold visit. destruct (toLocal (longitude v) (latitude v)) as [lx lz].
  destruct (headingTracker st !! vehicleID v) as [t|] eqn:Ht; simpl.
  - assert (Hin : vehicleID v ∈ dom (headingTracker st))
      by (apply elem_of_dom; eauto).
    destruct (orc _ _ _ _) as [rm|]; [| destruct (moved _ _ _ _ _ _ _)];
      simpl; rewrite ?dom_insert_L; set_solver.
  - destruct (orc _ _ _ _) as [rm|]; simpl; rewrite dom_insert_L; reflexivity.
Qed.

Lemma foldl_visit_dom (orc : RoadOracle num) (vehicles : list Vehicle) :
  ∀ st : Layer num,
    dom (headingTracker (foldl (visit' orc) st vehicles))
    = list_to_set (vehicleID <$> vehicles) ∪ dom (headingTracker st).
Proof.
  induction vehicles as [|v rest IH]; intros st; simpl.
  - set_solver.
  - rewrite IH, visit_dom. set_solver.
Qed.

Lemma updateVehicles_dom (orc : RoadOracle num) (st : Layer num)
    (vehicles : list Vehicle) :
  dom (headingTracker (updateVehicles' orc st vehicles))
  = list_to_set (vehicleID <$> vehicles).
Proof.
  unfold updateVehicles. simpl. apply set_eq. intros k.
  rewrite elem_of_dom. split.
  - intros [t Ht]. apply map_lookup_filter_Some in Ht as [_ Hin]. exact Hin.
  - intros Hin.
    assert (Hk : k ∈ dom (headingTracker (foldl (visit' orc) st vehicles))).
    { rewrite foldl_visit_dom. apply elem_of_union_l. exact Hin. }
    apply elem_of_dom in Hk as [t Ht]. exists t.
    apply map_lookup_filter_Some. split; [exact Ht | exact Hin].
Qed.

(** C1.  After any update of any sequence of updates, started from any
    tracker, the keys of [headingTracker] are exactly the physical ids
    ([vehicleID]) of the vehicle list passed to that update. *)
Theorem heading_tracker_keys
    (st : Layer num) (earlier : list (RoadOracle num * list Vehicle))
    (orc : RoadOracle num) (vehicles : list Vehicle) :
  dom (headingTracker (updates' st (earlier ++ [(orc, vehicles)])))
  = list_to_set (vehicleID <$> vehicles).
Proof.
  unfold updates. rewrite foldl_app. simpl. apply updateVehicles_dom.
Qed.

End TrackerFacts.

(** ** Angle differences

    Binary64 comparisons, read through their specification on [spec_float]. *)

Section FloatFacts.
Import VehicleLayer.

Lemma compare_cont_antisym (p q : positive) :
  PosDef.Pos.compare_cont Eq q p = CompOpp (PosDef.Pos.compare_cont Eq p q).
Proof. symmetry. exact (Pos.compare_cont_antisym p q Eq). Qed.

Lemma compare_cont_refl (p : positive) : PosDef.Pos.compare_cont Eq p p = Eq.
Proof. exact (Pos.compare_cont_refl p Eq). Qed.

Lemma SFcompare_antisym (x y : spec_float) :
  SFcompare y x = option_map CompOpp (SFcompare x y).
Proof.
  destruct x as [sx|sx| |sx mx ex], y as [sy|sy| |sy my ey]; simpl;
    try reflexivity; try (destruct sx; reflexivity);
    try (destruct sy; reflexivity); try (destruct sx, sy; reflexivity).
  destruct sx, sy; simpl; try reflexivity;
    rewrite (Z.compare_antisym ex ey); destruct (ex ?= ey)%Z; simpl;
    try reflexivity.
  - rewrite (compare_cont_antisym mx my).
    destruct (PosDef.Pos.compare_cont Eq mx my); reflexivity.
  - rewrite (compare_cont_antisym mx my). reflexivity.
Qed.

Lemma SFcompare_refl (x : spec_float) :
  x ≠ S754_nan → SFcompare x x = Some Eq.
Proof.
  destruct x as [s|s| |s m e]; simpl; intros Hx;
    [reflexivity | destruct s; reflexivity | contradiction |].
  rewrite Z.compare_refl, compare_cont_refl. destruct s; reflexivity.
Qed.

Lemma SFcompare_None (x y : spec_float) :
  SFcompare x y = None ↔ x = S754_nan ∨ y = S754_nan.
Proof.
  destruct x as [sx|sx| |sx mx ex], y as [sy|sy| |sy my ey]; simpl;
    split; intros H; try discriminate; try tauto;
    try (destruct H; discriminate).
Qed.

Lemma is_nan_spec (x : float) :
  PrimFloat.is_nan x = true ↔ Prim2SF x = S754_nan.
Proof.
  unfold PrimFloat.is_nan. rewrite FloatAxioms.eqb_spec. unfold SFeqb.
  destruct (Prim2SF x) as [s|s| |s m e]; simpl;
    rewrite ?Z.compare_refl, ?compare_cont_refl; try destruct s; simpl;
    split; intros H; try discriminate; reflexivity.
Qed.

Lemma not_nan_spec (x : float) :
  PrimFloat.is_nan x = false ↔ Prim2SF x ≠ S754_nan.
Proof.
  rewrite <- is_nan_spec. destruct (PrimFloat.is_nan x); split; auto; try discriminate.
  intros H. exfalso. apply H. reflexivity.
Qed.

Lemma ltb_leb (x y : float) : (x <? y)%float = true → (x <=? y)%float = true.
Proof.
  rewrite FloatAxioms.ltb_spec, FloatAxioms.leb_spec. unfold SFltb, SFleb.
  destruct (SFcompare _ _) as [[]|]; auto.
Qed.

Lemma ltb_asym (x y : float) : (x <? y)%float = true → (y <? x)%float = false.
Proof.
  rewrite !FloatAxioms.ltb_spec. unfold SFltb.
  rewrite (SFcompare_antisym (Prim2SF x) (Prim2SF y)).
  destruct (SFcompare (Prim2SF x) (Prim2SF y)) as [[]|]; simpl; auto; discriminate.
Qed.

Lemma ltb_not_nan (x y : float) :
  (x <? y)%float = true → PrimFloat.is_nan x = false ∧ PrimFloat.is_nan y = false.
Proof.
  rewrite FloatAxioms.ltb_spec, !not_nan_spec. unfold SFltb. intros H.
  split; intros Hn; rewrite Hn in H; simpl in H;
    [| destruct (Prim2SF x)]; discriminate.
Qed.

Lemma leb_not_nan (x y : float) :
  (x <=? y)%float = true → PrimFloat.is_nan x = false ∧ PrimFloat.is_nan y = false.
Proof.
  rewrite FloatAxioms.leb_spec, !not_nan_spec. unfold SFleb. intros H.
  split; intros Hn; rewrite Hn in H; simpl in H;
    [| destruct (Prim2SF x)]; discriminate.
Qed.

(** For two numbers, what is not above is at most. *)
Lemma not_ltb_leb (x y : float) :
  PrimFloat.is_nan x = false → PrimFloat.is_nan y = false →
  (y <? x)%float = false → (x <=? y)%float = true.
Proof.
  rewrite !not_nan_spec, FloatAxioms.ltb_spec, FloatAxioms.leb_spec. unfold SFltb, SFleb.
  intros Hx Hy. rewrite (SFcompare_antisym (Prim2SF x) (Prim2SF y)).
  destruct (SFcompare (Prim2SF x) (Prim2SF y)) as [[]|] eqn:Hc; simpl; auto;
    try discriminate.
  apply SFcompare_None in Hc. tauto.
Qed.

Lemma leb_refl (x : float) : PrimFloat.is_nan x = false → (x <=? x)%float = true.
Proof.
  rewrite not_nan_spec, FloatAxioms.leb_spec. unfold SFleb. intros Hx.
  rewrite (SFcompare_refl _ Hx). reflexivity.
Qed.

Lemma SFcompare_opp (x y : spec_float) :
  SFcompare (SFopp x) (SFopp y) = SFcompare y x.
Proof.
  destruct x as [sx|sx| |sx mx ex], y as [sy|sy| |sy my ey]; simpl;
    try reflexivity; try (destruct sx; reflexivity);
    try (destruct sy; reflexivity); try (destruct sx, sy; reflexivity).
  destruct sx, sy; simpl; try reflexivity;
    rewrite (Z.compare_antisym ex ey); destruct (ex ?= ey)%Z; simpl;
    try reflexivity.
  - rewrite (compare_cont_antisym mx my).
    destruct (PosDef.Pos.compare_cont Eq mx my); reflexivity.
  - rewrite (compare_cont_antisym mx my).
    destruct (PosDef.Pos.compare_cont Eq mx my); reflexivity.
Qed.

Lemma leb_opp (x y : float) : (- x <=? - y)%float = (y <=? x)%float.
Proof. rewrite !FloatAxioms.leb_spec, !FloatAxioms.opp_spec. unfold SFleb. rewrite SFcompare_opp. reflexivity. Qed.

Lemma ltb_opp (x y : float) : (- x <? - y)%float = (y <? x)%float.
Proof. rewrite !FloatAxioms.ltb_spec, !FloatAxioms.opp_spec. unfold SFltb. rewrite SFcompare_opp. reflexivity. Qed.

Lemma opp_involutive (x : float) : (- - x)%float = x.
Proof.
  apply Prim2SF_inj. rewrite !FloatAxioms.opp_spec.
  destruct (Prim2SF x) as [s|s| |s m e]; simpl; rewrite ?negb_involutive; reflexivity.
Qed.

Lemma is_nan_opp (x : float) : PrimFloat.is_nan (- x) = PrimFloat.is_nan x.
Proof.
  destruct (PrimFloat.is_nan x) eqn:Hx.
  - apply is_nan_spec. apply is_nan_spec in Hx. rewrite FloatAxioms.opp_spec, Hx. reflexivity.
  - apply not_nan_spec. apply not_nan_spec in Hx. rewrite FloatAxioms.opp_spec.
    destruct (Prim2SF x); simpl; try discriminate. contradiction.
Qed.

Lemma SFopp_involutive (x : spec_float) : SFopp (SFopp x) = x.
Proof. destruct x; simpl; rewrite ?negb_involutive; reflexivity. Qed.

Lemma SFcompare_abs (x b : spec_float) :
  SFcompare (SFabs x) b = SFcompare x b
  ∨ SFcompare (SFabs x) b = SFcompare (SFopp b) x.
Proof.
  destruct x as [s|s| |s m e].
  - left. destruct b; reflexivity.
  - destruct s; [right | left; reflexivity].
    rewrite <- (SFopp_involutive b) at 1.
    change (SFabs (S754_infinity true)) with (SFopp (S754_infinity true)).
    apply SFcompare_opp.
  - left. reflexivity.
  - destruct s; [right | left; reflexivity].
    rewrite <- (SFopp_involutive b) at 1.
    change (SFabs (S754_finite true m e)) with (SFopp (S754_finite true m e)).
    apply SFcompare_opp.
Qed.

(** The magnitude of a number between [- b] and [b] is at most [b]. *)
Lemma abs_leb (x b : float) :
  PrimFloat.is_nan x = false → PrimFloat.is_nan b = false →
  (x <? - b)%float = false → (b <? x)%float = false →
  (abs x <=? b)%float = true.
Proof.
  intros Hx Hb Hlo Hhi.
  assert (H1 : (x <=? b)%float = true) by (apply not_ltb_leb; assumption).
  assert (H2 : (- b <=? x)%float = true).
  { apply not_ltb_leb; [rewrite is_nan_opp; exact Hb | exact Hx | exact Hlo]. }
  rewrite FloatAxioms.leb_spec in *. rewrite FloatAxioms.opp_spec in H2.
  rewrite FloatAxioms.abs_spec. unfold SFleb in *.
  destruct (SFcompare_abs (Prim2SF x) (Prim2SF b)) as [-> | ->]; assumption.
Qed.


(** [Math.min] and [Math.max] *)

Lemma nan_is_nan : PrimFloat.is_nan PrimFloat.nan = true.
Proof. reflexivity. Qed.

Lemma Math_min_nan (a b : float) :
  PrimFloat.is_nan a = true ∨ PrimFloat.is_nan b = true →
  Math_min a b = PrimFloat.nan.
Proof.
  unfold Math_min. intros [H | H]; rewrite H; [reflexivity |].
  rewrite orb_true_r. reflexivity.
Qed.

Lemma Math_max_nan (a b : float) :
  PrimFloat.is_nan a = true ∨ PrimFloat.is_nan b = true →
  Math_max a b = PrimFloat.nan.
Proof.
  unfold Math_max. intros [H | H]; rewrite H; [reflexivity |].
  rewrite orb_true_r. reflexivity.
Qed.

(** The smaller of two numbers is one of them and at most each. *)
Lemma Math_min_spec (a b : float) :
  PrimFloat.is_nan a = false → PrimFloat.is_nan b = false →
  (Math_min a b = a ∨ Math_min a b = b)
  ∧ (Math_min a b <=? a)%float = true
  ∧ (Math_min a b <=? b)%float = true.
Proof.
  intros Ha Hb. unfold Math_min. rewrite Ha, Hb. simpl.
  destruct (a <? b)%float eqn:Hab.
  - split; [left; reflexivity |]. split; [apply leb_refl; exact Ha |].
    apply ltb_leb. exact Hab.
  - destruct (b <? a)%float eqn:Hba.
    + split; [right; reflexivity |]. split; [apply ltb_leb; exact Hba |].
      apply leb_refl. exact Hb.
    + assert (H1 : (a <=? b)%float = true) by (apply not_ltb_leb; assumption).
      assert (H2 : (b <=? a)%float = true) by (apply not_ltb_leb; assumption).
      destruct (PrimFloat.is_zero b && PrimFloat.get_sign b).
      * split; [right; reflexivity |]. split; [exact H2 |].
        apply leb_refl. exact Hb.
      * split; [left; reflexivity |]. split; [apply leb_refl; exact Ha |].
        exact H1.
Qed.

Lemma Math_max_spec (a b : float) :
  PrimFloat.is_nan a = false → PrimFloat.is_nan b = false →
  (Math_max a b = a ∨ Math_max a b = b)
  ∧ (a <=? Math_max a b)%float = true
  ∧ (b <=? Math_max a b)%float = true.
Proof.
  intros Ha Hb. unfold Math_max. rewrite Ha, Hb. simpl.
  destruct (b <? a)%float eqn:Hba.
  - split; [left; reflexivity |]. split; [apply leb_refl; exact Ha |].
    apply ltb_leb. exact Hba.
  - destruct (a <? b)%float eqn:Hab.
    + split; [right; reflexivity |]. split; [apply ltb_leb; exact Hab |].
      apply leb_refl. exact Hb.
    + assert (H1 : (a <=? b)%float = true) by (apply not_ltb_leb; assumption).
      assert (H2 : (b <=? a)%float = true) by (apply not_ltb_leb; assumption).
      destruct (PrimFloat.is_zero a && PrimFloat.get_sign a).
      * split; [right; reflexivity |]. split; [exact H1 |].
        apply leb_refl. exact Hb.
      * split; [left; reflexivity |]. split; [apply leb_refl; exact Ha |].
        exact H2.
Qed.

(** A clamped value is [NaN] exactly when one of the three numbers is, and
    lies between the bounds otherwise. *)
Lemma clamp_spec (value lo hi : float) :
  (lo <=? hi)%float = true →
  (PrimFloat.is_nan value = true ∧ clamp value lo hi = PrimFloat.nan)
  ∨ (PrimFloat.is_nan value = false
     ∧ (clamp value lo hi = value ∨ clamp value lo hi = lo
        ∨ clamp value lo hi = hi)
     ∧ (lo <=? clamp value lo hi)%float = true
     ∧ (clamp value lo hi <=? hi)%float = true).
Proof.
  intros Hle. destruct (leb_not_nan _ _ Hle) as [Hlo Hhi].
  unfold clamp. destruct (PrimFloat.is_nan value) eqn:Hv.
  - left. split; [reflexivity |].
    rewrite (Math_min_nan hi value) by (right; exact Hv).
    apply Math_max_nan. right. reflexivity.
  - right. split; [reflexivity |].
    destruct (Math_min_spec hi value Hhi Hv) as (Hmin & Hm1 & Hm2).
    assert (Hmn : PrimFloat.is_nan (Math_min hi value) = false)
      by (destruct Hmin as [-> | ->]; assumption).
    destruct (Math_max_spec lo (Math_min hi value) Hlo Hmn) as (Hmax & HM1 & HM2).
    split; [| split; [exact HM1 |]].
    + destruct Hmax as [-> | ->]; [right; left; reflexivity |].
      destruct Hmin as [-> | ->]; [right; right; reflexivity | left; reflexivity].
    + destruct Hmax as [-> | ->]; [exact Hle | exact Hm1].
Qed.

(** The sign of a rounded product is the sign handed to the rounding. *)
Lemma binary_round_aux_sign (s : bool) (m e : Z) (l : location) :
  let r := binary_round_aux prec emax s m e l in
  r = S754_zero s ∨ r = S754_infinity s ∨ r = S754_nan
  ∨ ∃ m' e', r = S754_finite s m' e'.
Proof.
  unfold binary_round_aux.
  destruct (shr_fexp prec emax m e l) as [mrs' e'].
  destruct (shr_fexp prec emax _ e' loc_Exact) as [mrs'' e''].
  destruct (shr_m mrs''); [left; reflexivity | | right; right; left; reflexivity].
  destruct (e'' <=? emax - prec)%Z; [| right; left; reflexivity].
  right. right. right. eauto.
Qed.

(** The product of a positive number and a number that is not negative is
    [NaN] or not negative. *)
Lemma mul_nonneg (a b : float) :
  (0 <? a)%float = true → (0 <=? b)%float = true →
  PrimFloat.is_nan (a * b)%float = true ∨ (0 <=? a * b)%float = true.
Proof.
  rewrite FloatAxioms.ltb_spec, !FloatAxioms.leb_spec, is_nan_spec,
    FloatAxioms.mul_spec.
  change (Prim2SF 0) with (S754_zero false). unfold SFltb, SFleb, SF64mul, SFmul.
  intros Ha Hb.
  destruct (Prim2SF a) as [sa|sa| |sa ma ea]; simpl in Ha; try discriminate;
    destruct sa; try discriminate;
    destruct (Prim2SF b) as [sb|sb| |sb mb eb]; simpl in Hb; try discriminate;
    try (destruct sb; try discriminate); simpl;
    try (right; reflexivity); try (left; reflexivity).
  destruct (binary_round_aux_sign false (Z.pos (ma * mb)) (ea + eb) loc_Exact)
    as [-> | [-> | [-> | (m' & e' & ->)]]]; simpl; auto.
Qed.

(** A number that is not negative is at least its opposite. *)
Lemma opp_leb_self (m : float) :
  (0 <=? m)%float = true → (- m <=? m)%float = true.
Proof.
  rewrite !FloatAxioms.leb_spec, FloatAxioms.opp_spec.
  change (Prim2SF 0) with (S754_zero false). unfold SFleb.
  destruct (Prim2SF m) as [s|s| |s mm e]; simpl; try discriminate;
    try reflexivity; destruct s; simpl; try discriminate; reflexivity.
Qed.

Lemma leb_not_ltb (x y : float) :
  (x <=? y)%float = true → (y <? x)%float = false.
Proof.
  rewrite FloatAxioms.leb_spec, FloatAxioms.ltb_spec. unfold SFleb, SFltb.
  rewrite (SFcompare_antisym (Prim2SF x) (Prim2SF y)).
  destruct (SFcompare (Prim2SF x) (Prim2SF y)) as [[| |]|]; simpl;
    intros H; try reflexivity; discriminate.
Qed.

Lemma is_nan_abs (x : float) :
  PrimFloat.is_nan (PrimFloat.abs x) = PrimFloat.is_nan x.
Proof.
  destruct (PrimFloat.is_nan x) eqn:E.
  - apply is_nan_spec. rewrite FloatAxioms.abs_spec.
    apply is_nan_spec in E. rewrite E. reflexivity.
  - apply not_nan_spec. rewrite FloatAxioms.abs_spec.
    apply not_nan_spec in E. destruct (Prim2SF x); try discriminate.
    contradiction.
Qed.

(** No number is below a [NaN]. *)
Lemma ltb_nan_r (x y : float) :
  PrimFloat.is_nan y = true → (x <? y)%float = false.
Proof.
  intros Hn. destruct (x <? y)%float eqn:E; [| reflexivity].
  destruct (ltb_not_nan _ _ E) as [_ H]. rewrite H in Hn. discriminate.
Qed.

End FloatFacts.

(** *** Rounding near [Math.PI] *)

(** The 53 digits of [Math.PI], which is [pi_m * 2 ^ -51]. *)
Abbreviation pi_m := 7074237752028440%positive.

Section RoundingFacts.
Import VehicleLayer.

Lemma iter_xO_spec (d m : positive) :
  Z.pos (PosDef.Pos.iter xO m d) = Z.pos m * 2 ^ Z.pos d.
Proof.
  change (PosDef.Pos.iter xO m d) with (Pos.iter xO m d).
  induction d as [|d IH] using Pos.peano_ind.
  - simpl. lia.
  - rewrite Pos.iter_succ, Pos2Z.inj_xO, IH, Pos2Z.inj_succ, Z.pow_succ_r by lia.
    lia.
Qed.

Lemma digits_iter_xO (d m : positive) :
  digits2_pos (PosDef.Pos.iter xO m d) = (digits2_pos m + d)%positive.
Proof.
  change (PosDef.Pos.iter xO m d) with (Pos.iter xO m d).
  induction d as [|d IH] using Pos.peano_ind.
  - simpl. lia.
  - rewrite Pos.iter_succ. simpl. rewrite IH. lia.
Qed.

Lemma digits_bounds (m : positive) :
  2 ^ (Z.pos (digits2_pos m) - 1) <= Z.pos m < 2 ^ Z.pos (digits2_pos m).
Proof.
  change digits2_pos with Pos.size.
  pose proof (Pos.size_gt m) as Hgt. pose proof (Pos.size_le m) as Hle.
  apply Pos2Z.pos_lt_pos in Hgt. apply Pos2Z.pos_le_pos in Hle.
  rewrite Pos2Z.inj_pow in Hgt, Hle. change (Z.pos m~0) with (2 * Z.pos m) in Hle.
  split; [| exact Hgt].
  replace (Z.pos (Pos.size m)) with (Z.succ (Z.pos (Pos.size m) - 1)) in Hle by lia.
  rewrite Z.pow_succ_r in Hle by lia. lia.
Qed.

Lemma digits_le (m : positive) (k : Z) :
  0 <= k → Z.pos m < 2 ^ k → Z.pos (digits2_pos m) <= k.
Proof.
  intros Hk Hm. destruct (digits_bounds m) as [Hlo _].
  destruct (Z_le_gt_dec (Z.pos (digits2_pos m)) k) as [H | H]; [exact H |].
  assert (2 ^ k <= 2 ^ (Z.pos (digits2_pos m) - 1))
    by (apply Z.pow_le_mono_r; lia).
  lia.
Qed.

(** Rounding a number of at most 53 digits, far from both ends of the
    exponent range, only shifts it to 53 digits. *)
Lemma binary_round_short (s : bool) (S : positive) (ez : Z) :
  Z.pos (digits2_pos S) <= 53 → -1000 <= ez <= 900 →
  ∃ mz,
    binary_round prec emax s S ez
    = S754_finite s mz (ez - (53 - Z.pos (digits2_pos S)))
    ∧ Z.pos mz = Z.pos S * 2 ^ (53 - Z.pos (digits2_pos S)).
Proof.
  intros Hd He. unfold binary_round.
  assert (Hf : fexp prec emax (Z.pos (digits2_pos S) + ez)
               = ez - (53 - Z.pos (digits2_pos S))).
  { unfold fexp, emin, prec, emax. lia. }
  rewrite Hf. unfold shl_align.
  assert (Haux : ∀ mz e', Z.pos (digits2_pos mz) = 53 → -1074 <= e' <= 971 →
            binary_round_aux prec emax s (Z.pos mz) e' loc_Exact
            = S754_finite s mz e').
  { intros mz e' Hmz He'. unfold binary_round_aux, shr_fexp. simpl Zdigits2.
    rewrite Hmz.
    assert (Hz : fexp prec emax (53 + e') - e' = 0)
      by (unfold fexp, emin, prec, emax; lia).
    rewrite Hz. simpl. rewrite Hmz, Hz. simpl.
    assert (Hle : (e' <=? emax - prec) = true)
      by (apply Z.leb_le; unfold prec, emax; lia).
    rewrite Hle. reflexivity. }
  destruct (ez - (53 - Z.pos (digits2_pos S)) - ez) as [|p|p] eqn:Hs; try lia.
  - exists S. assert (Hd53 : Z.pos (digits2_pos S) = 53) by lia.
    rewrite Hd53. replace (ez - (53 - 53)) with ez by lia.
    split; [apply Haux; lia |]. simpl. lia.
  - exists (PosDef.Pos.iter xO S p).
    split.
    + apply Haux; [| lia]. rewrite digits_iter_xO. lia.
    + rewrite iter_xO_spec. f_equal. f_equal. lia.
Qed.


Lemma Prim2SF_pi : Prim2SF MathPI = S754_finite false pi_m (-51).
Proof. reflexivity. Qed.

Lemma Prim2SF_two_pi : Prim2SF (2 * MathPI) = S754_finite false pi_m (-50).
Proof. reflexivity. Qed.

Lemma Prim2SF_minus_pi : Prim2SF (- MathPI) = S754_finite true pi_m (-51).
Proof. reflexivity. Qed.


(** A number of magnitude below [Math.PI], given as an integer at one of the
    two exponents of the loops, is rounded to a number of magnitude at most
    [Math.PI]. *)
Lemma round_within_pi (s : bool) (S : positive) (ez : Z) :
  ez = -51 ∨ ez = -50 →
  Z.pos S * 2 ^ (ez + 51) < Z.pos pi_m →
  ∃ mz e',
    binary_round prec emax s S ez = S754_finite s mz e'
    ∧ (e' < -51 ∨ (e' = -51 ∧ Z.pos mz < Z.pos pi_m)).
Proof.
  intros Hez Hlt.
  assert (Hpi : Z.pos pi_m < 2 ^ 53) by (vm_compute; reflexivity).
  assert (HS : Z.pos S * 2 ^ (ez + 51) < 2 ^ 53) by lia.
  assert (Hd : Z.pos (digits2_pos S) <= 53 - (ez + 51)).
  { apply digits_le; [lia |].
    destruct Hez as [-> | ->]; simpl in HS |- *; lia. }
  destruct (binary_round_short s S ez) as (mz & -> & Hmz); [lia | lia |].
  eexists _, _. split; [reflexivity |].
  destruct (Z_lt_le_dec (ez - (53 - Z.pos (digits2_pos S))) (-51)) as [He | He];
    [left; exact He | right].
  split; [lia |]. rewrite Hmz.
  replace (53 - Z.pos (digits2_pos S)) with (ez + 51) by lia. exact Hlt.
Qed.

Lemma binary_round_sign (s : bool) (m : positive) (e : Z) :
  let r := binary_round prec emax s m e in
  r = S754_zero s ∨ r = S754_infinity s ∨ r = S754_nan
  ∨ ∃ m' e', r = S754_finite s m' e'.
Proof.
  unfold binary_round. destruct (shl_align _ _ _) as [mz ez].
  apply binary_round_aux_sign.
Qed.

Lemma shl_align_value (m : positive) (e ez : Z) :
  ez <= e → Z.pos (fst (shl_align m e ez)) = Z.pos m * 2 ^ (e - ez).
Proof.
  intros Hle. unfold shl_align.
  destruct (ez - e) as [|p|p] eqn:Hs; try lia; simpl fst.
  - replace (e - ez) with 0 by lia. simpl. lia.
  - rewrite iter_xO_spec. f_equal. f_equal. lia.
Qed.

(** A valid number with an exponent above the least one has 53 digits. *)
Lemma valid_digits (s : bool) (m : positive) (e : Z) :
  SpecFloat.valid_binary prec emax (S754_finite s m e) = true → -1074 < e →
  Z.pos (digits2_pos m) = 53.
Proof.
  unfold SpecFloat.valid_binary, bounded, canonical_mantissa, fexp, emin, prec, emax.
  intros Hv He. apply andb_prop in Hv as [Hc _]. apply Z.eqb_eq in Hc. lia.
Qed.

Lemma pi_m_bounds : 2 ^ 52 < Z.pos pi_m < 2 ^ 53.
Proof. split; vm_compute; reflexivity. Qed.

Lemma pos_compare_cont (p q : positive) :
  PosDef.Pos.compare_cont Eq p q = (Z.pos p ?= Z.pos q).
Proof. reflexivity. Qed.

(** What it takes for a number to be below [-Math.PI]. *)
Lemma below_minus_pi (x : spec_float) :
  SFltb x (S754_finite true pi_m (-51)) = true →
  x = S754_infinity true
  ∨ ∃ m e, x = S754_finite true m e
           ∧ (-51 < e ∨ (e = -51 ∧ Z.pos pi_m < Z.pos m)).
Proof.
  unfold SFltb, SFcompare.
  destruct x as [s|s| |s m e]; try discriminate.
  - destruct s; [left; reflexivity | discriminate].
  - destruct s; [| discriminate]. intros H. right. exists m, e.
    split; [reflexivity |].
    destruct (Z.compare_spec e (-51)) as [He | He | He]; try discriminate;
      [right | left; lia].
    split; [exact He |]. rewrite pos_compare_cont in H.
    destruct (Z.compare_spec (Z.pos m) (Z.pos pi_m)); try discriminate. lia.
Qed.

Lemma above_pi (x : spec_float) :
  SFltb (S754_finite false pi_m (-51)) x = true →
  x = S754_infinity false
  ∨ ∃ m e, x = S754_finite false m e
           ∧ (-51 < e ∨ (e = -51 ∧ Z.pos pi_m < Z.pos m)).
Proof.
  unfold SFltb, SFcompare.
  destruct x as [s|s| |s m e]; try discriminate.
  - destruct s; [discriminate | left; reflexivity].
  - destruct s; [discriminate |]. intros H. right. exists m, e.
    split; [reflexivity |].
    destruct (Z.compare_spec (-51) e) as [He | He | He]; try discriminate;
      [right | left; lia].
    split; [lia |]. rewrite pos_compare_cont in H.
    destruct (Z.compare_spec (Z.pos pi_m) (Z.pos m)); try discriminate. lia.
Qed.

(** The integer that the sum of a number beyond half a turn and a whole turn
    the other way is rounded from: zero, of the sign of the number, or of
    magnitude below [Math.PI]. *)
Lemma turn_back (m : positive) (e : Z) :
  Z.pos (digits2_pos m) = 53 →
  -51 < e ∨ (e = -51 ∧ Z.pos pi_m < Z.pos m) →
  let ez := Z.min e (-50) in
  let z := Z.pos (fst (shl_align pi_m (-50) ez)) - Z.pos (fst (shl_align m e ez)) in
  (ez = -51 ∨ ez = -50) ∧ (z <= 0 ∨ z * 2 ^ (ez + 51) < Z.pos pi_m).
Proof.
  intros Hd He ez z. subst z.
  assert (Hez : ez <= e ∧ ez <= -50 ∧ (ez = -51 ∨ ez = -50)) by (subst ez; lia).
  destruct Hez as (H1 & H2 & H3). split; [exact H3 |].
  rewrite !shl_align_value by assumption.
  destruct (digits_bounds m) as [Hlo Hhi]. rewrite Hd in Hlo, Hhi.
  change (2 ^ (53 - 1)) with (2 ^ 52) in Hlo.
  pose proof pi_m_bounds as [Hp1 Hp2].
  destruct H3 as [Hz | Hz]; rewrite Hz.
  - assert (e = -51) by lia. subst e.
    change (-50 - -51) with 1. change (-51 - -51) with 0.
    change (-51 + 51) with 0. right. lia.
  - change (-50 - -50) with 0. change (-50 + 51) with 1.
    destruct (Z.eq_dec e (-50)) as [-> | Hne].
    + change (-50 - -50) with 0. right. lia.
    + left. assert (2 ^ 1 <= 2 ^ (e - -50)) by (apply Z.pow_le_mono_r; lia).
      change (2 ^ 1) with 2 in *. nia.
Qed.

End RoundingFacts.

Section TurnFacts.
Import VehicleLayer.

(** Adding a whole turn to a number below [-Math.PI] does not give a number
    above [Math.PI]. *)
Lemma SFadd_turn_not_above (D : spec_float) :
  SpecFloat.valid_binary prec emax D = true →
  SFltb D (S754_finite true pi_m (-51)) = true →
  SFltb (S754_finite false pi_m (-51))
        (SFadd prec emax D (S754_finite false pi_m (-50))) = false.
Proof.
  intros Hv Hlt.
  destruct (below_minus_pi _ Hlt) as [-> | (m & e & -> & He)]; [reflexivity |].
  assert (Hd : Z.pos (digits2_pos m) = 53)
    by (apply (valid_digits true m e Hv); lia).
  destruct (turn_back m e Hd He) as [Hez Hz]. cbv zeta in Hez, Hz.
  unfold SFadd, cond_Zopp.
  set (ez := Z.min e (-50)) in *.
  rewrite Z.add_comm, Z.add_opp_r.
  set (z := Z.pos _ - Z.pos _) in *.
  unfold binary_normalize. destruct z as [|S|S] eqn:Ez.
  - reflexivity.
  - destruct Hz as [Hz | Hz]; [lia |].
    destruct (round_within_pi false S ez Hez Hz) as (mz & e' & -> & Hb).
    unfold SFltb, SFcompare. rewrite pos_compare_cont.
    destruct (Z.compare_spec (-51) e'); try reflexivity; try lia.
    destruct (Z.compare_spec (Z.pos pi_m) (Z.pos mz)); try reflexivity; lia.
  - destruct (binary_round_sign true S ez) as [-> | [-> | [-> | (m' & e' & ->)]]];
      reflexivity.
Qed.

(** Subtracting a whole turn from a number above [Math.PI] does not give a
    number below [-Math.PI]. *)
Lemma SFsub_turn_not_below (D : spec_float) :
  SpecFloat.valid_binary prec emax D = true →
  SFltb (S754_finite false pi_m (-51)) D = true →
  SFltb (SFsub prec emax D (S754_finite false pi_m (-50)))
        (S754_finite true pi_m (-51)) = false.
Proof.
  intros Hv Hlt.
  destruct (above_pi _ Hlt) as [-> | (m & e & -> & He)]; [reflexivity |].
  assert (Hd : Z.pos (digits2_pos m) = 53)
    by (apply (valid_digits false m e Hv); lia).
  destruct (turn_back m e Hd He) as [Hez Hz]. cbv zeta in Hez, Hz.
  unfold SFsub, cond_Zopp.
  set (ez := Z.min e (-50)) in *.
  set (z := Z.pos _ - Z.pos _) in Hz.
  set (z' := Z.pos _ - Z.pos _).
  assert (Hz' : z' = - z) by (subst z z'; lia).
  unfold binary_normalize. destruct z' as [|S|S] eqn:Ez.
  - reflexivity.
  - destruct (binary_round_sign false S ez) as [-> | [-> | [-> | (m' & e' & ->)]]];
      reflexivity.
  - destruct Hz as [Hz | Hz]; [lia |].
    assert (Hzs : z = Z.pos S) by lia. rewrite Hzs in Hz.
    destruct (round_within_pi true S ez Hez Hz) as (mz & e' & -> & Hb).
    unfold SFltb, SFcompare. rewrite pos_compare_cont.
    destruct (Z.compare_spec e' (-51)); try reflexivity; try lia.
    destruct (Z.compare_spec (Z.pos mz) (Z.pos pi_m)); try reflexivity; lia.
Qed.

Lemma add_turn_not_above (d : float) :
  (d <? - MathPI)%float = true → (MathPI <? d + 2 * MathPI)%float = false.
Proof.
  rewrite !FloatAxioms.ltb_spec, FloatAxioms.add_spec, Prim2SF_two_pi,
    Prim2SF_pi, Prim2SF_minus_pi.
  apply SFadd_turn_not_above. apply FloatAxioms.Prim2SF_valid.
Qed.

Lemma sub_turn_not_below (d : float) :
  (MathPI <? d)%float = true → (d - 2 * MathPI <? - MathPI)%float = false.
Proof.
  rewrite !FloatAxioms.ltb_spec, FloatAxioms.sub_spec, Prim2SF_two_pi,
    Prim2SF_pi, Prim2SF_minus_pi.
  apply SFsub_turn_not_below. apply FloatAxioms.Prim2SF_valid.
Qed.

End TurnFacts.

(** *** Mirror images *)

(** Two numbers mirror each other when one is the opposite of the other, or
    both are the positive zero. *)
Abbreviation mirror x y := (y = - x ∨ (x = 0 ∧ y = 0))%float.

Section MirrorFacts.
Import VehicleLayer.

Lemma cond_Zopp_negb (s : bool) (z : Z) : cond_Zopp (negb s) z = - cond_Zopp s z.
Proof. destruct s; simpl; lia. Qed.

(** A subtraction is the addition of the opposite. *)
Lemma SFsub_SFadd (x y : spec_float) :
  SFsub prec emax x y = SFadd prec emax x (SFopp y).
Proof.
  destruct x as [sx|sx| |sx mx ex], y as [sy|sy| |sy my ey]; simpl;
    try reflexivity; destruct sx, sy; reflexivity.
Qed.

Lemma SFadd_comm (x y : spec_float) : SFadd prec emax x y = SFadd prec emax y x.
Proof.
  destruct x as [sx|sx| |sx mx ex], y as [sy|sy| |sy my ey]; simpl;
    try reflexivity; try (destruct sx, sy; reflexivity).
  rewrite (Z.min_comm ey ex), Z.add_comm. reflexivity.
Qed.

Lemma SFopp_binary_round_aux (s : bool) (m e : Z) (l : location) :
  SFopp (binary_round_aux prec emax s m e l)
  = binary_round_aux prec emax (negb s) m e l.
Proof.
  unfold binary_round_aux.
  destruct (shr_fexp prec emax m e l) as [mrs1 e1].
  destruct (shr_fexp prec emax _ e1 loc_Exact) as [mrs2 e2].
  destruct (shr_m mrs2); try reflexivity.
  destruct (e2 <=? emax - prec)%Z; reflexivity.
Qed.

Lemma SFopp_binary_round (s : bool) (m : positive) (e : Z) :
  SFopp (binary_round prec emax s m e) = binary_round prec emax (negb s) m e.
Proof.
  unfold binary_round. destruct (shl_align _ _ _) as [mz ez].
  apply SFopp_binary_round_aux.
Qed.

Lemma binary_normalize_opp (z e : Z) :
  z = 0 ∨ binary_normalize prec emax (- z) e false
          = SFopp (binary_normalize prec emax z e false).
Proof.
  destruct z as [|p|p]; [left; reflexivity | right | right]; simpl;
    rewrite SFopp_binary_round; reflexivity.
Qed.

(** The sum of two opposites is the opposite of the sum, unless both sums
    are the positive zero. *)
Lemma SFadd_opp (x y : spec_float) :
  SFadd prec emax (SFopp x) (SFopp y) = SFopp (SFadd prec emax x y)
  ∨ (SFadd prec emax x y = S754_zero false
     ∧ SFadd prec emax (SFopp x) (SFopp y) = S754_zero false).
Proof.
  destruct x as [sx|sx| |sx mx ex], y as [sy|sy| |sy my ey]; simpl;
    try (left; reflexivity);
    try (destruct sx, sy; simpl; auto; fail).
  rewrite !cond_Zopp_negb, <- Z.opp_add_distr.
  set (z := cond_Zopp sx _ + cond_Zopp sy _).
  destruct (binary_normalize_opp z (Z.min ex ey)) as [Hz | Hz]; [right | left; exact Hz].
  rewrite Hz. split; reflexivity.
Qed.


Lemma SF_mirror (x y : float) :
  Prim2SF y = SFopp (Prim2SF x)
  ∨ (Prim2SF x = S754_zero false ∧ Prim2SF y = S754_zero false) →
  mirror x y.
Proof.
  intros [H | [Hx Hy]].
  - left. apply FloatAxioms.Prim2SF_inj. rewrite FloatAxioms.opp_spec. exact H.
  - right. split; apply FloatAxioms.Prim2SF_inj; assumption.
Qed.

Lemma sub_mirror (a b : float) : mirror (a - b)%float (b - a)%float.
Proof.
  apply SF_mirror. rewrite !FloatAxioms.sub_spec. unfold SF64sub.
  rewrite !SFsub_SFadd.
  rewrite (SFadd_comm (Prim2SF b)).
  destruct (SFadd_opp (Prim2SF a) (SFopp (Prim2SF b))) as [H | [H1 H2]].
  - left. rewrite SFopp_involutive in H. exact H.
  - right. rewrite SFopp_involutive in H2. split; assumption.
Qed.

Lemma mirror_sym (x y : float) : mirror x y → mirror y x.
Proof.
  intros [-> | [-> ->]]; [left | right; split; reflexivity].
  symmetry. apply opp_involutive.
Qed.

Lemma mirror_turn_down (x y : float) :
  mirror x y → mirror (x - 2 * MathPI)%float (y + 2 * MathPI)%float.
Proof.
  intros [-> | [-> ->]]; [| left; reflexivity].
  apply SF_mirror.
  rewrite FloatAxioms.add_spec, FloatAxioms.sub_spec, FloatAxioms.opp_spec.
  unfold SF64sub, SF64add. rewrite SFsub_SFadd.
  destruct (SFadd_opp (Prim2SF x) (SFopp (Prim2SF (2 * MathPI))))
    as [H | [H1 H2]]; rewrite SFopp_involutive in *; auto.
Qed.

Lemma mirror_turn_up (x y : float) :
  mirror x y → mirror (x + 2 * MathPI)%float (y - 2 * MathPI)%float.
Proof.
  intros [-> | [-> ->]]; [| left; reflexivity].
  apply SF_mirror.
  rewrite FloatAxioms.add_spec, FloatAxioms.sub_spec, FloatAxioms.opp_spec.
  unfold SF64sub, SF64add. rewrite SFsub_SFadd.
  destruct (SFadd_opp (Prim2SF x) (Prim2SF (2 * MathPI)))
    as [H | [H1 H2]]; auto.
Qed.

Lemma mirror_above (x y : float) :
  mirror x y → (y <? - MathPI)%float = (MathPI <? x)%float.
Proof.
  intros [-> | [-> ->]]; [| reflexivity]. apply ltb_opp.
Qed.

Lemma mirror_below (x y : float) :
  mirror x y → (MathPI <? y)%float = (x <? - MathPI)%float.
Proof.
  intros [-> | [-> ->]]; [| reflexivity].
  rewrite <- (opp_involutive MathPI) at 1. apply ltb_opp.
Qed.

Lemma abs_opp (x : float) : PrimFloat.abs (- x) = PrimFloat.abs x.
Proof.
  apply FloatAxioms.Prim2SF_inj.
  rewrite !FloatAxioms.abs_spec, FloatAxioms.opp_spec.
  destruct (Prim2SF x); reflexivity.
Qed.

Lemma mirror_abs (x y : float) : mirror x y → PrimFloat.abs y = PrimFloat.abs x.
Proof.
  intros [-> | [-> ->]]; [apply abs_opp | reflexivity].
Qed.

(** The first loop on a number does what the second loop does on its
    mirror image, and the other way round. *)
Lemma whileAbove_mirror (n : nat) : ∀ x y r : float,
  mirror x y → whileAbove n x = Some r →
  ∃ r', whileBelow n y = Some r' ∧ mirror r r'.
Proof.
  induction n as [|n IH]; intros x y r Hm He; cbn [whileAbove whileBelow] in *;
    rewrite (mirror_above x y Hm); destruct (MathPI <? x)%float;
    try discriminate.
  - inversion He; subst. eauto.
  - apply (IH _ _ _ (mirror_turn_down x y Hm) He).
  - inversion He; subst. eauto.
Qed.

Lemma whileBelow_mirror (n : nat) : ∀ x y r : float,
  mirror x y → whileBelow n x = Some r →
  ∃ r', whileAbove n y = Some r' ∧ mirror r r'.
Proof.
  induction n as [|n IH]; intros x y r Hm He; cbn [whileAbove whileBelow] in *;
    rewrite (mirror_below x y Hm); destruct (x <? - MathPI)%float;
    try discriminate.
  - inversion He; subst. eauto.
  - apply (IH _ _ _ (mirror_turn_up x y Hm) He).
  - inversion He; subst. eauto.
Qed.

End MirrorFacts.

Section TwoTurnsFacts.
Import VehicleLayer.

(** Rounding an integer of at most 53 digits that is at most a given
    53-digit number gives at most that number. *)
Lemma round_le (s : bool) (S B : positive) (ez eb e0 : Z) :
  e0 <= ez → e0 <= eb → -1000 <= ez <= 900 →
  Z.pos (digits2_pos B) = 53 → Z.pos S < 2 ^ 53 →
  Z.pos S * 2 ^ (ez - e0) <= Z.pos B * 2 ^ (eb - e0) →
  ∃ mz e',
    binary_round prec emax s S ez = S754_finite s mz e'
    ∧ (e' < eb ∨ (e' = eb ∧ Z.pos mz <= Z.pos B)).
Proof.
  intros H0 H1 Hr HB HS Hle.
  assert (Hd : Z.pos (digits2_pos S) <= 53) by (apply digits_le; [lia | exact HS]).
  destruct (binary_round_short s S ez Hd Hr) as (mz & -> & Hmz).
  eexists _, _. split; [reflexivity |].
  set (k := 53 - Z.pos (digits2_pos S)) in *.
  destruct (digits_bounds S) as [HSlo _].
  destruct (digits_bounds B) as [_ HBhi]. rewrite HB in HBhi.
  assert (Hmzlo : 2 ^ 52 <= Z.pos mz).
  { rewrite Hmz. replace 52 with ((Z.pos (digits2_pos S) - 1) + k) by lia.
    rewrite Z.pow_add_r by lia. apply Z.mul_le_mono_nonneg_r; [| exact HSlo].
    apply Z.pow_nonneg. lia. }
  assert (Hval : Z.pos mz * 2 ^ (ez - k - e0 + k) = Z.pos S * 2 ^ k * 2 ^ (ez - e0)).
  { rewrite Hmz. f_equal. f_equal. lia. }
  destruct (Z_lt_le_dec (ez - k) eb) as [Hlt | Hge]; [left; exact Hlt | right].
  assert (Hk : 0 <= k) by lia.
  assert (Hpk : 1 <= 2 ^ k) by (apply (Z.pow_le_mono_r 2 0 k); lia).
  assert (Hpe : 0 < 2 ^ (eb - e0)) by (apply Z.pow_pos_nonneg; lia).
  assert (Hsplit : 2 ^ (ez - e0) = 2 ^ (ez - k - eb) * 2 ^ k * 2 ^ (eb - e0)).
  { rewrite <- !Z.pow_add_r by lia. f_equal. lia. }
  assert (Hpa : 1 <= 2 ^ (ez - k - eb)) by (apply (Z.pow_le_mono_r 2 0); lia).
  assert (Hmain : Z.pos mz * 2 ^ (ez - k - eb) <= Z.pos B).
  { apply Z.mul_le_mono_pos_r with (2 ^ (eb - e0)); [exact Hpe |].
    rewrite Hmz. rewrite Hsplit in Hle.
    replace (Z.pos S * 2 ^ k * 2 ^ (ez - k - eb) * 2 ^ (eb - e0))
      with (Z.pos S * (2 ^ (ez - k - eb) * 2 ^ k * 2 ^ (eb - e0))) by ring.
    exact Hle. }
  destruct (Z.eq_dec (ez - k) eb) as [Heq | Hne].
  - split; [exact Heq |]. replace (ez - k - eb) with 0 in Hmain by lia.
    simpl in Hmain. lia.
  - exfalso. assert (2 ^ 1 <= 2 ^ (ez - k - eb)) by (apply Z.pow_le_mono_r; lia).
    change (2 ^ 1) with 2 in *. nia.
Qed.

(** What it takes for a positive number to be at most a given one. *)
Lemma at_most (m B : positive) (e eb : Z) :
  SFleb (S754_finite false m e) (S754_finite false B eb) = true →
  e < eb ∨ (e = eb ∧ Z.pos m <= Z.pos B).
Proof.
  unfold SFleb, SFcompare. rewrite pos_compare_cont.
  destruct (Z.compare_spec e eb) as [He | He | He]; try discriminate;
    [right | left; exact He].
  split; [exact He |].
  destruct (Z.compare_spec (Z.pos m) (Z.pos B)); try discriminate; lia.
Qed.

Lemma pi_m_digits : Z.pos (digits2_pos pi_m) = 53.
Proof. reflexivity. Qed.

(** A number above [Math.PI] and at most two turns, less a turn, is at most
    one turn. *)
Lemma SFsub_turn_within (D : spec_float) :
  SpecFloat.valid_binary prec emax D = true →
  SFltb (S754_finite false pi_m (-51)) D = true →
  SFleb D (S754_finite false pi_m (-49)) = true →
  SFleb (SFsub prec emax D (S754_finite false pi_m (-50)))
        (S754_finite false pi_m (-50)) = true.
Proof.
  intros Hv Hlt Hle.
  destruct (above_pi _ Hlt) as [-> | (m & e & -> & He)]; [discriminate |].
  apply at_most in Hle.
  assert (Hd : Z.pos (digits2_pos m) = 53)
    by (apply (valid_digits false m e Hv); lia).
  destruct (digits_bounds m) as [Hlo Hhi]. rewrite Hd in Hlo, Hhi.
  change (2 ^ (53 - 1)) with (2 ^ 52) in Hlo.
  pose proof pi_m_bounds as [Hp1 Hp2].
  unfold SFsub, cond_Zopp.
  set (ez := Z.min e (-50)).
  assert (Hez : ez <= e ∧ ez <= -50) by (subst ez; lia).
  rewrite !shl_align_value by lia.
  assert (Hcases : (e = -51 ∧ ez = -51) ∨ (e = -50 ∧ ez = -50)
                   ∨ (e = -49 ∧ ez = -50)) by (subst ez; lia).
  set (z := _ - _).
  assert (Hz : - Z.pos pi_m < z <= Z.pos pi_m).
  { subst z. destruct Hcases as [[-> ->] | [[-> ->] | [-> ->]]];
      change (-51 - -51) with 0; change (-50 - -51) with 1;
      change (-50 - -50) with 0; change (-49 - -50) with 1;
      change (2 ^ 0) with 1; change (2 ^ 1) with 2; lia. }
  assert (Hezr : ez = -51 ∨ ez = -50) by lia.
  clearbody z. unfold binary_normalize. destruct z as [|S|S].
  - reflexivity.
  - destruct (round_le false S pi_m ez (-50) (-51)) as (mz & e' & -> & Hb);
      try lia; [exact pi_m_digits | |].
    + destruct Hezr as [-> | ->].
      * change (-51 - -51) with 0. change (-50 - -51) with 1.
        change (2 ^ 0) with 1. change (2 ^ 1) with 2. lia.
      * change (-50 - -51) with 1. lia.
    + unfold SFleb, SFcompare. rewrite pos_compare_cont.
      destruct (Z.compare_spec e' (-50)); try reflexivity; try lia.
      destruct (Z.compare_spec (Z.pos mz) (Z.pos pi_m)); try reflexivity; lia.
  - destruct (binary_round_short true S ez) as (mz & -> & _); [| lia | reflexivity].
    apply digits_le; lia.
Qed.

(** A number above [Math.PI] and at most one turn, less a turn, is not
    above [Math.PI]. *)
Lemma SFsub_turn_done (D : spec_float) :
  SpecFloat.valid_binary prec emax D = true →
  SFltb (S754_finite false pi_m (-51)) D = true →
  SFleb D (S754_finite false pi_m (-50)) = true →
  SFltb (S754_finite false pi_m (-51))
        (SFsub prec emax D (S754_finite false pi_m (-50))) = false
  ∧ SFsub prec emax D (S754_finite false pi_m (-50)) ≠ S754_nan.
Proof.
  intros Hv Hlt Hle.
  destruct (above_pi _ Hlt) as [-> | (m & e & -> & He)]; [discriminate |].
  apply at_most in Hle.
  assert (Hd : Z.pos (digits2_pos m) = 53)
    by (apply (valid_digits false m e Hv); lia).
  destruct (digits_bounds m) as [Hlo Hhi]. rewrite Hd in Hlo, Hhi.
  change (2 ^ (53 - 1)) with (2 ^ 52) in Hlo.
  pose proof pi_m_bounds as [Hp1 Hp2].
  unfold SFsub, cond_Zopp.
  set (ez := Z.min e (-50)).
  assert (Hez : ez <= e ∧ ez <= -50) by (subst ez; lia).
  rewrite !shl_align_value by lia.
  assert (Hcases : (e = -51 ∧ ez = -51) ∨ (e = -50 ∧ ez = -50))
    by (subst ez; lia).
  set (z := _ - _).
  assert (Hz : - 2 ^ 53 < z <= 0).
  { subst z. destruct Hcases as [[-> ->] | [-> ->]];
      change (-51 - -51) with 0; change (-50 - -51) with 1;
      change (-50 - -50) with 0;
      change (2 ^ 0) with 1; change (2 ^ 1) with 2; lia. }
  assert (Hezr : -1000 <= ez <= 900) by lia.
  clearbody z. unfold binary_normalize.
  destruct z as [|S|S]; [split; [reflexivity | discriminate] | lia |].
  destruct (binary_round_short true S ez) as (mz & -> & _);
    [apply digits_le; lia | exact Hezr |].
  split; [reflexivity | discriminate].
Qed.

End TwoTurnsFacts.

(** *** The two loops *)

Section AngleFacts.
Import VehicleLayer.

(** More fuel does not change a result. *)
Lemma whileAbove_more (n : nat) : ∀ (m : nat) (d d' : float),
  (n ≤ m)%nat → whileAbove n d = Some d' → whileAbove m d = Some d'.
Proof.
  induction n as [|n IH]; intros m d d' Hm He; cbn [whileAbove] in He.
  - destruct (MathPI <? d)%float eqn:E; [discriminate |].
    destruct m; cbn [whileAbove]; rewrite E; exact He.
  - destruct m as [|m]; [lia |]. cbn [whileAbove].
    destruct (MathPI <? d)%float; [| exact He]. apply IH; [lia | exact He].
Qed.

Lemma whileBelow_more (n : nat) : ∀ (m : nat) (d d' : float),
  (n ≤ m)%nat → whileBelow n d = Some d' → whileBelow m d = Some d'.
Proof.
  induction n as [|n IH]; intros m d d' Hm He; cbn [whileBelow] in He.
  - destruct (d <? - MathPI)%float eqn:E; [discriminate |].
    destruct m; cbn [whileBelow]; rewrite E; exact He.
  - destruct m as [|m]; [lia |]. cbn [whileBelow].
    destruct (d <? - MathPI)%float; [| exact He]. apply IH; [lia | exact He].
Qed.

Lemma angleDelta_more (n m : nat) (target current d : float) :
  (n ≤ m)%nat →
  angleDelta n target current = Some d → angleDelta m target current = Some d.
Proof.
  unfold angleDelta. intros Hm He.
  destruct (whileAbove n (target - current)) as [d1|] eqn:H1; [| discriminate].
  rewrite (whileAbove_more n m _ _ Hm H1). cbn [mbind option_bind] in *.
  exact (whileBelow_more n m _ _ Hm He).
Qed.

Lemma angleDiff_angleDelta (fuel : nat) (a b : float) :
  angleDiff fuel a b = PrimFloat.abs <$> angleDelta fuel a b.
Proof. reflexivity. Qed.

(** A loop whose test fails leaves the number as it is. *)
Lemma whileAbove_idle (n : nat) (d : float) :
  (MathPI <? d)%float = false → whileAbove n d = Some d.
Proof. intros H. destruct n; cbn [whileAbove]; rewrite H; reflexivity. Qed.

Lemma whileBelow_idle (n : nat) (d : float) :
  (d <? - MathPI)%float = false → whileBelow n d = Some d.
Proof. intros H. destruct n; cbn [whileBelow]; rewrite H; reflexivity. Qed.

(** A loop ends on a number that fails its test. *)
Lemma whileAbove_exit (n : nat) : ∀ d r : float,
  whileAbove n d = Some r → (MathPI <? r)%float = false.
Proof.
  induction n as [|n IH]; intros d r He; cbn [whileAbove] in He;
    destruct (MathPI <? d)%float eqn:E; try discriminate.
  - inversion He; subst. exact E.
  - exact (IH _ _ He).
  - inversion He; subst. exact E.
Qed.

Lemma whileBelow_exit (n : nat) : ∀ d r : float,
  whileBelow n d = Some r → (r <? - MathPI)%float = false.
Proof.
  induction n as [|n IH]; intros d r He; cbn [whileBelow] in He;
    destruct (d <? - MathPI)%float eqn:E; try discriminate.
  - inversion He; subst. exact E.
  - exact (IH _ _ He).
  - inversion He; subst. exact E.
Qed.

(** A number above [Math.PI] is not below [-Math.PI], and the other way
    round. *)
Lemma above_not_below (d : float) :
  (MathPI <? d)%float = true → (d <? - MathPI)%float = false.
Proof.
  rewrite !FloatAxioms.ltb_spec, Prim2SF_pi, Prim2SF_minus_pi. intros H.
  destruct (above_pi _ H) as [-> | (m & e & -> & _)]; reflexivity.
Qed.

Lemma below_not_above (d : float) :
  (d <? - MathPI)%float = true → (MathPI <? d)%float = false.
Proof.
  rewrite !FloatAxioms.ltb_spec, Prim2SF_pi, Prim2SF_minus_pi. intros H.
  destruct (below_minus_pi _ H) as [-> | (m & e & -> & _)]; reflexivity.
Qed.

(** The first loop does not take a number below [-Math.PI], and the second
    does not take one above [Math.PI]. *)
Lemma whileAbove_not_below (n : nat) : ∀ d r : float,
  whileAbove n d = Some r → (d <? - MathPI)%float = false →
  (r <? - MathPI)%float = false.
Proof.
  induction n as [|n IH]; intros d r He Hd; cbn [whileAbove] in He;
    destruct (MathPI <? d)%float eqn:E; try discriminate.
  - inversion He; subst. exact Hd.
  - exact (IH _ _ He (sub_turn_not_below d E)).
  - inversion He; subst. exact Hd.
Qed.

Lemma whileBelow_not_above (n : nat) : ∀ d r : float,
  whileBelow n d = Some r → (MathPI <? d)%float = false →
  (MathPI <? r)%float = false.
Proof.
  induction n as [|n IH]; intros d r He Hd; cbn [whileBelow] in He;
    destruct (d <? - MathPI)%float eqn:E; try discriminate.
  - inversion He; subst. exact Hd.
  - exact (IH _ _ He (add_turn_not_above d E)).
  - inversion He; subst. exact Hd.
Qed.

(** What a loop returns is its number after some rounds, each of which
    subtracts, or adds, [2 * Math.PI] and rounds. *)
Lemma whileAbove_trace (n : nat) : ∀ d r : float,
  whileAbove n d = Some r →
  ∃ k : nat, (k ≤ n)%nat ∧ r = Nat.iter k (λ x, x - 2 * MathPI)%float d.
Proof.
  induction n as [|n IH]; intros d r He; cbn [whileAbove] in He;
    destruct (MathPI <? d)%float; try discriminate.
  - inversion He; subst. exists 0%nat. split; [lia | reflexivity].
  - destruct (IH _ _ He) as (k & Hk & ->). exists (S k).
    split; [lia |]. rewrite Nat.iter_succ_r. reflexivity.
  - inversion He; subst. exists 0%nat. split; [lia | reflexivity].
Qed.

Lemma whileBelow_trace (n : nat) : ∀ d r : float,
  whileBelow n d = Some r →
  ∃ k : nat, (k ≤ n)%nat ∧ r = Nat.iter k (λ x, x + 2 * MathPI)%float d.
Proof.
  induction n as [|n IH]; intros d r He; cbn [whileBelow] in He;
    destruct (d <? - MathPI)%float; try discriminate.
  - inversion He; subst. exists 0%nat. split; [lia | reflexivity].
  - destruct (IH _ _ He) as (k & Hk & ->). exists (S k).
    split; [lia |]. rewrite Nat.iter_succ_r. reflexivity.
  - inversion He; subst. exists 0%nat. split; [lia | reflexivity].
Qed.

(** The two loops never both run: the result is the difference after
    rounds of one loop only. *)
Lemma angleDelta_trace (fuel : nat) (target current r : float) :
  angleDelta fuel target current = Some r →
  ∃ k : nat, (k ≤ fuel)%nat
    ∧ (r = Nat.iter k (λ x, x - 2 * MathPI)%float (target - current)%float
       ∨ r = Nat.iter k (λ x, x + 2 * MathPI)%float (target - current)%float).
Proof.
  unfold angleDelta. intros He.
  destruct (whileAbove fuel (target - current)) as [d1|] eqn:H1; [| discriminate].
  cbn [mbind option_bind] in He.
  destruct (MathPI <? target - current)%float eqn:E.
  - rewrite (whileBelow_idle fuel d1) in He
      by exact (whileAbove_not_below _ _ _ H1 (above_not_below _ E)).
    inversion He; subst r.
    destruct (whileAbove_trace _ _ _ H1) as (k & Hk & Hr). eauto.
  - rewrite (whileAbove_idle _ _ E) in H1. inversion H1; subst d1.
    destruct (whileBelow_trace _ _ _ He) as (k & Hk & Hr). eauto.
Qed.

(** A loop that does not change its number never ends. *)
Lemma whileAbove_absorbed (d : float) :
  (MathPI <? d)%float = true → (d - 2 * MathPI)%float = d →
  ∀ n : nat, whileAbove n d = None.
Proof.
  intros Ha Hs n. induction n as [|n IH]; cbn [whileAbove]; rewrite Ha;
    [reflexivity |]. rewrite Hs. exact IH.
Qed.

Lemma whileBelow_absorbed (d : float) :
  (d <? - MathPI)%float = true → (d + 2 * MathPI)%float = d →
  ∀ n : nat, whileBelow n d = None.
Proof.
  intros Ha Hs n. induction n as [|n IH]; cbn [whileBelow]; rewrite Ha;
    [reflexivity |]. rewrite Hs. exact IH.
Qed.

(** A result of the two loops is neither below [-Math.PI] nor above
    [Math.PI]. *)
Lemma angleDelta_bounds (fuel : nat) (target current r : float) :
  angleDelta fuel target current = Some r →
  (r <? - MathPI)%float = false ∧ (MathPI <? r)%float = false.
Proof.
  unfold angleDelta. intros He.
  destruct (whileAbove fuel (target - current)) as [d1|] eqn:H1; [| discriminate].
  cbn [mbind option_bind] in He. split.
  - exact (whileBelow_exit _ _ _ He).
  - exact (whileBelow_not_above _ _ _ He (whileAbove_exit _ _ _ H1)).
Qed.

Lemma abs_nonneg (x : float) :
  PrimFloat.is_nan x = false → (0 <=? PrimFloat.abs x)%float = true.
Proof.
  rewrite not_nan_spec, FloatAxioms.leb_spec, FloatAxioms.abs_spec.
  change (Prim2SF 0) with (S754_zero false).
  destruct (Prim2SF x); intros H; try reflexivity. contradiction.
Qed.

(** The bounds of a result that is a number, as comparisons that hold. *)
Lemma within_half_turn (r : float) :
  PrimFloat.is_nan r = false →
  (r <? - MathPI)%float = false → (MathPI <? r)%float = false →
  (- MathPI <=? r)%float = true ∧ (r <=? MathPI)%float = true
  ∧ (0 <=? PrimFloat.abs r)%float = true
  ∧ (PrimFloat.abs r <=? MathPI)%float = true.
Proof.
  intros Hn Hlo Hhi.
  assert (Hpi : PrimFloat.is_nan MathPI = false) by reflexivity.
  assert (Hmpi : PrimFloat.is_nan (- MathPI) = false) by reflexivity.
  split; [apply not_ltb_leb; assumption |].
  split; [apply not_ltb_leb; assumption |].
  split; [apply abs_nonneg; exact Hn |].
  apply abs_leb; assumption.
Qed.

(** *** Differences of at most two turns *)

Lemma Prim2SF_four_pi : Prim2SF (4 * MathPI) = S754_finite false pi_m (-49).
Proof. reflexivity. Qed.

Lemma sub_turn_within (d : float) :
  (MathPI <? d)%float = true → (d <=? 4 * MathPI)%float = true →
  (d - 2 * MathPI <=? 2 * MathPI)%float = true.
Proof.
  rewrite FloatAxioms.ltb_spec, !FloatAxioms.leb_spec, FloatAxioms.sub_spec,
    Prim2SF_two_pi, Prim2SF_pi, Prim2SF_four_pi.
  apply SFsub_turn_within. apply FloatAxioms.Prim2SF_valid.
Qed.

Lemma sub_turn_done (d : float) :
  (MathPI <? d)%float = true → (d <=? 2 * MathPI)%float = true →
  (MathPI <? d - 2 * MathPI)%float = false
  ∧ PrimFloat.is_nan (d - 2 * MathPI)%float = false.
Proof.
  rewrite !FloatAxioms.ltb_spec, !FloatAxioms.leb_spec, not_nan_spec,
    FloatAxioms.sub_spec, Prim2SF_two_pi, Prim2SF_pi.
  apply SFsub_turn_done. apply FloatAxioms.Prim2SF_valid.
Qed.

Lemma whileAbove_two_turns (d : float) :
  (d <=? 4 * MathPI)%float = true →
  ∃ r, whileAbove 2 d = Some r ∧ PrimFloat.is_nan r = false.
Proof.
  intros Hle. cbn [whileAbove].
  destruct (MathPI <? d)%float eqn:E1.
  - pose proof (sub_turn_within d E1 Hle) as Hw.
    destruct (MathPI <? d - 2 * MathPI)%float eqn:E2.
    + destruct (sub_turn_done _ E2 Hw) as [-> Hn]. eauto.
    + eexists. split; [reflexivity |]. exact (proj1 (leb_not_nan _ _ Hw)).
  - eexists. split; [reflexivity |]. exact (proj1 (leb_not_nan _ _ Hle)).
Qed.

Lemma whileBelow_two_turns (d : float) :
  (- (4 * MathPI) <=? d)%float = true →
  ∃ r, whileBelow 2 d = Some r ∧ PrimFloat.is_nan r = false.
Proof.
  intros Hle.
  assert (Hup : (- d <=? 4 * MathPI)%float = true).
  { rewrite <- (opp_involutive (4 * MathPI)), leb_opp. exact Hle. }
  destruct (whileAbove_two_turns _ Hup) as (r & Hr & Hn).
  assert (Hm : mirror (- d)%float d) by (left; symmetry; apply opp_involutive).
  destruct (whileAbove_mirror 2 _ _ _ Hm Hr) as (r' & Hr' & Hmr).
  exists r'. split; [exact Hr' |].
  destruct Hmr as [-> | [_ ->]]; [rewrite is_nan_opp; exact Hn | reflexivity].
Qed.

Lemma angleDelta_two_turns (target current : float) :
  (- (4 * MathPI) <=? target - current)%float = true →
  (target - current <=? 4 * MathPI)%float = true →
  ∃ r, angleDelta 2 target current = Some r ∧ PrimFloat.is_nan r = false.
Proof.
  intros Hlo Hhi. unfold angleDelta.
  destruct (MathPI <? target - current)%float eqn:E.
  - destruct (whileAbove_two_turns _ Hhi) as (r & Hr & Hn). rewrite Hr.
    cbn [mbind option_bind]. exists r. split; [| exact Hn].
    apply whileBelow_idle.
    exact (whileAbove_not_below _ _ _ Hr (above_not_below _ E)).
  - rewrite (whileAbove_idle 2 _ E). cbn [mbind option_bind].
    exact (whileBelow_two_turns _ Hlo).
Qed.

(** *** The order of the two angles *)

Lemma loops_mirror (n : nat) (d d' r s : float) :
  mirror d d' →
  whileAbove n d ≫= whileBelow n = Some r →
  whileAbove n d' ≫= whileBelow n = Some s →
  PrimFloat.abs r = PrimFloat.abs s.
Proof.
  intros Hm H1 H2.
  destruct (whileAbove n d) as [d1|] eqn:A1; [| discriminate].
  destruct (whileAbove n d') as [e1|] eqn:A2; [| discriminate].
  cbn [mbind option_bind] in H1, H2.
  destruct (MathPI <? d)%float eqn:Habove.
  - rewrite (whileBelow_idle n d1) in H1
      by exact (whileAbove_not_below _ _ _ A1 (above_not_below _ Habove)).
    inversion H1; subst r. clear H1.
    assert (Hb : (d' <? - MathPI)%float = true)
      by (rewrite (mirror_above d d' Hm); exact Habove).
    rewrite (whileAbove_idle n d' (below_not_above d' Hb)) in A2.
    inversion A2; subst e1. clear A2.
    destruct (whileAbove_mirror n d d' d1 Hm A1) as (r' & Hr' & Hmr).
    rewrite Hr' in H2. inversion H2; subst. symmetry. exact (mirror_abs _ _ Hmr).
  - rewrite (whileAbove_idle n d Habove) in A1. inversion A1; subst d1. clear A1.
    destruct (d <? - MathPI)%float eqn:Hbelow.
    + assert (Ha : (MathPI <? d')%float = true)
        by (rewrite (mirror_below d d' Hm); exact Hbelow).
      rewrite (whileBelow_idle n e1) in H2
        by exact (whileAbove_not_below _ _ _ A2 (above_not_below _ Ha)).
      inversion H2; subst s. clear H2.
      destruct (whileBelow_mirror n d d' r Hm H1) as (r' & Hr' & Hmr).
      rewrite A2 in Hr'. inversion Hr'; subst. symmetry. exact (mirror_abs _ _ Hmr).
    + rewrite (whileBelow_idle n d Hbelow) in H1. inversion H1; subst r.
      assert (Ha : (MathPI <? d')%float = false)
        by (rewrite (mirror_below d d' Hm); exact Hbelow).
      assert (Hb : (d' <? - MathPI)%float = false)
        by (rewrite (mirror_above d d' Hm); exact Habove).
      rewrite (whileAbove_idle n d' Ha) in A2. inversion A2; subst e1.
      rewrite (whileBelow_idle n d' Hb) in H2. inversion H2; subst s.
      symmetry. exact (mirror_abs _ _ Hm).
Qed.

Lemma angleDiff_order (fuel fuel' : nat) (a b m m' : float) :
  angleDiff fuel a b = Some m →
  angleDiff fuel' b a = Some m' →
  m = m'.
Proof.
  rewrite !angleDiff_angleDelta. intros H1 H2.
  destruct (angleDelta fuel a b) as [r|] eqn:E1; [| discriminate].
  destruct (angleDelta fuel' b a) as [s|] eqn:E2; [| discriminate].
  cbn in H1, H2. inversion H1; inversion H2; subst. clear H1 H2.
  pose proof (angleDelta_more _ (Nat.max fuel fuel') _ _ _ (Nat.le_max_l _ _) E1) as F1.
  pose proof (angleDelta_more _ (Nat.max fuel fuel') _ _ _ (Nat.le_max_r _ _) E2) as F2.
  exact (loops_mirror _ _ _ _ _ (sub_mirror a b) F1 F2).
Qed.

End AngleFacts.

Section AngleClaims.
Import VehicleLayer.


(** The loops do not end when a whole turn is lost in rounding: at [1e17]
    the step between two numbers is 16, so that [1e17 - 2 * Math.PI] is
    [1e17] again.  The same holds at infinity. *)
Example angleDelta_never_returns (fuel : nat) :
  angleDelta fuel 1e17 0 = None
  ∧ angleDelta fuel 0 1e17 = None
  ∧ angleDelta fuel PrimFloat.infinity 0 = None
  ∧ angleDiff fuel 1e17 0 = None.
Proof.
  assert (Hup : ∀ n, whileAbove n 1e17 = None)
    by (apply whileAbove_absorbed; vm_compute; reflexivity).
  assert (Hinf : ∀ n, whileAbove n PrimFloat.infinity = None)
    by (apply whileAbove_absorbed; vm_compute; reflexivity).
  assert (Hdown : ∀ n, whileBelow n (-1e17) = None)
    by (apply whileBelow_absorbed; vm_compute; reflexivity).
  unfold angleDiff, angleDelta.
  change (1e17 - 0)%float with 1e17%float.
  change (0 - 1e17)%float with (-1e17)%float.
  change (PrimFloat.infinity - 0)%float with PrimFloat.infinity.
  rewrite Hup, Hinf, (whileAbove_idle fuel (-1e17)) by reflexivity.
  cbn [mbind option_bind fmap option_fmap option_map]. rewrite Hdown.
  repeat split; reflexivity.
Qed.

(** A [NaN] angle passes through both loops, since every comparison with
    it fails. *)
Example angleDelta_of_nan (fuel : nat) :
  angleDelta fuel PrimFloat.nan 0 = Some PrimFloat.nan
  ∧ angleDiff fuel PrimFloat.nan 0 = Some PrimFloat.nan.
Proof.
  unfold angleDiff, angleDelta.
  change (PrimFloat.nan - 0)%float with PrimFloat.nan.
  rewrite (whileAbove_idle fuel PrimFloat.nan) by reflexivity.
  cbn [mbind option_bind]. rewrite (whileBelow_idle fuel PrimFloat.nan) by reflexivity.
  split; reflexivity.
Qed.

(** Three quarters of a turn are brought back to minus a quarter turn. *)
Example angleDelta_three_quarters :
  angleDelta 1 (3 * MathPI / 2)%float 0 = Some (- (MathPI / 2))%float.
Proof. vm_compute. reflexivity. Qed.



End AngleClaims.

(** ** The route geometry stitcher *)

Section RoutedPathFacts.
Import JS RoutedPath.

(** The chunking loop, one round unfolded. *)
Lemma chunkRanges_unfold (n i : nat) :
  chunkRanges n i
  = if lt_dec i n then
      if le_dec n (Nat.min (i + MAX_WAYPOINTS) n)
      then [(i, Nat.min (i + MAX_WAYPOINTS) n)]
      else (i, Nat.min (i + MAX_WAYPOINTS) n)
             :: chunkRanges n (Nat.min (i + MAX_WAYPOINTS) n - CHUNK_OVERLAP)
    else [].
Proof.
  funelim (chunkRanges n i).
  - rewrite Heq. reflexivity.
  - rewrite Heq0, Heq. reflexivity.
  - rewrite Heq0, Heq. reflexivity.
Qed.

Lemma chunkRanges_head (n i : nat) :
  (i < n)%nat →
  ∃ rest, chunkRanges n i = (i, Nat.min (i + MAX_WAYPOINTS) n) :: rest.
Proof.
  intros Hi. rewrite chunkRanges_unfold.
  destruct (lt_dec i n); [| lia]. destruct (le_dec _ _); eauto.
Qed.

(** Every range is non-empty, inside the list, and no longer than the
    limit. *)
Lemma chunkRanges_bounds (n i : nat) :
  Forall (fun r => (r.1 < r.2 ≤ n)%nat ∧ (r.2 - r.1 ≤ MAX_WAYPOINTS)%nat)
    (chunkRanges n i).
Proof.
  funelim (chunkRanges n i).
  - constructor.
  - constructor; [| constructor]. simpl. unfold MAX_WAYPOINTS. lia.
  - constructor; [simpl; unfold MAX_WAYPOINTS; lia |]. assumption.
Qed.

(** A range that has a successor is full, and the successor starts
    [CHUNK_OVERLAP] before its end. *)
Lemma chunkRanges_overlap (n i : nat) :
  ∀ (j s e s' e' : nat),
    chunkRanges n i !! j = Some (s, e) →
    chunkRanges n i !! S j = Some (s', e') →
    s' = (e - CHUNK_OVERLAP)%nat ∧ e = (s + MAX_WAYPOINTS)%nat.
Proof.
  funelim (chunkRanges n i); intros j s e s' e' Hj Hj'.
  - discriminate.
  - destruct j; discriminate.
  - destruct j as [|j].
    + simpl in Hj, Hj'. inversion Hj; subst s e. clear Hj.
      destruct (chunkRanges_head n
                  (Nat.min (i + MAX_WAYPOINTS) n - CHUNK_OVERLAP)) as [rest Hr].
      { unfold MAX_WAYPOINTS, CHUNK_OVERLAP in *. lia. }
      rewrite Hr in Hj'. simpl in Hj'. inversion Hj'; subst.
      unfold MAX_WAYPOINTS, CHUNK_OVERLAP in *. lia.
    + simpl in Hj, Hj'. eauto.
Qed.

(** The last range ends at [n]. *)
Lemma chunkRanges_last (n i : nat) :
  (i < n)%nat → ∃ s, last (chunkRanges n i) = Some (s, n).
Proof.
  funelim (chunkRanges n i); intros Hi.
  - lia.
  - exists i. simpl. f_equal. f_equal. lia.
  - destruct H as [s Hs]; [unfold MAX_WAYPOINTS, CHUNK_OVERLAP in *; lia |].
    exists s. rewrite last_cons, Hs. reflexivity.
Qed.

Lemma length_slice {A : Type} (l : list A) (i stop : nat) :
  (stop ≤ length l)%nat → length (slice l i stop) = (stop - i)%nat.
Proof.
  intros Hs. unfold slice. rewrite length_take, length_drop. lia.
Qed.

(** A failing request ends the sequence of requests. *)
Lemma requestAll_fails (osrm : service) (chunks : list (list coord)) :
  ∀ (k j : nat) (chunk : list coord),
    chunks !! j = Some chunk →
    requestFails (osrm (k + j)%nat chunk) = true →
    ∃ e, requestAll osrm k chunks = Throw e.
Proof.
  induction chunks as [|c rest IH]; intros k j chunk Hj Hf; [discriminate |].
  simpl. destruct (fetchOSRMRoute (osrm k c)) as [r | e] eqn:Hc; [| eauto].
  destruct j as [|j].
  - simpl in Hj. inversion Hj; subst.
    unfold requestFails in Hf. rewrite Nat.add_0_r, Hc in Hf. discriminate.
  - simpl in Hj. rewrite <- Nat.add_succ_comm in Hf.
    destruct (IH (S k) j chunk Hj Hf) as [e He]. rewrite He. eauto.
Qed.

Lemma fetchChunkedRoute_fails (near : coord → coord → bool) (osrm : service)
    (waypoints : list coord) (j : nat) (chunk : list coord) :
  requestsFor waypoints !! j = Some chunk →
  requestFails (osrm j chunk) = true →
  ∃ e, fetchChunkedRoute near osrm waypoints = Throw e.
Proof.
  unfold requestsFor, fetchChunkedRoute. intros Hj Hf.
  destruct (length waypoints <=? MAX_WAYPOINTS)%nat.
  - destruct j as [|j]; [| destruct j; discriminate].
    simpl in Hj. inversion Hj; subst.
    unfold requestFails in Hf.
    destruct (fetchOSRMRoute (osrm 0%nat chunk)); [discriminate | eauto].
  - destruct (requestAll_fails osrm (chunksOf waypoints) 0 j chunk Hj Hf)
      as [e He].
    rewrite He. eauto.
Qed.

(** The results of a sequence of requests that all return are what the
    requests returned, in order. *)
Lemma requestAll_results (osrm : service) (chunks : list (list coord)) :
  ∀ k results,
    requestAll osrm k chunks = Ok results →
    length results = length chunks
    ∧ ∀ j chunk, chunks !! j = Some chunk →
        (λ g, Ok g) <$> results !! j
        = Some (fetchOSRMRoute (osrm (k + j)%nat chunk)).
Proof.
  induction chunks as [|c rest IH]; intros k results Hr; simpl in Hr.
  - inversion Hr; subst. split; [reflexivity |]. intros j chunk Hj. discriminate.
  - destruct (fetchOSRMRoute (osrm k c)) as [g|] eqn:Hg; [| discriminate].
    destruct (requestAll osrm (S k) rest) as [rs|] eqn:Hrs; [| discriminate].
    inversion Hr; subst. destruct (IH (S k) rs Hrs) as [Hlen Hres].
    split; [simpl; lia |].
    intros j chunk Hj. destruct j as [|j].
    + simpl in *. inversion Hj; subst. rewrite Nat.add_0_r, Hg. reflexivity.
    + simpl in *. rewrite <- Nat.add_succ_comm. apply Hres. exact Hj.
Qed.

(** Stitching throws when one of the results is no array. *)
Lemma stitchFrom_not_an_array (near : coord → coord → bool)
    (results : list coordinates) :
  NotAnArray ∈ results →
  ∀ stitched, ∃ e, stitchFrom near stitched results = Throw e.
Proof.
  induction results as [|r rest IH]; intros Hin stitched.
  - apply elem_of_nil in Hin. contradiction.
  - destruct r as [pts|]; simpl; [| eauto].
    apply elem_of_cons in Hin as [Hin | Hin]; [discriminate |].
    destruct (stitchOne near stitched pts) as [stitched'|e]; [| eauto].
    apply IH. exact Hin.
Qed.

(** A chunked run in which a request returns a value that is no array
    throws, in a request or in the stitching. *)
Lemma fetchChunkedRoute_not_an_array (near : coord → coord → bool)
    (osrm : service) (waypoints : list coord) (j : nat) (chunk : list coord) :
  (MAX_WAYPOINTS < length waypoints)%nat →
  chunksOf waypoints !! j = Some chunk →
  fetchOSRMRoute (osrm j chunk) = Ok NotAnArray →
  ∃ e, fetchChunkedRoute near osrm waypoints = Throw e.
Proof.
  intros Hn Hj Hg. unfold fetchChunkedRoute.
  destruct (length waypoints <=? MAX_WAYPOINTS)%nat eqn:Hle;
    [apply Nat.leb_le in Hle; lia |].
  destruct (requestAll osrm 0 (chunksOf waypoints)) as [results|e] eqn:Hr;
    [| eauto].
  destruct (requestAll_results osrm _ 0 results Hr) as [_ Hres].
  specialize (Hres j chunk Hj). simpl in Hres. rewrite Hg in Hres.
  assert (Hin : NotAnArray ∈ results).
  { destruct (results !! j) as [g|] eqn:Hl; [| discriminate].
    simpl in Hres. inversion Hres; subst. eapply list_elem_of_lookup_2; eauto. }
  destruct results as [|[first|] rest]; [eauto | | eauto].
  apply elem_of_cons in Hin as [Hin | Hin]; [discriminate |].
  destruct (stitchFrom_not_an_array near rest Hin first) as [e He].
  rewrite He. eauto.
Qed.

End RoutedPathFacts.

Section RoutedPathClaims.
Import JS RoutedPath Samples.

(** C7.  For a waypoint list longer than the per-request limit: every chunk
    has at most [MAX_WAYPOINTS] points; the first chunk starts at the first
    waypoint and every later chunk starts exactly [CHUNK_OVERLAP] = 2
    waypoints before the end of the chunk before it; the last chunk ends at
    the final waypoint; each chunk holds the waypoints of its range, the
    [i]-th point of the chunk being waypoint [s + i]; and 150 waypoints
    give exactly two chunks, the first 80 waypoints and the waypoints from
    index 78 on. *)
Theorem chunks_overlap_and_cover (waypoints : list coord) :
  (MAX_WAYPOINTS < length waypoints)%nat →
  let n := length waypoints in
  let ranges := chunkRanges n 0 in
  Forall (fun c => (length c ≤ MAX_WAYPOINTS)%nat) (chunksOf waypoints)
  ∧ Forall (fun r => (r.1 < r.2 ≤ n)%nat
                     ∧ length (slice waypoints r.1 r.2) = (r.2 - r.1)%nat) ranges
  ∧ (∃ rest, ranges = (0%nat, MAX_WAYPOINTS) :: rest)
  ∧ (∀ j s e s' e',
       ranges !! j = Some (s, e) → ranges !! S j = Some (s', e') →
       s' = (e - CHUNK_OVERLAP)%nat)
  ∧ (∃ s, last ranges = Some (s, n)
          ∧ last (chunksOf waypoints) = Some (drop s waypoints))
  ∧ (length (chunksOf waypoints) = length ranges
     ∧ ∀ j s e, ranges !! j = Some (s, e) →
         ∃ c, chunksOf waypoints !! j = Some c
              ∧ length c = (e - s)%nat
              ∧ ∀ i, (i < e - s)%nat → c !! i = waypoints !! (s + i)%nat)
  ∧ (n = 150%nat →
     ranges = [(0%nat, 80%nat); (78%nat, 150%nat)]
     ∧ chunksOf waypoints = [take 80 waypoints; drop 78 waypoints]).
Proof.
  intros Hn n ranges.
  pose proof (chunkRanges_bounds n 0) as Hb. fold ranges in Hb.
  split; [| split; [| split; [| split; [| split; [| split]]]]].
  - unfold chunksOf. fold n ranges. apply Forall_fmap.
    eapply Forall_impl; [exact Hb |]. intros [s e] [[_ He] Hlen]. simpl in *.
    rewrite length_slice by exact He. exact Hlen.
  - eapply Forall_impl; [exact Hb |]. intros [s e] [[Hs He] _]. simpl in *.
    split; [lia |]. apply length_slice. exact He.
  - destruct (chunkRanges_head n 0) as [rest Hr]; [lia |].
    exists rest. unfold ranges. rewrite Hr. f_equal. f_equal.
    unfold MAX_WAYPOINTS in *. lia.
  - intros j s e s' e' Hj Hj'.
    exact (proj1 (chunkRanges_overlap n 0 j s e s' e' Hj Hj')).
  - destruct (chunkRanges_last n 0) as [s Hs]; [lia |].
    exists s. split; [exact Hs |].
    unfold chunksOf. fold n ranges. rewrite fmap_last. fold ranges in Hs.
    rewrite Hs. simpl. unfold slice. f_equal.
    apply take_ge. rewrite length_drop. fold n. lia.
  - split; [unfold chunksOf; fold n ranges; apply length_fmap |].
    intros j s e Hj.
    assert (Hr : (s < e ≤ n)%nat).
    { rewrite Forall_lookup in Hb. destruct (Hb j (s, e) Hj) as [Hr _].
      exact Hr. }
    exists (take (e - s) (drop s waypoints)). split.
    + unfold chunksOf. fold n ranges. rewrite list_lookup_fmap, Hj. reflexivity.
    + split.
      * rewrite length_take, length_drop. fold n. lia.
      * intros i Hi. rewrite lookup_take_lt by exact Hi. apply lookup_drop.
  - intros H150. unfold chunksOf. fold n ranges.
    unfold ranges. rewrite H150. split; [reflexivity |].
    change (chunkRanges 150 0) with [(0%nat, 80%nat); (78%nat, 150%nat)].
    simpl. unfold slice. simpl. f_equal. f_equal.
    rewrite take_ge; [reflexivity |]. rewrite length_drop. fold n. lia.
Qed.



End RoutedPathClaims.

(** ** The trip-stop parser *)

Section SortFacts.
Import TripStops.
Context {A : Type}.
Variable compare : A → A → Q.

Lemma sortInsert_perm (a : A) (l : list A) : sortInsert compare a l ≡ₚ a :: l.
Proof.
  induction l as [|b rest IH]; simpl; [reflexivity |].
  destruct (Qle_bool (compare a b) 0); [reflexivity |].
  rewrite IH. apply Permutation_swap.
Qed.

Lemma Array_sort_perm (l : list A) : Array_sort compare l ≡ₚ l.
Proof.
  induction l as [|a rest IH]; simpl; [reflexivity |].
  rewrite sortInsert_perm, IH. reflexivity.
Qed.

(** When the comparator is the difference of a numeric key, the result is
    sorted by that key. *)
Variable key : A → Q.
Hypothesis compare_key : ∀ a b, compare a b = (key a - key b)%Q.

Lemma sortInsert_sorted (a : A) (l : list A) :
  StronglySorted (fun x y => (key x <= key y)%Q) l →
  StronglySorted (fun x y => (key x <= key y)%Q) (sortInsert compare a l).
Proof.
  induction 1 as [|b rest Hs IH Hall]; simpl.
  - repeat constructor.
  - destruct (Qle_bool (compare a b) 0) eqn:Hc.
    + apply Qle_bool_iff in Hc. rewrite compare_key in Hc.
      assert (Hab : (key a <= key b)%Q) by Lqa.lra.
      constructor; [constructor; assumption |].
      constructor; [exact Hab |].
      eapply Forall_impl; [exact Hall |]. intros c Hbc.
      exact (Qle_trans _ _ _ Hab Hbc).
    + assert (Hba : (key b <= key a)%Q).
      { destruct (Qlt_le_dec 0 (compare a b)) as [Hlt | Hle].
        - rewrite compare_key in Hlt. Lqa.lra.
        - apply Qle_bool_iff in Hle. congruence. }
      constructor; [exact IH |].
      rewrite sortInsert_perm. constructor; assumption.
Qed.

Lemma Array_sort_sorted (l : list A) :
  StronglySorted (fun x y => (key x <= key y)%Q) (Array_sort compare l).
Proof.
  induction l as [|a rest IH]; simpl; [constructor |].
  apply sortInsert_sorted. exact IH.
Qed.

End SortFacts.

Section TripStopsFacts.
Import JS TripStops.
Variable parseFloat : string → number.
Variable numberToString : number → string.

Abbreviation toNumber' := (toNumber parseFloat).
Abbreviation toStop' := (toStop parseFloat numberToString).
Abbreviation stopOf' := (stopOf parseFloat numberToString).
Abbreviation stringOr' := (stringOr numberToString).
Abbreviation parseTripStops' := (parseTripStops parseFloat numberToString).

(** The five conversions to text that [toStop] makes for a row with usable
    coordinates, in the order it makes them. *)
Abbreviation textsOf row :=
  [ stringOr' (orElse (prop row "stopName") (prop row "name")) "Unknown stop";
    stringOr' (orElse (prop row "stopCity") (prop row "cityName")) "";
    stringOr' (orElse (prop row "platformName") (prop row "platform")) "";
    stringOr' (prop row "plannedDepartureTimestamp") "";
    stringOr' (prop row "zones") "" ].

Lemma mapToStop_converts (rows : list json) :
  Forall (fun row => ∃ made, toStop' row = Ok made) rows →
  mapToStop parseFloat numberToString rows = Ok (stopOf' <$> rows).
Proof.
  induction 1 as [|row rest [made Hrow] _ IH]; simpl; [reflexivity |].
  unfold stopOf. rewrite Hrow, IH. reflexivity.
Qed.

Lemma mapToStop_returns (rows : list json) :
  ∀ made, mapToStop parseFloat numberToString rows = Ok made →
          Forall (fun row => ∃ m, toStop' row = Ok m) rows.
Proof.
  induction rows as [|row rest IH]; intros made Hm; [constructor |].
  simpl in Hm. destruct (toStop' row) as [m|] eqn:Hrow; [| discriminate].
  destruct (mapToStop parseFloat numberToString rest) as [ms|] eqn:Hrest;
    [| discriminate].
  constructor; [eauto | exact (IH ms eq_refl)].
Qed.

Lemma omap_id_fmap {B C : Type} (f : B → option C) (l : list B) :
  omap (fun s => s) (f <$> l) = omap f l.
Proof.
  induction l as [|b rest IH]; [reflexivity |].
  csimpl. destruct (f b); csimpl; [f_equal |]; exact IH.
Qed.

Lemma parseTripStops_objects (data : json) :
  Forall (fun row => ∃ made, toStop' row = Ok made) (rawStopsOf data) →
  parseTripStops' data
  = Ok (Array_sort byStopOrder (omap stopOf' (rawStopsOf data))).
Proof.
  intros Hrows. unfold parseTripStops.
  rewrite (mapToStop_converts _ Hrows), omap_id_fmap. reflexivity.
Qed.

Lemma parseTripStops_returns (data : json) (stops : list TripStop) :
  parseTripStops' data = Ok stops →
  Forall (fun row => ∃ made, toStop' row = Ok made) (rawStopsOf data).
Proof.
  unfold parseTripStops. intros Hp.
  destruct (mapToStop parseFloat numberToString (rawStopsOf data)) as [made|] eqn:Hm;
    [| discriminate].
  exact (mapToStop_returns _ made Hm).
Qed.

(** What [toStop] does with a row that is not [null], by its coordinates. *)
Lemma toStop_cases (row : json) :
  row ≠ JNull →
  (toStop' row = Ok None
   ∧ (toNumber' (orElse (prop row "latitude") (prop row "lat")) = None
      ∨ toNumber' (orElse (prop row "longitude") (prop row "lng")) = None))
  ∨ (∃ lat lng,
       toNumber' (orElse (prop row "latitude") (prop row "lat")) = Some lat
       ∧ toNumber' (orElse (prop row "longitude") (prop row "lng")) = Some lng
       ∧ ((∃ s, toStop' row = Ok (Some s) ∧ latitude s = lat ∧ longitude s = lng
                ∧ Forall (fun t => ∃ printed, t = Ok printed) (textsOf row))
          ∨ (∃ e, toStop' row = Throw e ∧ Throw e ∈ textsOf row))).
Proof.
  intros Hrow.
  assert (Hobj : toStop' row = toStopObject parseFloat numberToString row)
    by (destruct row; try reflexivity; contradiction).
  rewrite Hobj. unfold toStopObject.
  destruct (toNumber' (orElse (prop row "latitude") (prop row "lat")))
    as [lat|]; [| left; split; [reflexivity | left; reflexivity]].
  destruct (toNumber' (orElse (prop row "longitude") (prop row "lng")))
    as [lng|]; [| left; split; [reflexivity | right; reflexivity]].
  right. exists lat, lng. split; [reflexivity |]. split; [reflexivity |].
  destruct (stringOr' (orElse (prop row "stopName") (prop row "name"))
              "Unknown stop") as [t1|e1] eqn:H1;
    [| right; exists e1; split; [reflexivity | rewrite <- H1; set_solver]].
  destruct (stringOr' (orElse (prop row "stopCity") (prop row "cityName")) "")
    as [t2|e2] eqn:H2;
    [| right; exists e2; split; [reflexivity | rewrite <- H2; set_solver]].
  destruct (stringOr' (orElse (prop row "platformName") (prop row "platform")) "")
    as [t3|e3] eqn:H3;
    [| right; exists e3; split; [reflexivity | rewrite <- H3; set_solver]].
  destruct (stringOr' (prop row "plannedDepartureTimestamp") "")
    as [t4|e4] eqn:H4;
    [| right; exists e4; split; [reflexivity | rewrite <- H4; set_solver]].
  destruct (stringOr' (prop row "zones") "") as [t5|e5] eqn:H5;
    [| right; exists e5; split; [reflexivity | rewrite <- H5; set_solver]].
  left. eexists. simpl. split; [reflexivity |]. split; [reflexivity |].
  split; [reflexivity |]. repeat constructor; eauto.
Qed.

(** [toNumber] gives finite numbers only: a number that is finite, or a
    string that [parseFloat] reads as one. *)
Lemma toNumber_finite (value : option json) (q : Q) :
  toNumber' value = Some q ↔
  value = Some (JNumber (Fin q))
  ∨ ∃ s, value = Some (JString s) ∧ parseFloat s = Fin q.
Proof.
  unfold toNumber. split.
  - destruct value as [[| |[]| | |]|]; try discriminate.
    + intros H; inversion H; subst. left. reflexivity.
    + destruct (parseFloat s) eqn:Hp; try discriminate.
      intros H; inversion H; subst. right. eauto.
  - intros [-> | (s & -> & Hp)]; [reflexivity |]. rewrite Hp. reflexivity.
Qed.

End TripStopsFacts.

Section TripStopsClaims.
Import JS TripStops Samples.


(** It also fails on a row with usable coordinates whose [stopName] is an
    object with a [toString] property: [String] cannot convert it. *)
Example parseTripStops_unprintable_name_throws :
  parseTripStops sampleParseFloat samplePrint (JArray [unprintableRow])
  = Throw (ErrorObject "Cannot convert object to primitive value").
Proof. vm_compute. reflexivity. Qed.



End TripStopsClaims.

(** ** Worked examples *)

Section Examples.
Import JS Types Samples.

(** Five failures in a row at a 5 s base interval: the multiplier is capped
    at 12 and the next fetch waits 60 s; a success puts it back to 1. *)
Lemma backoff_after_failures_witness :
  UseVehicles.backoffRef UseVehicles.initial = 1
  ∧ Forall (fun r => UseVehicles.failed r.2 = true) fiveFailures
  ∧ UseVehicles.backoffRef
      (UseVehicles.fetches (fun _ => 1000) fiveFailures (UseVehicles.initial, 0%nat)).1
    = 12
  ∧ UseVehicles.scheduleInterval {| UseVehicles.pollInterval := 5 |}
      (UseVehicles.fetches (fun _ => 1000) fiveFailures (UseVehicles.initial, 0%nat)).1
    = 60000
  ∧ UseVehicles.backoffRef
      (UseVehicles.fetchVehicles (fun _ => 1000) false delivered
         (UseVehicles.fetches (fun _ => 1000) fiveFailures
            (UseVehicles.initial, 0%nat))).1
    = 1.
Proof.
  assert (Hb : UseVehicles.backoffRef UseVehicles.initial = 1) by reflexivity.
  assert (Hf : Forall (fun r => UseVehicles.failed r.2 = true) fiveFailures)
    by (repeat constructor).
  split; [exact Hb |]. split; [exact Hf |].
  destruct (backoff_after_failures (fun _ => 1000)
              {| UseVehicles.pollInterval := 5 |} fiveFailures
              UseVehicles.initial 0 Hb Hf) as (H1 & H2 & H3).
  split; [exact H1 |]. split; [exact H2 |].
  exact (proj1 (H3 false delivered eq_refl)).
Defined.

(** A 503 against a state that holds a map: the map stays, the error is
    ["HTTP 503"]. *)
Lemma failed_fetch_keeps_map_witness :
  UseVehicles.networkOrStatusFailure unavailable = true
  ∧ UseVehicles.vehicles
      (UseVehicles.fetchVehicles (fun _ => 1000) false unavailable (polled, 0%nat)).1
    = earlierMap
  ∧ UseVehicles.error
      (UseVehicles.fetchVehicles (fun _ => 1000) false unavailable (polled, 0%nat)).1
    = Some "HTTP 503".
Proof.
  assert (Hf : UseVehicles.networkOrStatusFailure unavailable = true)
    by reflexivity.
  split; [exact Hf |].
  destruct (failed_fetch_keeps_map (fun _ => 1000) false unavailable polled 0 Hf)
    as (Hv & _ & _ & He).
  split; [exact Hv | exact He].
Defined.

(** Physical vehicle 7 seen under the key "7-3" and then under "7-4": the
    tracker holds the single key 7 after each update. *)
Example heading_tracker_survives_key_change :
  dom (VehicleLayer.headingTracker
         (blindUpdates emptyLayer
            [(blindOracle, [earlier_7_3]); (blindOracle, [later_7_4])]))
  = {[ Val 7 ]}
  ∧ dom (VehicleLayer.targetHeading
           (blindUpdates emptyLayer
              [(blindOracle, [earlier_7_3]); (blindOracle, [later_7_4])]))
    = {[ "7-4" ]}.
Proof. split; vm_compute; reflexivity. Qed.

(** 150 numbered waypoints: two requests, of 80 and 72 points, the second
    starting with waypoint 78. *)
Lemma chunks_overlap_and_cover_witness :
  (RoutedPath.MAX_WAYPOINTS < length numbered150)%nat
  ∧ RoutedPath.chunkRanges (length numbered150) 0
    = [(0%nat, 80%nat); (78%nat, 150%nat)]
  ∧ RoutedPath.chunksOf numbered150 = [take 80 numbered150; drop 78 numbered150]
  ∧ Forall (fun c => (length c ≤ RoutedPath.MAX_WAYPOINTS)%nat)
      (RoutedPath.chunksOf numbered150).
Proof.
  assert (Hn : (RoutedPath.MAX_WAYPOINTS < length numbered150)%nat)
    by (vm_compute; lia).
  split; [exact Hn |].
  destruct (chunks_overlap_and_cover numbered150 Hn)
    as (Hlen & _ & _ & _ & _ & _ & H150).
  destruct (H150 eq_refl) as [Hr Hc].
  split; [exact Hr |]. split; [exact Hc | exact Hlen].
Defined.

(** The second chunk of 150 numbered waypoints starts with waypoint 78 and
    the first ends with waypoint 79. *)
Example second_chunk_starts_at_78 :
  (RoutedPath.chunksOf numbered150 !! 1%nat) ≫= head
  = Some (Fin (inject_Z 78), Fin 0)
  ∧ (RoutedPath.chunksOf numbered150 !! 0%nat) ≫= last
    = Some (Fin (inject_Z 79), Fin 0).
Proof. split; vm_compute; reflexivity. Qed.


End Examples.

(* ===================================================================== *)
(** * Part III.  Further properties of the same code                     *)
(* ===================================================================== *)

(** ** normalizeVehicles: the output map as a whole *)

Section NormalizeMore.
Import JS Types Normalize Samples.

Lemma forOf_dom raws : ∀ map h,
  dom (forOf raws map h).1 = list_to_set (makeId <$> raws) ∪ dom map.
Proof.
  induction raws as [|raw rest IH]; intros map h.
  - simpl. set_solver.
  - rewrite forOf_cons, IH, dom_insert_L. set_solver.
Qed.

Lemma forOf_size raws : ∀ map h,
  (size (forOf raws map h).1 ≤ size map + length raws)%nat.
Proof.
  induction raws as [|raw rest IH]; intros map h.
  - simpl. lia.
  - rewrite forOf_cons.
    etransitivity; [apply IH |]. rewrite map_size_insert. simpl.
    destruct (map !! makeId raw); simpl; lia.
Qed.

(** Entries of the accumulator whose key no later record has are kept. *)
Lemma forOf_untouched raws : ∀ map h key,
  Forall (fun r => makeId r ≠ key) raws →
  (forOf raws map h).1 !! key = map !! key.
Proof.
  induction raws as [|raw rest IH]; intros map h key Hall; [reflexivity |].
  apply Forall_cons in Hall as [Hne Hall].
  rewrite forOf_cons, IH by exact Hall. apply lookup_insert_ne. exact Hne.
Qed.

Lemma forOf_app l1 l2 : ∀ map h,
  forOf (l1 ++ l2) map h = forOf l2 (forOf l1 map h).1 (forOf l1 map h).2.
Proof.
  induction l1 as [|raw rest IH]; intros map h; [reflexivity |].
  simpl app. rewrite !forOf_cons. apply IH.
Qed.

Lemma call_dom clock k rawList existingMap :
  dom (call clock k rawList existingMap).1 = list_to_set (makeId <$> rawList).
Proof.
  unfold call, normalizeVehicles. simpl rawListObj.
  rewrite forOf_dom, dom_empty_L. set_solver.
Qed.

(** The keys of the output are exactly the composite ids of the raw list,
    whatever the previous map held: the map is replaced wholesale, an empty
    list gives the empty map, and the map never has more entries than the
    list has records. *)
Theorem normalizeVehicles_keys
    (clock : nat → Z) (k : nat) (rawList : list Raw.RawVehicle)
    (existingMap : option (gmap string Vehicle)) :
  dom (call clock k rawList existingMap).1 = list_to_set (makeId <$> rawList)
  ∧ (size (call clock k rawList existingMap).1 ≤ length rawList)%nat
  ∧ (call clock k [] existingMap).1 = ∅.
Proof.
  split; [apply call_dom |].
  unfold call, normalizeVehicles. simpl rawListObj. split.
  - etransitivity; [apply forOf_size |]. rewrite map_size_empty. lia.
  - reflexivity.
Qed.

(** When several raw records share a composite id, the entry under that id
    is the record of the last of them, stamped with the clock reading taken
    for it. *)
Theorem normalizeVehicles_last_wins
    (clock : nat → Z) (k : nat) (before after : list Raw.RawVehicle)
    (raw : Raw.RawVehicle) (existingMap : option (gmap string Vehicle)) :
  Forall (fun r => makeId r ≠ makeId raw) after →
  (call clock k (before ++ raw :: after) existingMap).1 !! makeId raw
  = Some (normalizeVehicle raw
            {| hostClock := clock; clockCalls := (k + length before)%nat;
               rawListObj := before ++ raw :: after;
               existingMapObj := existingMap |}).1.
Proof.
  intros Hafter. unfold call, normalizeVehicles. simpl rawListObj.
  set (h := {| hostClock := clock; clockCalls := k;
               rawListObj := before ++ raw :: after;
               existingMapObj := existingMap |}).
  rewrite forOf_app, forOf_cons.
  rewrite forOf_untouched by exact Hafter. rewrite lookup_insert_eq.
  destruct (forOf_heap before ∅ h) as (Hc & Hk & Hr & He).
  destruct (forOf before ∅ h) as [m h']. simpl in *.
  destruct h' as [c n r e]. simpl in *. subst. reflexivity.
Qed.

Lemma normalizeVehicles_last_wins_witness :
  Forall (fun r => makeId r ≠ makeId raw_7_3_again) []
  ∧ latitude
      <$> (call (fun _ => 1000) 0 [raw_7_3; raw_7_3_again] None).1 !! "7-3"
    = Some (Fin (4816 # 100)).
Proof.
  assert (Ha : Forall (fun r => makeId r ≠ makeId raw_7_3_again) [])
    by constructor.
  split; [exact Ha |].
  pose proof (normalizeVehicles_last_wins (fun _ => 1000) 0 [raw_7_3] []
                raw_7_3_again None Ha) as Hl.
  change (makeId raw_7_3_again) with "7-3" in Hl.
  change ([raw_7_3] ++ [raw_7_3_again]) with [raw_7_3; raw_7_3_again] in Hl.
  rewrite Hl. reflexivity.
Defined.

End NormalizeMore.

(** ** useVehicles: what every fetch keeps, and the success path *)

Section UseVehiclesMore.
Import JS Types UseVehicles Samples.

Lemma fetchVehicles_ok clock manual o st k rawList :
  rawListOf o = Ok rawList →
  (fetchVehicles clock manual o (st, k)).1
  = (if manual then setReloading false else fun s => s)
      (onSuccess clock k rawList
         ((if manual then setReloading true else fun s => s) st)).1.
Proof.
  intros Ho. unfold fetchVehicles. rewrite Ho.
  destruct (onSuccess clock k rawList _) as [st2 k2] eqn:Hs.
  destruct manual; simpl in *; rewrite Hs; reflexivity.
Qed.

Lemma onSuccess_fields clock k rawList st :
  let newMap := (Normalize.call clock k rawList (Some (vehiclesRef st))).1 in
  let st' := (onSuccess clock k rawList st).1 in
  vehicles st' = newMap ∧ vehiclesRef st' = newMap ∧ error st' = None
  ∧ loading st' = false ∧ backoffRef st' = 1
  ∧ lastFetch st' = Some (clock (k + length rawList)%nat)
  ∧ reloading st' = reloading st.
Proof.
  unfold onSuccess.
  pose proof (forOf_heap rawList ∅
                {| Normalize.hostClock := clock; Normalize.clockCalls := k;
                   Normalize.rawListObj := rawList;
                   Normalize.existingMapObj := Some (vehiclesRef st) |})
    as (_ & Hk & _).
  unfold Normalize.call, Normalize.normalizeVehicles in *. simpl in *.
  destruct (Normalize.forOf rawList ∅ _) as [newMap h]. simpl in *.
  rewrite Hk. repeat split.
Qed.

(** One fetch keeps the state cell and the ref in step and the multiplier
    between 1 and 12. *)
Lemma fetchVehicles_invariant clock manual o st k :
  vehicles st = vehiclesRef st → 1 ≤ backoffRef st ≤ 12 →
  vehicles (fetchVehicles clock manual o (st, k)).1
    = vehiclesRef (fetchVehicles clock manual o (st, k)).1
  ∧ 1 ≤ backoffRef (fetchVehicles clock manual o (st, k)).1 ≤ 12.
Proof.
  intros Hv Hb. destruct (rawListOf o) as [rawList | err] eqn:Ho.
  - rewrite (fetchVehicles_ok _ _ _ _ _ _ Ho).
    set (st0 := (if manual then setReloading true else fun s => s) st).
    destruct (onSuccess_fields clock k rawList st0) as (H1 & H2 & _ & _ & H5 & _).
    assert (Hsame : ∀ s,
               vehicles ((if manual then setReloading false else fun s => s) s)
               = vehicles s
               ∧ vehiclesRef ((if manual then setReloading false else fun s => s) s)
                 = vehiclesRef s
               ∧ backoffRef ((if manual then setReloading false else fun s => s) s)
                 = backoffRef s)
      by (intros s; destruct manual; repeat split).
    destruct (Hsame (onSuccess clock k rawList st0).1) as (F1 & F2 & F3).
    rewrite F1, F2, F3, H1, H2, H5. split; [reflexivity | lia].
  - rewrite (fetchVehicles_failed _ _ _ _ _ _ Ho).
    destruct manual; simpl; (split; [exact Hv | lia]).
Qed.

(** Through any sequence of fetches, scheduled or manual, succeeding or
    failing, the published map equals the ref the next normalisation reads,
    the multiplier stays between 1 and 12, and with it the delay of the next
    scheduled fetch stays between the base interval and 12 times it. *)
Theorem fetches_keep_map_in_step
    (clock : nat → Z) (settings : AppSettings)
    (runs : list (bool * outcome)) (st : State) (k : nat) :
  vehicles st = vehiclesRef st →
  1 ≤ backoffRef st ≤ 12 →
  0 ≤ pollInterval settings →
  let st' := (fetches clock runs (st, k)).1 in
  vehicles st' = vehiclesRef st'
  ∧ 1 ≤ backoffRef st' ≤ 12
  ∧ pollInterval settings * 1000 ≤ scheduleInterval settings st'
      ≤ 12 * (pollInterval settings * 1000).
Proof.
  intros Hv Hb Hp st'.
  assert (Hinv : vehicles st' = vehiclesRef st' ∧ 1 ≤ backoffRef st' ≤ 12).
  { unfold st'. clear st'. induction runs as [|r runs IH] using rev_ind.
    - simpl. split; assumption.
    - rewrite fetches_snoc.
      destruct (fetches clock runs (st, k)) as [st1 k1]. simpl in IH.
      destruct IH as [IH1 IH2]. apply fetchVehicles_invariant; assumption. }
  destruct Hinv as [H1 H2]. split; [exact H1 |]. split; [exact H2 |].
  unfold scheduleInterval. nia.
Qed.

Lemma fetches_keep_map_in_step_witness :
  vehicles polled = vehiclesRef polled
  ∧ 1 ≤ backoffRef polled ≤ 12
  ∧ 0 ≤ pollInterval {| pollInterval := 5 |}
  ∧ 5000
    ≤ scheduleInterval {| pollInterval := 5 |}
        (fetches (fun _ => 1000) ((false, delivered) :: fiveFailures) (polled, 0%nat)).1
    ≤ 60000.
Proof.
  assert (Hv : vehicles polled = vehiclesRef polled) by reflexivity.
  assert (Hb : 1 ≤ backoffRef polled ≤ 12) by (simpl; lia).
  assert (Hp : 0 ≤ pollInterval {| pollInterval := 5 |}) by (simpl; lia).
  split; [exact Hv |]. split; [exact Hb |]. split; [exact Hp |].
  destruct (fetches_keep_map_in_step (fun _ => 1000) {| pollInterval := 5 |}
              ((false, delivered) :: fiveFailures) polled 0 Hv Hb Hp)
    as (_ & _ & Hs).
  exact Hs.
Defined.

(** A fetch that succeeds publishes the normalisation of the delivered list
    against the map held before: its keys are the composite ids of the
    list, every record carries as previous position the position the old
    map had under its id (none when the id is new), the error is cleared,
    [loading] ends, and [lastFetch] is the clock reading taken after the
    records were stamped. *)
Theorem successful_fetch_replaces_map
    (clock : nat → Z) (manual : bool) (o : outcome) (st : State) (k : nat)
    (rawList : list Raw.RawVehicle) :
  rawListOf o = Ok rawList →
  let st' := (fetchVehicles clock manual o (st, k)).1 in
  dom (vehicles st') = list_to_set (Normalize.makeId <$> rawList)
  ∧ (∀ key v, vehicles st' !! key = Some v →
       prevLatitude v = latitude <$> vehiclesRef st !! key
       ∧ prevLongitude v = longitude <$> vehiclesRef st !! key)
  ∧ error st' = None
  ∧ loading st' = false
  ∧ lastFetch st' = Some (clock (k + length rawList)%nat).
Proof.
  intros Ho st'. unfold st'. rewrite (fetchVehicles_ok _ _ _ _ _ _ Ho).
  set (st0 := (if manual then setReloading true else fun s => s) st).
  assert (Href : vehiclesRef st0 = vehiclesRef st)
    by (unfold st0; destruct manual; reflexivity).
  destruct (onSuccess_fields clock k rawList st0)
    as (H1 & _ & H3 & H4 & _ & H6 & _).
  assert (Hfields : ∀ s, vehicles ((if manual then setReloading false
                                    else fun s => s) s) = vehicles s
                         ∧ error ((if manual then setReloading false
                                   else fun s => s) s) = error s
                         ∧ loading ((if manual then setReloading false
                                     else fun s => s) s) = loading s
                         ∧ lastFetch ((if manual then setReloading false
                                       else fun s => s) s) = lastFetch s)
    by (intros s; destruct manual; repeat split).
  destruct (Hfields (onSuccess clock k rawList st0).1) as (F1 & F2 & F3 & F4).
  rewrite F1, F2, F3, F4, H1, H3, H4, H6, Href.
  split; [apply call_dom |].
  split; [| repeat split].
  intros key v Hl. unfold Normalize.call, Normalize.normalizeVehicles in Hl.
  simpl in Hl.
  apply forOf_lookup in Hl as [Hl | (raw & h' & _ & -> & -> & He & _)].
  - rewrite lookup_empty in Hl. discriminate.
  - destruct (normalizeVehicle_prev raw h') as [Hla Hlo].
    rewrite Hla, Hlo, He. simpl. split; reflexivity.
Qed.

End UseVehiclesMore.

Section UseVehiclesEdges.
Import JS Types UseVehicles Samples.

(** A 2xx response whose body cannot be read is a failure like any other:
    the canonical map and the time of the last good fetch stay, the parse
    error becomes the error message, [loading] ends and the multiplier
    doubles up to 12. *)
Theorem unreadable_body_is_a_failure
    (clock : nat → Z) (manual : bool) (res : response) (e : thrown)
    (st : State) (k : nat) :
  ok res = true →
  json res = Throw e →
  let st' := (fetchVehicles clock manual (Ok res) (st, k)).1 in
  vehicles st' = vehicles st
  ∧ vehiclesRef st' = vehiclesRef st
  ∧ lastFetch st' = lastFetch st
  ∧ error st' = Some (errorMessage e)
  ∧ loading st' = false
  ∧ backoffRef st' = Z.min (backoffRef st * 2) 12.
Proof.
  intros Hok Hj st'. unfold st'.
  assert (Ho : rawListOf (Ok res) = Throw e)
    by (simpl; rewrite Hok, Hj; reflexivity).
  rewrite (fetchVehicles_failed _ _ _ _ _ _ Ho).
  destruct manual; repeat split.
Qed.

Lemma unreadable_body_is_a_failure_witness :
  true = true
  ∧ @Throw thrown body (ErrorObject "Unexpected token < in JSON")
    = Throw (ErrorObject "Unexpected token < in JSON")
  ∧ vehicles (fetchVehicles (fun _ => 1000) false garbled (polled, 0%nat)).1
    = earlierMap
  ∧ error (fetchVehicles (fun _ => 1000) false garbled (polled, 0%nat)).1
    = Some "Unexpected token < in JSON".
Proof.
  split; [reflexivity |]. split; [reflexivity |].
  destruct (unreadable_body_is_a_failure (fun _ => 1000) false
              {| ok := true; status := 200;
                 json := Throw (ErrorObject "Unexpected token < in JSON") |}
              (ErrorObject "Unexpected token < in JSON") polled 0
              eq_refl eq_refl) as (Hv & _ & _ & He & _).
  split; [exact Hv | exact He].
Defined.

(** A 2xx response whose body is neither an object with a [vehicles] array
    nor an array counts as a good fetch of no vehicles: the canonical map
    is emptied, the error cleared and the multiplier reset. *)
Theorem unexpected_shape_empties_map
    (clock : nat → Z) (manual : bool) (res : response) (st : State) (k : nat) :
  ok res = true →
  json res = Ok OtherShape →
  let st' := (fetchVehicles clock manual (Ok res) (st, k)).1 in
  vehicles st' = ∅ ∧ vehiclesRef st' = ∅ ∧ error st' = None
  ∧ backoffRef st' = 1 ∧ lastFetch st' = Some (clock k).
Proof.
  intros Hok Hj st'. unfold st'.
  assert (Ho : rawListOf (Ok res) = Ok [])
    by (simpl; rewrite Hok, Hj; reflexivity).
  rewrite (fetchVehicles_ok _ _ _ _ _ _ Ho).
  set (st0 := (if manual then setReloading true else fun s => s) st).
  destruct (onSuccess_fields clock k [] st0) as (H1 & H2 & H3 & _ & H5 & H6 & _).
  simpl in H1, H2, H6. rewrite Nat.add_0_r in H6.
  destruct manual; simpl; rewrite ?H1, ?H2, ?H3, ?H5, ?H6; repeat split.
Qed.

Lemma unexpected_shape_empties_map_witness :
  true = true
  ∧ @Ok thrown body OtherShape = Ok OtherShape
  ∧ vehicles (fetchVehicles (fun _ => 1000) false unexpected (polled, 0%nat)).1
    = ∅.
Proof.
  split; [reflexivity |]. split; [reflexivity |].
  destruct (unexpected_shape_empties_map (fun _ => 1000) false
              {| ok := true; status := 200; json := Ok OtherShape |}
              polled 0 eq_refl eq_refl) as (Hv & _).
  exact Hv.
Defined.

Lemma successful_fetch_replaces_map_witness :
  rawListOf delivered = Ok [raw_7_3]
  ∧ dom (vehicles
           (fetchVehicles (fun _ => 1000) false delivered (polled, 0%nat)).1)
    = {[ "7-3" ]}
  ∧ error (fetchVehicles (fun _ => 1000) false delivered (polled, 0%nat)).1
    = None.
Proof.
  assert (Ho : rawListOf delivered = Ok [raw_7_3]) by reflexivity.
  split; [exact Ho |].
  destruct (successful_fetch_replaces_map (fun _ => 1000) false delivered
              polled 0 [raw_7_3] Ho) as (Hd & _ & He & _).
  split; [| exact He]. rewrite Hd. vm_compute. reflexivity.
Defined.

End UseVehiclesEdges.

(** ** utils/time.ts *)

Section TimeFacts.
Import JS Types Time.

(** The age shown is the elapsed time rounded down to whole seconds below
    a minute, to whole minutes below an hour, and to whole hours from then
    on; a timestamp in the future reads as "0s ago". *)
Theorem relativeTime_rounds_down (now timestampMs : Z) :
  let diff := Z.max 0 (now - timestampMs) in
  ((diff < 60000
    ∧ relativeTime now timestampMs = pretty (diff / 1000) +:+ "s ago")
   ∨ (60000 ≤ diff < 3600000
      ∧ relativeTime now timestampMs = pretty (diff / 60000) +:+ "m ago")
   ∨ (3600000 ≤ diff
      ∧ relativeTime now timestampMs = pretty (diff / 3600000) +:+ "h ago"))
  ∧ (now ≤ timestampMs → relativeTime now timestampMs = "0s ago").
Proof.
  intros diff. unfold relativeTime. fold diff.
  assert (Hd : 0 ≤ diff) by (unfold diff; lia).
  assert (Hm : diff / 1000 / 60 = diff / 60000)
    by (rewrite Z.div_div by lia; reflexivity).
  assert (Hh : diff / 1000 / 60 / 60 = diff / 3600000)
    by (rewrite !Z.div_div by lia; reflexivity).
  pose proof (Z.div_mod diff 1000 ltac:(lia)) as E1.
  pose proof (Z.mod_pos_bound diff 1000 ltac:(lia)) as B1.
  pose proof (Z.div_mod diff 60000 ltac:(lia)) as E2.
  pose proof (Z.mod_pos_bound diff 60000 ltac:(lia)) as B2.
  split.
  - destruct (diff / 1000 <? 60) eqn:Hs.
    + left. apply Z.ltb_lt in Hs. split; [lia | reflexivity].
    + apply Z.ltb_ge in Hs.
      destruct (diff / 1000 / 60 <? 60) eqn:Hmin.
      * right. left. apply Z.ltb_lt in Hmin. rewrite Hm in *.
        split; [lia | reflexivity].
      * right. right. apply Z.ltb_ge in Hmin. rewrite Hm in Hmin. rewrite Hh.
        split; [lia | reflexivity].
  - intros Hle. assert (H0 : diff = 0) by (unfold diff; lia).
    rewrite H0. reflexivity.
Qed.

Lemma relativeTime_rounds_down_witness :
  0 ≤ 1000 ∧ relativeTime 0 1000 = "0s ago".
Proof.
  split; [lia |].
  exact (proj2 (relativeTime_rounds_down 0 1000) ltac:(lia)).
Defined.

(** The connection status only degrades as time passes: what is live now
    was live before, what is offline stays offline; without a good fetch
    it is offline. *)
Theorem connection_status_degrades (now1 now2 : Z) (lastFetchMs : option Z) :
  now1 ≤ now2 →
  (getConnectionStatus now2 lastFetchMs = live →
   getConnectionStatus now1 lastFetchMs = live)
  ∧ (getConnectionStatus now1 lastFetchMs = offline →
     getConnectionStatus now2 lastFetchMs = offline)
  ∧ getConnectionStatus now1 None = offline.
Proof.
  intros Hle. unfold getConnectionStatus.
  destruct lastFetchMs as [t|]; [| repeat split; discriminate].
  repeat split;
    destruct (now1 - t <? 10000) eqn:H1, (now1 - t <? 30000) eqn:H2,
             (now2 - t <? 10000) eqn:H3, (now2 - t <? 30000) eqn:H4;
    try reflexivity; try discriminate;
    rewrite ?Z.ltb_lt, ?Z.ltb_ge in *; lia.
Qed.

Lemma connection_status_degrades_witness :
  5000 ≤ 20000
  ∧ (getConnectionStatus 20000 (Some 0) = live →
     getConnectionStatus 5000 (Some 0) = live).
Proof.
  split; [lia |].
  exact (proj1 (connection_status_degrades 5000 20000 (Some 0) ltac:(lia))).
Defined.

(** A failed fetch does not refresh the connection status; a good one makes
    it live from its time stamp until ten seconds later. *)
Theorem connection_status_follows_fetches
    (clock : nat → Z) (manual : bool) (o : UseVehicles.outcome)
    (st : UseVehicles.State) (k : nat) (now : Z) :
  let st' := (UseVehicles.fetchVehicles clock manual o (st, k)).1 in
  (UseVehicles.failed o = true →
   getConnectionStatus now (UseVehicles.lastFetch st')
   = getConnectionStatus now (UseVehicles.lastFetch st))
  ∧ (∀ rawList, UseVehicles.rawListOf o = Ok rawList →
       clock (k + length rawList)%nat ≤ now < clock (k + length rawList)%nat + 10000 →
       getConnectionStatus now (UseVehicles.lastFetch st') = live).
Proof.
  intros st'. unfold st'. split.
  - intros Hf. destruct (failed_throws o Hf) as [err Ho].
    rewrite (fetchVehicles_failed _ _ _ _ _ _ Ho).
    destruct manual; reflexivity.
  - intros rawList Ho Hnow.
    rewrite (fetchVehicles_ok _ _ _ _ _ _ Ho).
    set (st0 := (if manual then UseVehicles.setReloading true else fun s => s) st).
    destruct (onSuccess_fields clock k rawList st0) as (_ & _ & _ & _ & _ & H6 & _).
    assert (Hl : UseVehicles.lastFetch
                   ((if manual then UseVehicles.setReloading false
                     else fun s => s) (UseVehicles.onSuccess clock k rawList st0).1)
                 = Some (clock (k + length rawList)%nat))
      by (destruct manual; exact H6).
    rewrite Hl. unfold getConnectionStatus.
    destruct (now - clock (k + length rawList)%nat <? 10000) eqn:Ha;
      [reflexivity | apply Z.ltb_ge in Ha; lia].
Qed.

Lemma connection_status_follows_fetches_witness :
  UseVehicles.failed Samples.unavailable = true
  ∧ getConnectionStatus 7000
      (UseVehicles.lastFetch
         (UseVehicles.fetchVehicles (fun _ => 1000) false Samples.unavailable
            (Samples.polled, 0%nat)).1)
    = getConnectionStatus 7000 (UseVehicles.lastFetch Samples.polled).
Proof.
  assert (Hf : UseVehicles.failed Samples.unavailable = true) by reflexivity.
  split; [exact Hf |].
  exact (proj1 (connection_status_follows_fetches (fun _ => 1000) false
                  Samples.unavailable Samples.polled 0 7000) Hf).
Defined.

End TimeFacts.

(** ** utils/normalizeStops.ts and hooks/useStops.ts *)

Section NormalizeStopsFacts.
Import JS TripStops NormalizeStops.
Variable parseFloat : string → number.
Variable numberToString : number → string.
Variable trim : string → string.

Abbreviation normalizeStop' := (normalizeStop parseFloat numberToString trim).
Abbreviation normalizeStops' := (normalizeStops parseFloat numberToString trim).
Abbreviation forEach' := (forEach parseFloat numberToString trim).
Abbreviation platformStops' := (platformStops parseFloat numberToString trim).

(** [seen] holds exactly the ids of [out], and [out] has no id twice. *)
Abbreviation inStep acc :=
  (NoDup (id <$> fst acc) ∧ ∀ key : string, key ∈ snd acc ↔ key ∈ id <$> fst acc).

Lemma pushNew_inStep (stops : list Stop) : ∀ acc,
  inStep acc → inStep (pushNew stops acc).
Proof.
  induction stops as [|s rest IH]; intros acc Hacc; [exact Hacc |].
  simpl. destruct (decide (id s ∈ acc.2)) as [Hin | Hnin]; [apply IH, Hacc |].
  apply IH. destruct Hacc as [Hnd Hseen]. split; simpl.
  - rewrite fmap_app. simpl. apply NoDup_app. split; [exact Hnd |].
    split; [| apply NoDup_singleton].
    intros key Hk Hs. apply list_elem_of_singleton in Hs as ->.
    apply Hnin, Hseen, Hk.
  - intros key. rewrite fmap_app, elem_of_app, elem_of_union, elem_of_singleton.
    simpl. rewrite list_elem_of_singleton, Hseen. tauto.
Qed.

(** Nothing already out is lost, every stop handed in has its id in [seen]
    afterwards, and what is new in [out] was handed in. *)
Lemma pushNew_grows (stops : list Stop) : ∀ acc,
  (∀ s, s ∈ acc.1 → s ∈ (pushNew stops acc).1)
  ∧ (∀ key, key ∈ acc.2 → key ∈ (pushNew stops acc).2)
  ∧ (∀ s, s ∈ stops → id s ∈ (pushNew stops acc).2)
  ∧ (∀ s, s ∈ (pushNew stops acc).1 → s ∈ acc.1 ∨ s ∈ stops).
Proof.
  induction stops as [|s rest IH]; intros acc.
  - simpl. repeat split; try tauto. intros s Hs. inversion Hs.
  - simpl. destruct (decide (id s ∈ acc.2)) as [Hin | Hnin].
    + destruct (IH acc) as (H1 & H2 & H3 & H4). repeat split; try assumption.
      * intros s' Hs'. apply elem_of_cons in Hs' as [-> | Hs'];
          [apply H2, Hin | apply H3, Hs'].
      * intros s' Hs'. destruct (H4 s' Hs'); [left | right; right]; assumption.
    + destruct (IH (acc.1 ++ [s], {[ id s ]} ∪ acc.2)) as (H1 & H2 & H3 & H4).
      simpl in *. repeat split.
      * intros s' Hs'. apply H1, elem_of_app. left. exact Hs'.
      * intros key Hk. apply H2, elem_of_union_r, Hk.
      * intros s' Hs'. apply elem_of_cons in Hs' as [-> | Hs'];
          [apply H2, elem_of_union_l, elem_of_singleton; reflexivity
          | apply H3, Hs'].
      * intros s' Hs'. destruct (H4 s' Hs') as [Ha | Hr].
        -- apply elem_of_app in Ha as [Ha | Ha]; [left; exact Ha |].
           apply list_elem_of_singleton in Ha as ->. right. left.
        -- right. right. exact Hr.
Qed.

Lemma forEach_inStep (rawList : list json) : ∀ idx acc acc',
  forEach' rawList idx acc = Ok acc' → inStep acc → inStep acc'.
Proof.
  induction rawList as [|raw rest IH]; intros idx acc acc' He Hacc.
  - inversion He; subst. exact Hacc.
  - simpl in He. destruct (normalizeStop' raw idx) as [stops|e]; [| discriminate].
    eapply IH; [exact He |]. apply pushNew_inStep, Hacc.
Qed.

Lemma forEach_grows (rawList : list json) : ∀ idx acc acc',
  forEach' rawList idx acc = Ok acc' →
  (∀ key, key ∈ acc.2 → key ∈ acc'.2)
  ∧ (∀ i raw stops s,
       rawList !! i = Some raw → normalizeStop' raw (idx + i) = Ok stops →
       s ∈ stops → id s ∈ acc'.2)
  ∧ (∀ s, s ∈ acc'.1 →
       s ∈ acc.1
       ∨ ∃ i raw stops,
           rawList !! i = Some raw ∧ normalizeStop' raw (idx + i) = Ok stops
           ∧ s ∈ stops).
Proof.
  induction rawList as [|raw rest IH]; intros idx acc acc' He.
  - inversion He; subst. repeat split; try tauto.
    intros i raw stops s Hi. discriminate.
  - simpl in He.
    destruct (normalizeStop' raw idx) as [stops|e] eqn:Hn; [| discriminate].
    destruct (IH _ _ _ He) as (H1 & H2 & H3).
    destruct (pushNew_grows stops acc) as (G1 & G2 & G3 & G4).
    repeat split.
    + intros key Hk. apply H1, G2, Hk.
    + intros i raw' stops' s Hi Hn' Hs. destruct i as [|i].
      * simpl in Hi. inversion Hi; subst raw'. rewrite Nat.add_0_r, Hn in Hn'.
        inversion Hn'; subst stops'. apply H1, G3, Hs.
      * simpl in Hi. rewrite <- Nat.add_succ_comm in Hn'.
        exact (H2 i raw' stops' s Hi Hn' Hs).
    + intros s Hs. destruct (H3 s Hs) as [Ha | (i & raw' & stops' & Hi & Hn' & Hin)].
      * destruct (G4 s Ha) as [Hacc | Hst]; [left; exact Hacc |].
        right. exists 0%nat, raw, stops. rewrite Nat.add_0_r. auto.
      * right. exists (S i), raw', stops'. rewrite <- Nat.add_succ_comm. auto.
Qed.

(** A stop is only ever made from an entry flagged for urban or bus
    transport. *)
Lemma normalizeStop_flagged (raw : json) (idx : nat) (stops : list Stop) (s : Stop) :
  normalizeStop' raw idx = Ok stops → s ∈ stops →
  Boolean (prop raw "forUrbanPublicTransport")
  || Boolean (prop raw "forBusTransport") = true.
Proof.
  intros Hn Hs. unfold normalizeStop in Hn.
  destruct (Boolean (prop raw "forUrbanPublicTransport")); [reflexivity |].
  destruct (Boolean (prop raw "forBusTransport")); [reflexivity |].
  simpl in Hn. destruct raw; try discriminate; inversion Hn; subst; inversion Hs.
Qed.

Lemma normalizeStops_NoDup (rawList : list json) (out : list Stop) :
  normalizeStops' rawList = Ok out → NoDup (id <$> out).
Proof.
  unfold normalizeStops. intros He.
  destruct (forEach' rawList 0 ([], ∅)) as [acc|e] eqn:Hf; [| discriminate].
  inversion He; subst. apply (forEach_inStep _ _ _ _ Hf).
  split; simpl; [constructor |]. intros key. set_solver.
Qed.

(** The ids of the normalised stops are pairwise different. *)
Theorem normalizeStops_unique_ids (rawList : list json) (out : list Stop) :
  normalizeStops' rawList = Ok out → NoDup (id <$> out).
Proof. apply normalizeStops_NoDup. Qed.

(** Every normalised stop was made by [normalizeStop] from an entry of the
    list that is flagged for urban or bus transport, and every stop so made
    is represented: its id is the id of a stop of the output. *)
Theorem normalizeStops_provenance (rawList : list json) (out : list Stop) :
  normalizeStops' rawList = Ok out →
  (∀ s, s ∈ out →
     ∃ i raw stops,
       rawList !! i = Some raw ∧ normalizeStop' raw i = Ok stops ∧ s ∈ stops
       ∧ Boolean (prop raw "forUrbanPublicTransport")
         || Boolean (prop raw "forBusTransport") = true)
  ∧ (∀ i raw stops s,
       rawList !! i = Some raw → normalizeStop' raw i = Ok stops → s ∈ stops →
       id s ∈ id <$> out).
Proof.
  unfold normalizeStops. intros He.
  destruct (forEach' rawList 0 ([], ∅)) as [acc|e] eqn:Hf; [| discriminate].
  inversion He; subst. destruct (forEach_grows _ _ _ _ Hf) as (_ & H2 & H3).
  split.
  - intros s Hs. destruct (H3 s Hs) as [Ha | (i & raw & stops & Hi & Hn & Hin)];
      [inversion Ha |].
    simpl in Hn. exists i, raw, stops. repeat split; try assumption.
    exact (normalizeStop_flagged raw i stops s Hn Hin).
  - intros i raw stops s Hi Hn Hs.
    assert (Hstep : inStep acc).
    { apply (forEach_inStep _ _ _ _ Hf). split; simpl; [constructor |].
      intros key. set_solver. }
    apply Hstep. exact (H2 i raw stops s Hi Hn Hs).
Qed.

Lemma platformStop_made stopID idx baseName cityName (p : json) (s : Stop) :
  platformStop parseFloat numberToString trim stopID idx baseName cityName p
  = Ok (Some s) →
  toNumber parseFloat (prop p "latitude") = Some (latitude s)
  ∧ toNumber parseFloat (prop p "longitude") = Some (longitude s)
  ∧ is_Some (platform s).
Proof.
  unfold platformStop, andThen. intros Hp.
  destruct p; try discriminate;
    destruct (toNumber parseFloat _) as [pLat|]; try discriminate;
    destruct (toNumber parseFloat _) as [pLng|]; try discriminate;
    destruct (text numberToString _) as [number|]; try discriminate;
    destruct (toStringValue numberToString trim _) as [name|];
    try destruct (String.eqb name ""); try discriminate;
    inversion Hp; subst; simpl; eauto.
Qed.

Lemma platformStops_shape stopID idx baseName cityName (platforms : list json) :
  ∀ stops,
    platformStops' stopID idx baseName cityName platforms = Ok stops →
    Forall (fun s =>
              is_Some (platform s)
              ∧ ∃ p, p ∈ platforms
                     ∧ toNumber parseFloat (prop p "latitude") = Some (latitude s)
                     ∧ toNumber parseFloat (prop p "longitude")
                       = Some (longitude s)) stops
    ∧ (length stops ≤ length platforms)%nat.
Proof.
  induction platforms as [|p rest IH]; intros stops He; simpl in He.
  - inversion He; subst. split; [constructor | simpl; lia].
  - destruct (platformStop _ _ _ _ _ _ _ p) as [pushed|e] eqn:Hp; [| discriminate].
    destruct (platformStops' stopID idx baseName cityName rest) as [results|e];
      [| discriminate].
    destruct (IH results eq_refl) as [Hall Hlen].
    assert (Hall' : Forall (fun s =>
              is_Some (platform s)
              ∧ ∃ q, q ∈ p :: rest
                     ∧ toNumber parseFloat (prop q "latitude") = Some (latitude s)
                     ∧ toNumber parseFloat (prop q "longitude")
                       = Some (longitude s)) results).
    { eapply Forall_impl; [exact Hall |].
      intros s (Hs & q & Hq & Hc). split; [exact Hs |].
      exists q. split; [right; exact Hq | exact Hc]. }
    inversion He; subst.
    destruct pushed as [s|]; [| split; [exact Hall' | simpl; lia]].
    split; [| simpl; lia]. constructor; [| exact Hall'].
    destruct (platformStop_made _ _ _ _ _ _ Hp) as (Hlat & Hlng & Hplat).
    split; [exact Hplat |]. exists p. split; [left | split; assumption].
Qed.

(** What one entry gives: nothing when it is not flagged for urban or bus
    transport; when it is flagged, one stop at its own coordinates, without
    platform, if these are usable, whatever platforms it lists; and only
    otherwise stops made of its platforms, at most one per platform, each
    at the usable coordinates of a platform and naming its platform. *)
Theorem normalizeStop_prefers_own_coordinates
    (raw : json) (idx : nat) (stops : list Stop) :
  normalizeStop' raw idx = Ok stops →
  let lat := toNumber parseFloat (orElse (prop raw "latitude") (prop raw "lat")) in
  let lng := toNumber parseFloat (orElse (prop raw "longitude") (prop raw "lng")) in
  let flagged :=
    Boolean (prop raw "forUrbanPublicTransport")
    || Boolean (prop raw "forBusTransport") in
  let platforms := default [] (isArray (prop raw "platforms")) in
  (flagged = false ∧ stops = [])
  ∨ (flagged = true
     ∧ ∃ s, stops = [s] ∧ lat = Some (latitude s) ∧ lng = Some (longitude s)
            ∧ platform s = None
            ∧ id s = "stop-"
                       +:+ stopKey numberToString
                             (toNumber parseFloat (prop raw "stopID")) idx)
  ∨ (flagged = true
     ∧ (lat = None ∨ lng = None)
     ∧ Forall (fun s =>
                 is_Some (platform s)
                 ∧ ∃ p, p ∈ platforms
                        ∧ toNumber parseFloat (prop p "latitude")
                          = Some (latitude s)
                        ∧ toNumber parseFloat (prop p "longitude")
                          = Some (longitude s)) stops
     ∧ (length stops ≤ length platforms)%nat).
Proof.
  intros Hn lat lng flagged platforms.
  assert (Hbody : normalizeStop' raw idx
            = if negb (Boolean (prop raw "forUrbanPublicTransport"))
                 && negb (Boolean (prop raw "forBusTransport"))
              then Ok []
              else
                match lat, lng with
                | Some la, Some ln =>
                    Ok [ {| id := "stop-"
                                    +:+ stopKey numberToString
                                          (toNumber parseFloat (prop raw "stopID")) idx;
                            stopID := toNumber parseFloat (prop raw "stopID");
                            name :=
                              default
                                ("Stop "
                                   +:+ stopKey numberToString
                                         (toNumber parseFloat (prop raw "stopID")) idx)
                                (toStringValue numberToString trim
                                   (orElse (prop raw "stopName") (prop raw "name")));
                            latitude := la;
                            longitude := ln;
                            cityName :=
                              toStringValue numberToString trim
                                (orElse (prop raw "stopCity") (prop raw "cityName"));
                            platform := None |} ]
                | _, _ =>
                    match prop raw "platforms" with
                    | Some (JArray platforms) =>
                        platformStops' (toNumber parseFloat (prop raw "stopID")) idx
                          (default
                             ("Stop "
                                +:+ stopKey numberToString
                                      (toNumber parseFloat (prop raw "stopID")) idx)
                             (toStringValue numberToString trim
                                (orElse (prop raw "stopName") (prop raw "name"))))
                          (toStringValue numberToString trim
                             (orElse (prop raw "stopCity") (prop raw "cityName")))
                          platforms
                    | _ => Ok []
                    end
                end).
  { destruct raw; try reflexivity. discriminate Hn. }
  rewrite Hbody in Hn. clear Hbody.
  destruct flagged eqn:Hflag; unfold flagged in Hflag.
  - right.
    assert (Hgo : negb (Boolean (prop raw "forUrbanPublicTransport"))
                  && negb (Boolean (prop raw "forBusTransport")) = false)
      by (rewrite <- negb_orb, Hflag; reflexivity).
    rewrite Hgo in Hn.
    assert (Hplat :
              match prop raw "platforms" with
              | Some (JArray platforms) =>
                  platformStops' (toNumber parseFloat (prop raw "stopID")) idx
                    (default
                       ("Stop "
                          +:+ stopKey numberToString
                                (toNumber parseFloat (prop raw "stopID")) idx)
                       (toStringValue numberToString trim
                          (orElse (prop raw "stopName") (prop raw "name"))))
                    (toStringValue numberToString trim
                       (orElse (prop raw "stopCity") (prop raw "cityName")))
                    platforms
              | _ => Ok []
              end = Ok stops →
              Forall (fun s =>
                 is_Some (platform s)
                 ∧ ∃ p, p ∈ platforms
                        ∧ toNumber parseFloat (prop p "latitude")
                          = Some (latitude s)
                        ∧ toNumber parseFloat (prop p "longitude")
                          = Some (longitude s)) stops
              ∧ (length stops ≤ length platforms)%nat).
    { unfold platforms.
      destruct (prop raw "platforms") as [[| | | |items|]|]; simpl;
        try (intros Hp; inversion Hp; subst; split; [constructor | simpl; lia]).
      apply platformStops_shape. }
    destruct lat as [la|]; [destruct lng as [ln|] |].
    + left. split; [reflexivity |]. inversion Hn; subst. eexists. repeat split.
    + right. split; [reflexivity |].
      split; [right; reflexivity | exact (Hplat Hn)].
    + right. split; [reflexivity |].
      split; [left; reflexivity | exact (Hplat Hn)].
  - left. split; [reflexivity |].
    apply orb_false_iff in Hflag as [Hu Hb]. rewrite Hu, Hb in Hn.
    simpl in Hn. inversion Hn. reflexivity.
Qed.


End NormalizeStopsFacts.

Section NormalizeStopsExamples.
Import JS TripStops NormalizeStops Samples.

Lemma normalizeStops_sample :
  id <$> match normalizeStops sampleParseFloat printInteger sampleTrim nearbyStops with
         | Ok out => out
         | Throw _ => []
         end
  = ["stop-12"; "stop-14-p1"; "stop-14-p2"].
Proof. vm_compute. reflexivity. Qed.

Lemma normalizeStops_sample_ok :
  ∃ out, normalizeStops sampleParseFloat printInteger sampleTrim nearbyStops = Ok out
         ∧ id <$> out = ["stop-12"; "stop-14-p1"; "stop-14-p2"].
Proof.
  pose proof normalizeStops_sample as Hs.
  destruct (normalizeStops sampleParseFloat printInteger sampleTrim nearbyStops)
    as [out|e] eqn:Hn; [eauto | discriminate Hs].
Qed.

Lemma normalizeStops_unique_ids_witness :
  ∃ out, normalizeStops sampleParseFloat printInteger sampleTrim nearbyStops = Ok out
         ∧ NoDup (id <$> out).
Proof.
  destruct normalizeStops_sample_ok as (out & Hn & _).
  exists out. split; [exact Hn |].
  exact (normalizeStops_unique_ids sampleParseFloat printInteger sampleTrim
           nearbyStops out Hn).
Defined.

Lemma normalizeStops_provenance_witness :
  ∃ out, normalizeStops sampleParseFloat printInteger sampleTrim nearbyStops = Ok out
         ∧ ∀ s, s ∈ out →
             ∃ i raw, nearbyStops !! i = Some raw
                      ∧ Boolean (prop raw "forUrbanPublicTransport")
                        || Boolean (prop raw "forBusTransport") = true.
Proof.
  destruct normalizeStops_sample_ok as (out & Hn & _).
  exists out. split; [exact Hn |]. intros s Hs.
  destruct (proj1 (normalizeStops_provenance sampleParseFloat printInteger
                     sampleTrim nearbyStops out Hn) s Hs)
    as (i & raw & stops & Hi & _ & _ & Hflag).
  exists i, raw. split; assumption.
Defined.

Lemma normalizeStop_prefers_own_coordinates_witness :
  ∃ stops,
    normalizeStop sampleParseFloat printInteger sampleTrim stopWithPlatforms 3
    = Ok stops
    ∧ Forall (fun s => is_Some (platform s)) stops.
Proof.
  eexists. split; [vm_compute; reflexivity |].
  match goal with
  | |- Forall _ ?stops =>
      destruct (normalizeStop_prefers_own_coordinates sampleParseFloat
                  printInteger sampleTrim stopWithPlatforms 3 stops)
        as [[Hflag _] | [(_ & s & _ & Hlat & _) | (_ & _ & Hall & _)]]
  end.
  - vm_compute. reflexivity.
  - vm_compute in Hflag. discriminate.
  - vm_compute in Hlat. discriminate.
  - eapply Forall_impl; [exact Hall |]. intros s [Hs _]. exact Hs.
Defined.

End NormalizeStopsExamples.

(** ** hooks/useTripStops.ts *)

Section UseTripStopsFacts.
Import JS TripStops UseTripStops Samples.
Variable parseFloat : string → number.
Variable numberToString : number → string.

Abbreviation fetchTripStops' := (fetchTripStops parseFloat numberToString).
Abbreviation attempt' := (UseTripStops.attempt parseFloat numberToString).

Lemma attempt_sorted (o : outcome) (stops : list TripStop) :
  attempt' o = Ok stops →
  StronglySorted (fun a b => (stopOrder a <= stopOrder b)%Q) stops.
Proof.
  unfold UseTripStops.attempt. destruct o as [res|]; [| discriminate].
  destruct (ok res); [| discriminate].
  destruct (json res) as [data|]; [| discriminate].
  unfold parseTripStops.
  destruct (mapToStop parseFloat numberToString (rawStopsOf data)) as [rows|];
    [| discriminate].
  intros He. inversion He; subst.
  apply (Array_sort_sorted byStopOrder stopOrder). reflexivity.
Qed.



(** The stops held by the hook stay sorted by [stopOrder] through any
    sequence of fetches and clears, and also when calls overlap, through
    any sequence of starts, settlements and clears. *)
Theorem tripStops_stay_sorted (actions : list action) (st : State) :
  StronglySorted (fun a b => (stopOrder a <= stopOrder b)%Q) (tripStops st) →
  StronglySorted (fun a b => (stopOrder a <= stopOrder b)%Q)
    (tripStops (foldl (act parseFloat numberToString) st actions))
  ∧ ∀ events : list event,
      StronglySorted (fun a b => (stopOrder a <= stopOrder b)%Q)
        (tripStops (foldl (step parseFloat numberToString) st events)).
Proof.
  intros Hsorted. split.
  - revert st Hsorted.
    induction actions as [|a rest IH]; intros st Hs; [exact Hs |].
    simpl. apply IH. destruct a as [tripID o|]; simpl; [| constructor].
    unfold fetchTripStops, start, settle. destruct (tripID =? 0); [exact Hs |].
    destruct (decide (activeTripID st = Some tripID)); [constructor |].
    destruct (attempt' o) as [stops|e] eqn:Ha; simpl; [| constructor].
    exact (attempt_sorted o stops Ha).
  - intros events. revert st Hsorted.
    induction events as [|ev rest IH]; intros st Hs; [exact Hs |].
    simpl. apply IH. destruct ev as [tripID|o|]; simpl; [| | constructor].
    + unfold start. destruct (tripID =? 0); [exact Hs |].
      destruct (decide (activeTripID st = Some tripID)); [constructor | exact Hs].
    + unfold settle. destruct (attempt' o) as [stops|e] eqn:Ha; simpl;
        [| constructor].
      exact (attempt_sorted o stops Ha).
Qed.

End UseTripStopsFacts.

Section UseTripStopsExamples.
Import JS TripStops UseTripStops Samples.



Lemma tripStops_stay_sorted_witness :
  StronglySorted (fun a b => (stopOrder a <= stopOrder b)%Q) (tripStops initial)
  ∧ StronglySorted (fun a b => (stopOrder a <= stopOrder b)%Q)
      (tripStops
         (foldl (act sampleParseFloat samplePrint) initial
            [Fetch 42 tripDelivered; Clear; Fetch 43 tripDelivered])).
Proof.
  assert (Hs : StronglySorted (fun a b => (stopOrder a <= stopOrder b)%Q)
                 (tripStops initial)) by constructor.
  split; [exact Hs |].
  exact (proj1 (tripStops_stay_sorted sampleParseFloat samplePrint
                  [Fetch 42 tripDelivered; Clear; Fetch 43 tripDelivered]
                  initial Hs)).
Defined.

(** Trip 42 is asked for, then trip 43; the request for 42 fails on a null
    row and the request for 43 then returns two stops: the hook shows the
    stops of trip 43 under the error of trip 42. *)
Example overlapping_calls_leave_stops_and_error :
  let final :=
    foldl (step sampleParseFloat samplePrint) initial
      [Started 42; Started 43; Settled tripNullRow; Settled tripDelivered] in
  length (tripStops final) = 2%nat
  ∧ error final = Some "Cannot read properties of null (reading 'latitude')"
  ∧ activeTripID final = Some 43.
Proof. vm_compute. repeat split. Qed.

End UseTripStopsExamples.

(** ** hooks/useRoutedPath.ts: chunks, requests and the seam *)

Section RoutedPathMore.
Import JS RoutedPath.

(** A range with a successor is full, the successor starts two before its
    end and reaches beyond it. *)
Lemma chunkRanges_next (n i : nat) :
  ∀ (j s e s' e' : nat),
    chunkRanges n i !! j = Some (s, e) →
    chunkRanges n i !! S j = Some (s', e') →
    s' = (e - CHUNK_OVERLAP)%nat ∧ e = (s + MAX_WAYPOINTS)%nat
    ∧ (e < e' ≤ n)%nat.
Proof.
  funelim (chunkRanges n i); intros j s e s' e' Hj Hj'.
  - discriminate.
  - destruct j; discriminate.
  - destruct j as [|j].
    + simpl in Hj, Hj'. inversion Hj; subst s e. clear Hj.
      destruct (chunkRanges_head n
                  (Nat.min (i + MAX_WAYPOINTS) n - CHUNK_OVERLAP)) as [rest Hr].
      { unfold MAX_WAYPOINTS, CHUNK_OVERLAP in *. lia. }
      rewrite Hr in Hj'. simpl in Hj'. inversion Hj'; subst.
      unfold MAX_WAYPOINTS, CHUNK_OVERLAP in *. lia.
    + simpl in Hj, Hj'. eauto.
Qed.

Lemma chunkRanges_cover (n i : nat) :
  ∀ idx, (i ≤ idx < n)%nat →
         ∃ r, r ∈ chunkRanges n i ∧ (r.1 ≤ idx < r.2)%nat.
Proof.
  funelim (chunkRanges n i); intros idx Hidx.
  - lia.
  - eexists. split; [left |]. simpl. lia.
  - destruct (decide (idx < Nat.min (i + MAX_WAYPOINTS) n)%nat) as [Hlt | Hge].
    + eexists. split; [left |]. simpl. lia.
    + destruct (H idx) as (r & Hr & Hin).
      { unfold MAX_WAYPOINTS, CHUNK_OVERLAP in *. lia. }
      exists r. split; [right; exact Hr | exact Hin].
Qed.

Lemma chunkRanges_count (n i : nat) :
  (i + 2 < n)%nat →
  length (chunkRanges n i) = ((n - i - 2 + 77) / 78)%nat.
Proof.
  funelim (chunkRanges n i); intros Hi.
  - lia.
  - cbn [length]. unfold MAX_WAYPOINTS in *.
    apply (Nat.div_unique _ 78 1 (n - i - 2 + 77 - 78)); lia.
  - cbn [length]. unfold MAX_WAYPOINTS, CHUNK_OVERLAP in *.
    rewrite H by lia.
    replace (Nat.min (i + 80) n) with (i + 80)%nat by lia.
    replace (n - i - 2 + 77)%nat with (n - (i + 80 - 2) - 2 + 77 + 1 * 78)%nat
      by lia.
    rewrite Nat.div_add by lia. lia.
Qed.

(** Every waypoint is sent to the routing service: each index of the list
    lies in one of the chunks.  Two chunks in a row share exactly
    [CHUNK_OVERLAP] = 2 waypoints, the last two of the one being the first
    two of the next.  The number of requests is the least that covers the
    list with steps of 78. *)
Theorem chunks_cover_and_share (waypoints : list coord) :
  (MAX_WAYPOINTS < length waypoints)%nat →
  let n := length waypoints in
  (∀ idx, (idx < n)%nat →
     ∃ r, r ∈ chunkRanges n 0 ∧ (r.1 ≤ idx < r.2)%nat)
  ∧ (∀ j c c',
       chunksOf waypoints !! j = Some c → chunksOf waypoints !! S j = Some c' →
       drop (length c - CHUNK_OVERLAP) c = take CHUNK_OVERLAP c'
       ∧ length (take CHUNK_OVERLAP c') = CHUNK_OVERLAP)
  ∧ length (chunksOf waypoints) = ((n - 2 + 77) / 78)%nat.
Proof.
  intros Hn n. split; [| split].
  - intros idx Hidx. apply chunkRanges_cover. lia.
  - intros j c c' Hj Hj'. unfold chunksOf in Hj, Hj'. fold n in Hj, Hj'.
    rewrite list_lookup_fmap in Hj, Hj'.
    destruct (chunkRanges n 0 !! j) as [[s e]|] eqn:Hr; [| discriminate].
    destruct (chunkRanges n 0 !! S j) as [[s' e']|] eqn:Hr'; [| discriminate].
    simpl in Hj, Hj'. inversion Hj; subst c. inversion Hj'; subst c'.
    destruct (chunkRanges_next n 0 j s e s' e' Hr Hr') as (Hs' & He & He').
    unfold MAX_WAYPOINTS, CHUNK_OVERLAP in *. subst s' e.
    rewrite length_slice by (fold n; lia).
    unfold slice.
    replace (s + 80 - s)%nat with 80%nat by lia.
    replace (80 - 2)%nat with 78%nat by lia.
    rewrite take_take, length_take, length_drop. fold n.
    replace (Nat.min 2 (e' - (s + 80 - 2)))%nat with 2%nat by lia.
    split; [| lia].
    rewrite skipn_firstn_comm, drop_drop.
    replace (80 - 78)%nat with 2%nat by lia. f_equal. f_equal. lia.
  - unfold chunksOf. rewrite length_fmap. fold n.
    rewrite chunkRanges_count by (unfold MAX_WAYPOINTS in *; lia).
    f_equal. lia.
Qed.

Section Seam.
Variable near : coord → coord → bool.

(** The scan returns the index after the last scanned point that is near
    [lastPt], or leaves [startIdx] alone when there is none. *)
Lemma scan_spec (lastPt : coord) (pts : list coord) : ∀ j startIdx,
  (startIdx ≤ j)%nat →
  let k := scan near lastPt pts j startIdx in
  (startIdx ≤ k ≤ j + length pts)%nat
  ∧ (∀ i p, pts !! i = Some p → (k ≤ j + i)%nat → near p lastPt = false)
  ∧ ((startIdx < k)%nat →
     ∃ p, pts !! (k - 1 - j)%nat = Some p ∧ near p lastPt = true
          ∧ (j < k)%nat).
Proof.
  induction pts as [|p rest IH]; intros j startIdx Hs k.
  - unfold k. simpl. split; [lia |]. split; [intros i q Hq; discriminate | lia].
  - unfold k. simpl. destruct (near p lastPt) eqn:Hp.
    + destruct (IH (S j) (S j)) as (Hb & Hnone & Hlast); [lia |].
      split; [simpl in *; lia |]. split.
      * intros i q Hq Hk. destruct i as [|i]; [simpl in *; lia |].
        simpl in Hq. apply (Hnone i q Hq). lia.
      * intros _.
        destruct (decide (S j < scan near lastPt rest (S j) (S j))%nat)
          as [Hmore | Hnomore].
        -- destruct (Hlast Hmore) as (q & Hq & Hnq & Hj').
           exists q. split; [| split; [exact Hnq | lia]].
           replace (scan near lastPt rest (S j) (S j) - 1 - j)%nat
             with (S (scan near lastPt rest (S j) (S j) - 1 - S j)) by lia.
           exact Hq.
        -- assert (Heq : scan near lastPt rest (S j) (S j) = S j) by lia.
           rewrite Heq. exists p.
           replace (S j - 1 - j)%nat with 0%nat by lia.
           split; [reflexivity | split; [exact Hp | lia]].
    + destruct (IH (S j) startIdx) as (Hb & Hnone & Hlast); [lia |].
      split; [simpl in *; lia |]. split.
      * intros i q Hq Hk. destruct i as [|i].
        -- simpl in Hq. inversion Hq; subst. exact Hp.
        -- simpl in Hq. apply (Hnone i q Hq). lia.
      * intros Hmore. destruct (Hlast Hmore) as (q & Hq & Hnq & Hj').
        exists q. split; [| split; [exact Hnq | lia]].
        replace (scan near lastPt rest (S j) startIdx - 1 - j)%nat
          with (S (scan near lastPt rest (S j) startIdx - 1 - S j)) by lia.
        exact Hq.
Qed.

Lemma stitchOne_spec (stitched r : list coord) (lastPt : coord) :
  last stitched = Some lastPt →
  ∃ k, stitchOne near stitched r = Ok (stitched ++ drop k r)
       ∧ (k ≤ 50)%nat ∧ (k ≤ length r)%nat
       ∧ (∀ i p, r !! i = Some p → (k ≤ i < 50)%nat → near p lastPt = false)
       ∧ ((0 < k)%nat → ∃ p, r !! (k - 1)%nat = Some p ∧ near p lastPt = true).
Proof.
  intros Hlast. unfold stitchOne. rewrite Hlast.
  destruct (scan_spec lastPt (take 50 r) 0 0 (Nat.le_refl 0))
    as (Hb & Hnone & Hsome).
  set (k := scan near lastPt (take 50 r) 0 0) in *.
  rewrite length_take in Hb.
  exists k. split; [reflexivity |]. split; [lia |]. split; [lia |]. split.
  - intros i p Hp Hi. apply (Hnone i p); [| lia].
    rewrite lookup_take_lt by lia. exact Hp.
  - intros Hk. destruct (Hsome Hk) as (p & Hp & Hnp & _).
    exists p. split; [| exact Hnp].
    rewrite Nat.sub_0_r in Hp.
    apply lookup_take_Some in Hp as [Hp _]. exact Hp.
Qed.

(** Joining a geometry to a non-empty path keeps the path and appends a
    suffix of the geometry.  At most the first 50 points are dropped; the
    drop ends with the last of them that is near the end of the path, so
    none of the first 50 points that stay is near it, and nothing is
    dropped when none of them is. *)
Theorem stitchOne_drops_overlap
    (stitched r : list coord) (lastPt : coord) :
  last stitched = Some lastPt →
  ∃ k, stitchOne near stitched r = Ok (stitched ++ drop k r)
       ∧ (k ≤ 50)%nat ∧ (k ≤ length r)%nat
       ∧ (∀ i p, r !! i = Some p → (k ≤ i < 50)%nat → near p lastPt = false)
       ∧ ((0 < k)%nat → ∃ p, r !! (k - 1)%nat = Some p ∧ near p lastPt = true).
Proof. apply stitchOne_spec. Qed.

Lemma stitchFrom_nonempty (results : list (list coord)) :
  ∀ stitched, stitched ≠ [] →
    ∃ path, stitchFrom near stitched (Points <$> results) = Ok path
            ∧ stitched `prefix_of` path.
Proof.
  induction results as [|r rest IH]; intros stitched Hne.
  - exists stitched. split; reflexivity.
  - simpl. destruct (last stitched) as [lastPt|] eqn:Hlast.
    + destruct (stitchOne_spec stitched r lastPt Hlast)
        as (k & Hone & _).
      rewrite Hone.
      destruct (IH (stitched ++ drop k r)) as (path & Hp & Hpre).
      { destruct stitched; [contradiction | discriminate]. }
      exists path. split; [exact Hp |].
      etransitivity; [apply prefix_app_r; reflexivity | exact Hpre].
    + apply last_None in Hlast. contradiction.
Qed.

Lemma requestAll_succeeds (osrm : service) (chunks : list (list coord)) :
  ∀ k,
    (∀ j chunk, chunks !! j = Some chunk →
                returnsPoints (osrm (k + j)%nat chunk) = true) →
    ∃ results, requestAll osrm k chunks = Ok (Points <$> results)
               ∧ length results = length chunks
               ∧ ∀ j chunk, chunks !! j = Some chunk →
                   (λ g, Ok (Points g)) <$> results !! j
                   = Some (fetchOSRMRoute (osrm (k + j)%nat chunk)).
Proof.
  induction chunks as [|c rest IH]; intros k Hall.
  - exists []. repeat split. intros j chunk Hj. discriminate.
  - simpl. pose proof (Hall 0%nat c eq_refl) as H0. unfold returnsPoints in H0.
    rewrite Nat.add_0_r in H0.
    destruct (fetchOSRMRoute (osrm k c)) as [[g|]|] eqn:Hg; try discriminate.
    destruct (IH (S k)) as (results & Hr & Hlen & Hres).
    { intros j chunk Hj. rewrite Nat.add_succ_comm. apply (Hall (S j)). exact Hj. }
    rewrite Hr. exists (g :: results). split; [reflexivity |].
    split; [simpl; lia |].
    intros j chunk Hj. destruct j as [|j].
    + simpl in *. inversion Hj; subst. rewrite Nat.add_0_r, Hg. reflexivity.
    + simpl in *. rewrite <- Nat.add_succ_comm. apply Hres. exact Hj.
Qed.

(** When every request of a run returns an array of points and the first
    one returns a non-empty one, the run does not fall back: the routed
    path starts with that first geometry (and is exactly it when a single
    request suffices), nothing is written to the console and [loading]
    ends. *)
Theorem routing_success_keeps_geometry
    (osrm : service) (tripStops : list TripStops.TripStop) (st : State)
    (first : list coord) :
  (2 ≤ length tripStops)%nat →
  (∀ j chunk, requestsFor (waypointsOf tripStops) !! j = Some chunk →
              returnsPoints (osrm j chunk) = true) →
  (∀ chunk, requestsFor (waypointsOf tripStops) !! 0%nat = Some chunk →
            fetchOSRMRoute (osrm 0%nat chunk) = Ok (Points first)) →
  first ≠ [] →
  let st' := effect near osrm false tripStops st in
  (∃ path, routedPath st' = Points path ∧ first `prefix_of` path)
  ∧ ((length tripStops ≤ MAX_WAYPOINTS)%nat → routedPath st' = Points first)
  ∧ warnings st' = warnings st
  ∧ loading st' = false.
Proof.
  intros Hlen Hall Hfirst Hne st'. unfold st', effect.
  destruct (length tripStops <? 2)%nat eqn:Hlt;
    [apply Nat.ltb_lt in Hlt; lia |].
  unfold requestsFor in Hall, Hfirst. unfold fetchChunkedRoute.
  assert (Hwl : length (waypointsOf tripStops) = length tripStops)
    by (unfold waypointsOf; apply length_fmap).
  destruct (length (waypointsOf tripStops) <=? MAX_WAYPOINTS)%nat eqn:Hle.
  - rewrite (Hfirst _ eq_refl). simpl.
    split; [exists first; split; reflexivity | repeat split].
  - apply Nat.leb_gt in Hle.
    destruct (requestAll_succeeds osrm (chunksOf (waypointsOf tripStops)) 0)
      as (results & Hr & Hlenr & Hres).
    { intros j chunk Hj. apply Hall. exact Hj. }
    destruct (chunkRanges_head (length (waypointsOf tripStops)) 0) as [rest Hhead];
      [unfold MAX_WAYPOINTS in *; lia |].
    assert (Hc0 : ∃ c0, chunksOf (waypointsOf tripStops) !! 0%nat = Some c0).
    { unfold chunksOf. rewrite Hhead. simpl. eauto. }
    destruct Hc0 as [c0 Hc0].
    pose proof (Hres 0%nat c0 Hc0) as Hg0. simpl in Hg0.
    rewrite (Hfirst c0 Hc0) in Hg0.
    destruct results as [|g0 others]; [discriminate |].
    simpl in Hg0. inversion Hg0; subst g0.
    rewrite fmap_cons in Hr. rewrite Hr.
    destruct (stitchFrom_nonempty others first Hne) as (path & Hp & Hpre).
    rewrite Hp. simpl.
    split; [exists path; split; [reflexivity | exact Hpre] |].
    split; [intros Hsmall; unfold MAX_WAYPOINTS in *; lia |].
    split; reflexivity.
Qed.

End Seam.

End RoutedPathMore.

Section RoutedPathExamples.
Import JS RoutedPath Samples.

Lemma chunks_cover_and_share_witness :
  (MAX_WAYPOINTS < length waypoints150)%nat
  ∧ length (chunksOf waypoints150)
    = ((length waypoints150 - 2 + 77) / 78)%nat.
Proof.
  assert (Hn : (MAX_WAYPOINTS < length waypoints150)%nat)
    by (vm_compute; lia).
  split; [exact Hn |].
  exact (proj2 (proj2 (chunks_cover_and_share waypoints150 Hn))).
Defined.

Lemma stitchOne_drops_overlap_witness :
  last [origin] = Some origin
  ∧ ∃ k, stitchOne neverNear [origin] [origin; origin]
         = Ok ([origin] ++ drop k [origin; origin])
         ∧ (k ≤ 50)%nat ∧ (k ≤ length [origin; origin])%nat
         ∧ (∀ i p, [origin; origin] !! i = Some p → (k ≤ i < 50)%nat →
                   neverNear p origin = false)
         ∧ ((0 < k)%nat →
            ∃ p, [origin; origin] !! (k - 1)%nat = Some p
                 ∧ neverNear p origin = true).
Proof.
  split; [reflexivity |].
  exact (stitchOne_drops_overlap neverNear [origin] [origin; origin] origin
           eq_refl).
Defined.

Lemma echoService_answers (k : nat) (chunk : list coord) :
  fetchOSRMRoute (echoService k chunk) = Ok (Points chunk).
Proof. reflexivity. Qed.

Lemma routing_success_keeps_geometry_witness :
  (2 ≤ length twoStops)%nat
  ∧ routedPath (effect neverNear echoService false twoStops idle)
    = Points (waypointsOf twoStops).
Proof.
  assert (Hlen : (2 ≤ length twoStops)%nat) by (simpl; lia).
  split; [exact Hlen |].
  assert (Hall : ∀ j chunk,
             requestsFor (waypointsOf twoStops) !! j = Some chunk →
             returnsPoints (echoService j chunk) = true).
  { intros j chunk _. unfold returnsPoints. rewrite echoService_answers.
    reflexivity. }
  assert (Hfirst : ∀ chunk,
             requestsFor (waypointsOf twoStops) !! 0%nat = Some chunk →
             fetchOSRMRoute (echoService 0%nat chunk)
             = Ok (Points (waypointsOf twoStops))).
  { intros chunk Hc. rewrite echoService_answers.
    simpl in Hc. inversion Hc. reflexivity. }
  assert (Hne : waypointsOf twoStops ≠ []) by discriminate.
  apply (proj1 (proj2 (routing_success_keeps_geometry neverNear echoService
                         twoStops idle (waypointsOf twoStops)
                         Hlen Hall Hfirst Hne))).
  simpl. unfold MAX_WAYPOINTS. lia.
Defined.

End RoutedPathExamples.

(** ** components/VehicleLayer.ts: smoothing and the tracker *)

Section SmoothingFacts.
Import VehicleLayer.

(** The normalised difference is [target - current] after some rounds of
    one of the two loops, never of both: so many times [2 * Math.PI]
    subtracted, or so many times added, each time rounded.  It is
    [target - current] itself, for any fuel, when that is neither above
    [Math.PI] nor below [-Math.PI]; and there is none when the difference is
    beyond half a turn and a whole turn does not change it. *)
Theorem angleDelta_rounded_turns (fuel : nat) (target current : float) :
  let d := (target - current)%float in
  (∀ r : float, angleDelta fuel target current = Some r →
     ∃ k : nat, (k ≤ fuel)%nat
       ∧ (r = Nat.iter k (λ x, x - 2 * MathPI)%float d
          ∨ r = Nat.iter k (λ x, x + 2 * MathPI)%float d))
  ∧ ((MathPI <? d)%float = false → (d <? - MathPI)%float = false →
     angleDelta fuel target current = Some d)
  ∧ ((MathPI <? d)%float = true → (d - 2 * MathPI)%float = d →
     angleDelta fuel target current = None)
  ∧ ((d <? - MathPI)%float = true → (d + 2 * MathPI)%float = d →
     angleDelta fuel target current = None).
Proof.
  cbv zeta. split; [intros r; apply angleDelta_trace |].
  unfold angleDelta. split; [| split].
  - intros Ha Hb. rewrite (whileAbove_idle _ _ Ha). cbn [mbind option_bind].
    exact (whileBelow_idle _ _ Hb).
  - intros Ha Hs. rewrite (whileAbove_absorbed _ Ha Hs). reflexivity.
  - intros Hb Hs. rewrite (whileAbove_idle _ _ (below_not_above _ Hb)).
    cbn [mbind option_bind]. exact (whileBelow_absorbed _ Hb Hs fuel).
Qed.

(** A hundred radians take sixteen rounds; each subtraction is rounded, and
    the result differs in its last digits from [100 - 32 * Math.PI] computed
    in one step. *)
Example angleDelta_of_hundred :
  angleDelta 16 100 0
  = Some (Nat.iter 16 (λ x, x - 2 * MathPI)%float 100%float)
  ∧ Nat.iter 16 (λ x, x - 2 * MathPI)%float 100%float
    ≠ (100 - 32 * MathPI)%float
  ∧ angleDelta 15 100 0 = None.
Proof.
  split; [vm_compute; reflexivity |].
  split; [vm_compute; discriminate | vm_compute; reflexivity].
Qed.

(** The magnitude of the difference does not depend on the order of the
    two angles. *)
Theorem angleDiff_symmetric (fuel fuel' : nat) (a b m m' : float) :
  angleDiff fuel a b = Some m →
  angleDiff fuel' b a = Some m' →
  m = m'.
Proof. apply angleDiff_order. Qed.

Lemma angleDiff_symmetric_witness :
  angleDiff 1 0 MathPI = Some MathPI ∧ angleDiff 1 MathPI 0 = Some MathPI
  ∧ MathPI = MathPI.
Proof.
  assert (H1 : angleDiff 1 0 MathPI = Some MathPI) by (vm_compute; reflexivity).
  assert (H2 : angleDiff 1 MathPI 0 = Some MathPI) by (vm_compute; reflexivity).
  split; [exact H1 |]. split; [exact H2 |].
  exact (angleDiff_symmetric 1 1 0 MathPI MathPI MathPI H1 H2).
Defined.

Lemma turnStep_spec (fuel : nat) (targetHeading rotationY dt step : float) :
  (0 <=? dt)%float = true →
  turnStep fuel targetHeading rotationY dt = Some step →
  let maxStep := (MAX_TURN_RATE * dt)%float in
  (PrimFloat.is_nan step = true
   ∨ ((- maxStep <=? step)%float = true ∧ (step <=? maxStep)%float = true))
  ∧ ∃ delta : float,
      angleDelta fuel targetHeading rotationY = Some delta
      ∧ (PrimFloat.is_nan step = true
         ∨ step = (delta * Math_min 1 (dt * TURN_SMOOTHING))%float
         ∨ step = (- maxStep)%float ∨ step = maxStep).
Proof.
  intros Hdt He. unfold turnStep in He.
  destruct (angleDelta fuel targetHeading rotationY) as [delta|] eqn:Hd;
    [| discriminate].
  cbn [mbind option_bind] in He. cbv zeta in He. inversion He as [Hs]. clear He.
  cbv zeta. set (maxStep := (MAX_TURN_RATE * dt)%float) in *.
  set (desired := (delta * Math_min 1 (dt * TURN_SMOOTHING))%float) in *.
  assert (Hrate : (0 <? MAX_TURN_RATE)%float = true) by (vm_compute; reflexivity).
  destruct (mul_nonneg MAX_TURN_RATE dt Hrate Hdt) as [Hnan | Hpos];
    fold maxStep in Hnan || fold maxStep in Hpos.
  - assert (Hc : clamp desired (- maxStep) maxStep = PrimFloat.nan).
    { unfold clamp. apply Math_max_nan. left. rewrite is_nan_opp. exact Hnan. }
    rewrite Hc. split; [left; reflexivity |].
    exists delta. split; [reflexivity |]. left. reflexivity.
  - destruct (clamp_spec desired _ _ (opp_leb_self _ Hpos))
      as [[_ ->] | (_ & Hval & Hlo & Hhi)].
    + split; [left; reflexivity |].
      exists delta. split; [reflexivity |]. left. reflexivity.
    + split; [right; split; assumption |].
      exists delta. split; [reflexivity |]. right. exact Hval.
Qed.

(** One render tick of a time step that is not negative.  When the target
    and the rotation differ by at most two turns, the tick computes a turn.
    A computed turn is [NaN] or at most the maximum turn rate times the time
    step, either way; it is [NaN], the smoothed share of the normalised
    difference, or one of the two bounds. *)
Theorem turnStep_bounded (targetHeading rotationY dt : float) :
  (0 <=? dt)%float = true →
  ((- (4 * MathPI) <=? targetHeading - rotationY)%float = true →
   (targetHeading - rotationY <=? 4 * MathPI)%float = true →
   ∃ step : float, ∀ fuel : nat, (2 ≤ fuel)%nat →
     turnStep fuel targetHeading rotationY dt = Some step)
  ∧ ∀ (fuel : nat) (step : float),
      turnStep fuel targetHeading rotationY dt = Some step →
      let maxStep := (MAX_TURN_RATE * dt)%float in
      (PrimFloat.is_nan step = true
       ∨ ((- maxStep <=? step)%float = true ∧ (step <=? maxStep)%float = true))
      ∧ ∃ delta : float,
          angleDelta fuel targetHeading rotationY = Some delta
          ∧ (PrimFloat.is_nan step = true
             ∨ step = (delta * Math_min 1 (dt * TURN_SMOOTHING))%float
             ∨ step = (- maxStep)%float ∨ step = maxStep).
Proof.
  intros Hdt. split.
  - intros Hlo Hhi.
    destruct (angleDelta_two_turns _ _ Hlo Hhi) as (delta & Hd & _).
    eexists. intros fuel Hf. unfold turnStep.
    rewrite (angleDelta_more 2 fuel _ _ _ Hf Hd). reflexivity.
  - intros fuel step. apply turnStep_spec. exact Hdt.
Qed.

Lemma turnStep_bounded_witness :
  (0 <=? (1 / 60))%float = true
  ∧ ∃ step : float, ∀ fuel : nat, (2 ≤ fuel)%nat →
      turnStep fuel MathPI 0 (1 / 60) = Some step.
Proof.
  assert (Hdt : (0 <=? (1 / 60))%float = true) by reflexivity.
  split; [exact Hdt |].
  apply (proj1 (turnStep_bounded MathPI 0 (1 / 60) Hdt)); reflexivity.
Defined.

(** Half a turn to go and the time step of a first frame, a sixtieth of a
    second: the turn is the bound, the maximum turn rate times the time
    step. *)
Example turnStep_one_frame :
  turnStep 1 MathPI 0 (1 / 60) = Some (MAX_TURN_RATE * (1 / 60))%float.
Proof. vm_compute. reflexivity. Qed.

End SmoothingFacts.

Section TrackerMore.
Import JS Types VehicleLayer.
Context {num : Type}.
Variables (zero two : num).
Variables (sub : num → num → num) (neg : num → num).
Variables (hypot atan2 : num → num → num).
Variable gtb : num → num → bool.
Variable toLocal : number → number → num * num.

Abbreviation visit' := (visit zero two sub neg hypot atan2 gtb toLocal).
Abbreviation updateVehicles' :=
  (updateVehicles zero two sub neg hypot atan2 gtb toLocal).
Abbreviation moved' := (moved two sub hypot gtb).

Lemma lookup_filter_key `{Countable K} {A : Type}
    (X : gset K) (m : gmap K A) (k : K) :
  k ∈ X → filter (λ kv, kv.1 ∈ X) m !! k = m !! k.
Proof.
  intros Hk. apply option_eq. intros a. rewrite map_lookup_filter_Some.
  simpl. naive_solver.
Qed.

Lemma visit_tracker_frame (orc : RoadOracle num) (st : Layer num)
    (v : Vehicle) (k : field Z) :
  k ≠ vehicleID v →
  headingTracker (visit' orc st v) !! k = headingTracker st !! k.
Proof.
  intros Hk. unfold visit.
  destruct (toLocal (longitude v) (latitude v)) as [lx lz].
  destruct (headingTracker st !! vehicleID v) as [t|]; simpl.
  - destruct (orc _ _ _ _) as [rm|]; [| destruct (moved _ _ _ _ _ _ _)];
      simpl; rewrite ?lookup_insert_ne by congruence; reflexivity.
  - destruct (orc _ _ _ _) as [rm|]; simpl;
      rewrite lookup_insert_ne by congruence; reflexivity.
Qed.

Lemma visit_target_frame (orc : RoadOracle num) (st : Layer num)
    (v : Vehicle) (key : string) :
  key ≠ id v →
  targetHeading (visit' orc st v) !! key = targetHeading st !! key.
Proof.
  intros Hk. unfold visit.
  destruct (toLocal (longitude v) (latitude v)) as [lx lz].
  destruct (headingTracker st !! vehicleID v) as [t|]; simpl.
  - destruct (orc _ _ _ _) as [rm|]; [| destruct (moved _ _ _ _ _ _ _)];
      simpl; rewrite lookup_insert_ne by congruence; reflexivity.
  - destruct (orc _ _ _ _) as [rm|]; simpl;
      rewrite lookup_insert_ne by congruence; reflexivity.
Qed.

(** What a visit leaves under the vehicle's physical id depends on the
    tracker only through the entry under that id. *)
Lemma visit_local (orc : RoadOracle num) (st1 st2 : Layer num) (v : Vehicle) :
  headingTracker st1 !! vehicleID v = headingTracker st2 !! vehicleID v →
  headingTracker (visit' orc st1 v) !! vehicleID v
  = headingTracker (visit' orc st2 v) !! vehicleID v.
Proof.
  intros He. unfold visit.
  destruct (toLocal (longitude v) (latitude v)) as [lx lz].
  destruct (headingTracker st2 !! vehicleID v) as [t|] eqn:E2;
    rewrite He; simpl.
  - destruct (orc _ _ _ _) as [rm|]; [| destruct (moved _ _ _ _ _ _ _)];
      simpl; rewrite ?lookup_insert_eq; congruence.
  - destruct (orc _ _ _ _) as [rm|]; simpl; rewrite !lookup_insert_eq;
      reflexivity.
Qed.

(** After a visit the group of the vehicle aims at the heading stored under
    the vehicle's physical id. *)
Lemma visit_target (orc : RoadOracle num) (st : Layer num) (v : Vehicle) :
  ∃ t, headingTracker (visit' orc st v) !! vehicleID v = Some t
       ∧ targetHeading (visit' orc st v) !! id v = Some (heading t).
Proof.
  unfold visit. destruct (toLocal (longitude v) (latitude v)) as [lx lz].
  destruct (headingTracker st !! vehicleID v) as [t|] eqn:Et; simpl.
  - destruct (orc _ _ _ _) as [rm|]; [| destruct (moved _ _ _ _ _ _ _)];
      simpl; rewrite ?lookup_insert_eq; eauto.
  - destruct (orc _ _ _ _) as [rm|]; simpl; rewrite !lookup_insert_eq; eauto.
Qed.

Lemma foldl_tracker_frame (orc : RoadOracle num) (vehicles : list Vehicle)
    (k : field Z) :
  k ∉ vehicleID <$> vehicles →
  ∀ st, headingTracker (foldl (visit' orc) st vehicles) !! k
        = headingTracker st !! k.
Proof.
  induction vehicles as [|v rest IH]; intros Hk st; simpl; [reflexivity |].
  rewrite fmap_cons, not_elem_of_cons in Hk. destruct Hk as [Hv Hrest].
  rewrite (IH Hrest). apply visit_tracker_frame. exact Hv.
Qed.

Lemma foldl_target_frame (orc : RoadOracle num) (vehicles : list Vehicle)
    (key : string) :
  key ∉ id <$> vehicles →
  ∀ st, targetHeading (foldl (visit' orc) st vehicles) !! key
        = targetHeading st !! key.
Proof.
  induction vehicles as [|v rest IH]; intros Hk st; simpl; [reflexivity |].
  rewrite fmap_cons, not_elem_of_cons in Hk. destruct Hk as [Hv Hrest].
  rewrite (IH Hrest). apply visit_target_frame. exact Hv.
Qed.

Lemma foldl_target_dom (orc : RoadOracle num) (vehicles : list Vehicle) :
  ∀ st : Layer num,
    dom (targetHeading (foldl (visit' orc) st vehicles))
    = list_to_set (id <$> vehicles) ∪ dom (targetHeading st).
Proof.
  induction vehicles as [|v rest IH]; intros st; simpl.
  - set_solver.
  - rewrite IH.
    assert (Hv : dom (targetHeading (visit' orc st v))
                 = {[ id v ]} ∪ dom (targetHeading st)).
    { unfold visit. destruct (toLocal (longitude v) (latitude v)) as [lx lz].
      destruct (headingTracker st !! vehicleID v) as [t|]; simpl.
      - destruct (orc _ _ _ _) as [rm|]; [| destruct (moved _ _ _ _ _ _ _)];
          simpl; rewrite dom_insert_L; reflexivity.
      - destruct (orc _ _ _ _) as [rm|]; simpl; rewrite dom_insert_L;
          reflexivity. }
    rewrite Hv. set_solver.
Qed.

(** The heading state that an update leaves for a vehicle is the one the
    update of that vehicle alone would leave: the other vehicles of the
    list, whose physical ids differ, have no influence on it. *)
Theorem heading_state_independent
    (orc : RoadOracle num) (st : Layer num)
    (before after : list Vehicle) (v : Vehicle) :
  vehicleID v ∉ vehicleID <$> (before ++ after) →
  headingTracker (updateVehicles' orc st (before ++ v :: after)) !! vehicleID v
  = headingTracker (updateVehicles' orc st [v]) !! vehicleID v.
Proof.
  intros Hother. rewrite fmap_app, not_elem_of_app in Hother.
  destruct Hother as [Hb Ha].
  unfold updateVehicles. cbn [headingTracker].
  rewrite !lookup_filter_key.
  - rewrite foldl_app. cbn [foldl].
    rewrite (foldl_tracker_frame orc after _ Ha).
    apply visit_local. apply (foldl_tracker_frame orc before _ Hb).
  - set_solver.
  - rewrite fmap_app, fmap_cons. set_solver.
Qed.

(** After an update the rendered groups are exactly the composite ids of
    the list, whatever the list.  The group of a vehicle aims at the heading
    tracked for it whenever no later record of the list has the same
    composite id or the same physical id: of the breadcrumbs of one
    physical vehicle, this is the last; and it is every vehicle when no two
    records of the list share a composite id or a physical id. *)
Theorem groups_aim_at_tracked_heading
    (orc : RoadOracle num) (st : Layer num) (vehicles : list Vehicle) :
  let st' := updateVehicles' orc st vehicles in
  dom (targetHeading st') = list_to_set (id <$> vehicles)
  ∧ (∀ before v after,
       vehicles = before ++ v :: after →
       id v ∉ id <$> after →
       vehicleID v ∉ vehicleID <$> after →
       ∃ t, headingTracker st' !! vehicleID v = Some t
            ∧ targetHeading st' !! id v = Some (heading t))
  ∧ (NoDup (id <$> vehicles) → NoDup (vehicleID <$> vehicles) →
     ∀ v, v ∈ vehicles →
       ∃ t, headingTracker st' !! vehicleID v = Some t
            ∧ targetHeading st' !! id v = Some (heading t)).
Proof.
  intros st'.
  assert (Hlast : ∀ before v after,
             vehicles = before ++ v :: after →
             id v ∉ id <$> after →
             vehicleID v ∉ vehicleID <$> after →
             ∃ t, headingTracker st' !! vehicleID v = Some t
                  ∧ targetHeading st' !! id v = Some (heading t)).
  { intros l1 v l2 Hsplit Hid2 Hvid2.
    destruct (visit_target orc (foldl (visit' orc) st l1) v) as (t & Ht & Hh).
    exists t. unfold st', updateVehicles. cbn [headingTracker targetHeading].
    rewrite !lookup_filter_key.
    - rewrite Hsplit, foldl_app. cbn [foldl].
      rewrite (foldl_tracker_frame orc l2 _ Hvid2).
      rewrite (foldl_target_frame orc l2 _ Hid2).
      split; [exact Ht | exact Hh].
    - apply elem_of_list_to_set, list_elem_of_fmap. exists v.
      split; [reflexivity |]. rewrite Hsplit. set_solver.
    - apply elem_of_list_to_set, list_elem_of_fmap. exists v.
      split; [reflexivity |]. rewrite Hsplit. set_solver. }
  split; [| split; [exact Hlast |]].
  - unfold st', updateVehicles. cbn [targetHeading]. apply set_eq. intros k.
    rewrite elem_of_dom. split.
    + intros [t Ht]. apply map_lookup_filter_Some in Ht as [_ Hin]. exact Hin.
    + intros Hin.
      assert (Hk : k ∈ dom (targetHeading (foldl (visit' orc) st vehicles))).
      { rewrite foldl_target_dom. apply elem_of_union_l. exact Hin. }
      apply elem_of_dom in Hk as [t Ht]. exists t.
      apply map_lookup_filter_Some. split; [exact Ht | exact Hin].
  - intros Hid Hvid v Hv.
    destruct (list_elem_of_split _ _ Hv) as (l1 & l2 & Hsplit).
    apply (Hlast l1 v l2 Hsplit).
    + rewrite Hsplit, fmap_app, fmap_cons in Hid.
      apply NoDup_app in Hid as (_ & _ & Hid). apply NoDup_cons in Hid as [Hid _].
      exact Hid.
    + rewrite Hsplit, fmap_app, fmap_cons in Hvid.
      apply NoDup_app in Hvid as (_ & _ & Hvid).
      apply NoDup_cons in Hvid as [Hvid _]. exact Hvid.
Qed.

Lemma foldl_quiet (orc : RoadOracle num) (st : Layer num)
    (vehicles : list Vehicle) :
  (∀ v, v ∈ vehicles →
     ∃ t, headingTracker st !! vehicleID v = Some t
          ∧ moved' (toLocal (longitude v) (latitude v)).1
                   (toLocal (longitude v) (latitude v)).2 t = false
          ∧ orc (longitude v) (latitude v) (Some (heading t)) (roadKey t)
            = None) →
  ∀ acc, headingTracker acc = headingTracker st →
    headingTracker (foldl (visit' orc) acc vehicles) = headingTracker st
    ∧ ∀ key, key ∈ id <$> vehicles →
        ∃ v t, v ∈ vehicles ∧ id v = key
               ∧ headingTracker st !! vehicleID v = Some t
               ∧ targetHeading (foldl (visit' orc) acc vehicles) !! key
                 = Some (heading t).
Proof.
  induction vehicles as [|v rest IH]; intros Hq acc Hacc; simpl.
  - split; [exact Hacc |]. intros key Hk.
    apply elem_of_nil in Hk. contradiction.
  - destruct (Hq v) as (t & Ht & Hm & Ho); [left |].
    assert (Hvisit : visit' orc acc v
                     = {| headingTracker := headingTracker acc;
                          targetHeading :=
                            <[id v := heading t]> (targetHeading acc) |}).
    { unfold visit. rewrite Hacc, Ht.
      destruct (toLocal (longitude v) (latitude v)) as [lx lz].
      simpl in Hm. rewrite Hm. simpl. rewrite Ho. reflexivity. }
    destruct (IH (λ w Hw, Hq w (list_elem_of_further _ _ _ Hw))
                (visit' orc acc v)) as [Htr Htg].
    { rewrite Hvisit. exact Hacc. }
    split; [exact Htr |]. intros key Hk.
    destruct (decide (key ∈ id <$> rest)) as [Hin | Hout].
    + destruct (Htg key Hin) as (w & tw & Hw & Hidw & Htw & Hlook).
      exists w, tw. split; [right; exact Hw |]. eauto.
    + apply elem_of_cons in Hk as [Hk | Hk];
        [| contradiction].
      exists v, t. split; [left |]. split; [symmetry; exact Hk |].
      split; [exact Ht |].
      rewrite (foldl_target_frame orc rest key Hout), Hvisit. simpl.
      rewrite Hk. apply lookup_insert_eq.
Qed.

(** An update in which every vehicle is already tracked, has not moved by
    more than two metres and gets no road match changes no heading state:
    the tracker keeps, unchanged, the entries of the vehicles of the list,
    and every group aims at the heading stored before the update, whatever
    composite id the vehicle now has. *)
Theorem stationary_update_keeps_headings
    (orc : RoadOracle num) (st : Layer num) (vehicles : list Vehicle) :
  (∀ v, v ∈ vehicles →
     ∃ t, headingTracker st !! vehicleID v = Some t
          ∧ moved' (toLocal (longitude v) (latitude v)).1
                   (toLocal (longitude v) (latitude v)).2 t = false
          ∧ orc (longitude v) (latitude v) (Some (heading t)) (roadKey t)
            = None) →
  let st' := updateVehicles' orc st vehicles in
  (∀ v, v ∈ vehicles →
     headingTracker st' !! vehicleID v = headingTracker st !! vehicleID v)
  ∧ ∀ v, v ∈ vehicles →
      ∃ w t, w ∈ vehicles ∧ id w = id v
             ∧ headingTracker st !! vehicleID w = Some t
             ∧ targetHeading st' !! id v = Some (heading t).
Proof.
  intros Hq st'.
  destruct (foldl_quiet orc st vehicles Hq st eq_refl) as [Htr Htg].
  split.
  - intros v Hv. unfold st', updateVehicles. cbn [headingTracker].
    rewrite lookup_filter_key, Htr; [reflexivity |].
    apply elem_of_list_to_set, list_elem_of_fmap. eauto.
  - intros v Hv.
    assert (Hin : id v ∈ id <$> vehicles) by (apply list_elem_of_fmap; eauto).
    destruct (Htg (id v) Hin) as (w & t & Hw & Hidw & Htw & Hlook).
    exists w, t. split; [exact Hw |]. split; [exact Hidw |].
    split; [exact Htw |].
    unfold st', updateVehicles. cbn [targetHeading].
    rewrite lookup_filter_key; [exact Hlook |].
    apply elem_of_list_to_set. exact Hin.
Qed.

End TrackerMore.

Section TrackerExamples.
Import JS Types VehicleLayer Samples.

Lemma heading_state_independent_witness :
  (Val 7 ∉ vehicleID <$> ([] ++ [other_9_1]))
  ∧ headingTracker (blindUpdate emptyLayer ([] ++ earlier_7_3 :: [other_9_1]))
      !! Val 7
    = headingTracker (blindUpdate emptyLayer [earlier_7_3]) !! Val 7.
Proof.
  assert (Hother : vehicleID earlier_7_3 ∉ vehicleID <$> ([] ++ [other_9_1])).
  { simpl. intros Hin. apply list_elem_of_singleton in Hin. discriminate Hin. }
  split; [exact Hother |].
  exact (heading_state_independent 0 2 Z.sub Z.opp (λ a b, Z.abs a + Z.abs b)
           (λ _ _, 0) Z.gtb (λ _ _, (0, 0)) blindOracle emptyLayer
           [] [other_9_1] earlier_7_3 Hother).
Defined.

(** Two breadcrumbs of vehicle 7 in one list: both groups are rendered,
    and the group of the later one aims at the heading tracked for 7. *)
Lemma groups_aim_at_tracked_heading_witness :
  dom (targetHeading (blindUpdate emptyLayer [earlier_7_3; later_7_4]))
  = list_to_set (id <$> [earlier_7_3; later_7_4])
  ∧ ∃ t, headingTracker (blindUpdate emptyLayer [earlier_7_3; later_7_4])
           !! Val 7 = Some t
         ∧ targetHeading (blindUpdate emptyLayer [earlier_7_3; later_7_4])
             !! "7-4" = Some (heading t).
Proof.
  destruct (groups_aim_at_tracked_heading 0 2 Z.sub Z.opp
              (λ a b, Z.abs a + Z.abs b) (λ _ _, 0) Z.gtb (λ _ _, (0, 0))
              blindOracle emptyLayer [earlier_7_3; later_7_4])
    as (Hdom & Hlast & _).
  split; [exact Hdom |].
  apply (Hlast [earlier_7_3] later_7_4 []); [reflexivity | |];
    simpl; apply not_elem_of_nil.
Defined.

Lemma stationary_update_keeps_headings_witness :
  (∀ v, v ∈ [later_7_4] →
     ∃ t, headingTracker seen_7_3 !! vehicleID v = Some t
          ∧ moved 2 Z.sub (λ a b, Z.abs a + Z.abs b) Z.gtb
              ((λ _ _ : number, (0, 0)) (longitude v) (latitude v)).1
              ((λ _ _ : number, (0, 0)) (longitude v) (latitude v)).2 t = false
          ∧ blindOracle (longitude v) (latitude v) (Some (heading t)) (roadKey t)
            = None)
  ∧ headingTracker (blindUpdate seen_7_3 [later_7_4]) !! Val 7
    = headingTracker seen_7_3 !! Val 7.
Proof.
  assert (Hq : ∀ v, v ∈ [later_7_4] →
     ∃ t, headingTracker seen_7_3 !! vehicleID v = Some t
          ∧ moved 2 Z.sub (λ a b, Z.abs a + Z.abs b) Z.gtb
              ((λ _ _ : number, (0, 0)) (longitude v) (latitude v)).1
              ((λ _ _ : number, (0, 0)) (longitude v) (latitude v)).2 t = false
          ∧ blindOracle (longitude v) (latitude v) (Some (heading t)) (roadKey t)
            = None).
  { intros v Hv. apply list_elem_of_singleton in Hv. subst v.
    exists {| x := 0; z := 0; heading := 0; roadKey := None |}.
    split; [vm_compute; reflexivity |]. split; reflexivity. }
  split; [exact Hq |].
  exact (proj1 (stationary_update_keeps_headings 0 2 Z.sub Z.opp
                  (λ a b, Z.abs a + Z.abs b) (λ _ _, 0) Z.gtb (λ _ _, (0, 0))
                  blindOracle seen_7_3 [later_7_4] Hq)
           later_7_4 (list_elem_of_here _ _)).
Defined.

End TrackerExamples.

(** ** components/VehicleLayer.ts: road matching *)

Section RoadMatchingFacts.
Import VehicleLayer RoadMatching.
Variable toFixed6 : float → string.
Variable project : float → float → float * float.
Variable toLocal : float → float → float * float.
Variable atan2 : float → float → float.

Abbreviation keyOf seg :=
  (segmentKey toFixed6 seg.1.1.1 seg.1.1.2 seg.1.2 seg.2).

(** What is known of a best candidate: its score is a number; it comes
    from one of the segments, whose squared distance, a number, and heading
    penalty make its score; its heading is one of the two directions of the segment
    and lies in the cone around the preferred heading. *)
Abbreviation candidate fuel p preferredHeading stickyRoadKey segs b :=
  (match b with
   | None => True
   | Some c =>
       PrimFloat.is_nan c.1.1 = false
       ∧ ∃ (seg : segment) (d2 headingPenalty : float),
           seg ∈ segs
           ∧ distance2 project p seg = Some d2
           ∧ PrimFloat.is_nan d2 = false
           ∧ c.2 = keyOf seg
           ∧ c.1.1 = scoreOf stickyRoadKey d2 headingPenalty (keyOf seg)
           ∧ (c.1.2 = forwardHeading toLocal atan2 seg
              ∨ c.1.2 = (forwardHeading toLocal atan2 seg + MathPI)%float)
           ∧ (preferredHeading = None →
              c.1.2 = forwardHeading toLocal atan2 seg
              ∧ headingPenalty = 0%float)
           ∧ (∀ preferred, preferredHeading = Some preferred →
                ∃ dev, angleDiff fuel c.1.2 preferred = Some dev
                       ∧ (dev <=? MAX_DIRECTION_CONE)%float = true
                       ∧ headingPenalty = (dev * HEADING_WEIGHT)%float)
   end).

(** The key of a road segment does not depend on the direction in which
    the segment is given. *)
Theorem segmentKey_symmetric (aLng aLat bLng bLat : float) :
  segmentKey toFixed6 aLng aLat bLng bLat
  = segmentKey toFixed6 bLng bLat aLng aLat.
Proof.
  unfold segmentKey.
  set (a := toFixed6 aLng +:+ "," +:+ toFixed6 aLat).
  set (b := toFixed6 bLng +:+ "," +:+ toFixed6 bLat).
  cbv zeta. unfold String.ltb. rewrite (String.compare_antisym b a).
  destruct (String.compare a b) eqn:E; simpl; try reflexivity.
  apply String.compare_eq_iff in E. rewrite E. reflexivity.
Qed.

(** A sum or a product that is a number is made of numbers. *)
Lemma add_not_nan (a b : float) :
  PrimFloat.is_nan (a + b)%float = false →
  PrimFloat.is_nan a = false ∧ PrimFloat.is_nan b = false.
Proof.
  rewrite !not_nan_spec, FloatAxioms.add_spec. unfold SF64add. intros H.
  split; intros E; apply H; rewrite E; [reflexivity |].
  destruct (Prim2SF a); reflexivity.
Qed.

Lemma mul_not_nan (a b : float) :
  PrimFloat.is_nan (a * b)%float = false →
  PrimFloat.is_nan a = false ∧ PrimFloat.is_nan b = false.
Proof.
  rewrite !not_nan_spec, FloatAxioms.mul_spec. unfold SF64mul. intros H.
  split; intros E; apply H; rewrite E; [reflexivity |].
  destruct (Prim2SF a); reflexivity.
Qed.

Lemma scoreOf_not_nan (stickyRoadKey : option string) (d2 headingPenalty : float)
    (roadKey : string) :
  PrimFloat.is_nan (scoreOf stickyRoadKey d2 headingPenalty roadKey) = false →
  PrimFloat.is_nan d2 = false ∧ PrimFloat.is_nan headingPenalty = false.
Proof.
  unfold scoreOf. intros H.
  assert (Hs : PrimFloat.is_nan (d2 + headingPenalty * headingPenalty)%float
               = false).
  { destruct stickyRoadKey as [sticky|]; [| exact H].
    destruct (negb (String.eqb sticky "") && negb (String.eqb roadKey sticky));
      [exact (proj1 (add_not_nan _ _ H)) | exact H]. }
  destruct (add_not_nan _ _ Hs) as [Hd Hp]. split; [exact Hd |].
  exact (proj1 (mul_not_nan _ _ Hp)).
Qed.

Lemma consider_cases (score heading : float) (roadKey : string) (sofar : best) :
  consider score heading roadKey sofar = sofar
  ∨ (consider score heading roadKey sofar = Some (score, heading, roadKey)
     ∧ PrimFloat.is_nan score = false).
Proof.
  unfold consider.
  destruct (score <? _)%float eqn:E; [right | left; reflexivity].
  split; [reflexivity |]. exact (proj1 (ltb_not_nan _ _ E)).
Qed.

Lemma testSegment_sound (fuel : nat) (p : float * float)
    (preferredHeading : option float) (stickyRoadKey : option string)
    (segs : list segment) (sofar b : best) (seg : segment) :
  seg ∈ segs →
  candidate fuel p preferredHeading stickyRoadKey segs sofar →
  testSegment toFixed6 project toLocal atan2 fuel p preferredHeading
    stickyRoadKey sofar seg = Some b →
  candidate fuel p preferredHeading stickyRoadKey segs b.
Proof.
  intros Hin Hsofar He. unfold testSegment in He.
  destruct (distance2 project p seg) as [d2|] eqn:Hd;
    [| inversion He; subst; exact Hsofar].
  destruct seg as [[[aLng aLat] bLng] bLat].
  cbv beta iota zeta in He.
  set (hF := forwardHeading toLocal atan2 (aLng, aLat, bLng, bLat)) in *.
  set (key := segmentKey toFixed6 aLng aLat bLng bLat) in *.
  destruct preferredHeading as [preferred|].
  - destruct (angleDiff fuel hF preferred) as [forwardDiff|] eqn:Hf;
      [| discriminate].
    cbn [mbind option_bind] in He.
    destruct (angleDiff fuel (hF + MathPI) preferred) as [reverseDiff|] eqn:Hr;
      [| discriminate].
    cbn [mbind option_bind] in He.
    set (heading := if (forwardDiff <=? reverseDiff)%float
                    then hF else (hF + MathPI)%float) in *.
    destruct (angleDiff fuel heading preferred) as [headingDiff|] eqn:Hh;
      [| discriminate].
    cbn [mbind option_bind] in He.
    destruct (MAX_DIRECTION_CONE <? headingDiff)%float eqn:Hcone;
      [inversion He; subst; exact Hsofar |].
    inversion He as [Hb]. clear He.
    destruct (consider_cases
                (scoreOf stickyRoadKey d2 (headingDiff * HEADING_WEIGHT) key)
                heading key sofar) as [-> | [-> Hnan]]; [exact Hsofar |].
    cbn [fst snd]. split; [exact Hnan |].
    exists (aLng, aLat, bLng, bLat), d2, (headingDiff * HEADING_WEIGHT)%float.
    cbn [fst snd]. fold key. fold hF.
    split; [exact Hin |]. split; [exact Hd |].
    split; [exact (proj1 (scoreOf_not_nan _ _ _ _ Hnan)) |].
    split; [reflexivity |].
    split; [reflexivity |]. split.
    { unfold heading. destruct (_ <=? _)%float; [left | right]; reflexivity. }
    split; [discriminate |].
    intros ph Hph. inversion Hph; subst ph. exists headingDiff.
    split; [exact Hh |]. split; [| reflexivity].
    apply not_ltb_leb; [| reflexivity | exact Hcone].
    destruct (scoreOf_not_nan _ _ _ _ Hnan) as [_ Hp].
    exact (proj1 (mul_not_nan _ _ Hp)).
  - inversion He as [Hb]. clear He.
    destruct (consider_cases (scoreOf stickyRoadKey d2 0 key) hF key sofar)
      as [-> | [-> Hnan]]; [exact Hsofar |].
    cbn [fst snd]. split; [exact Hnan |].
    exists (aLng, aLat, bLng, bLat), d2, 0%float.
    cbn [fst snd]. fold key. fold hF.
    split; [exact Hin |]. split; [exact Hd |].
    split; [exact (proj1 (scoreOf_not_nan _ _ _ _ Hnan)) |].
    split; [reflexivity |].
    split; [reflexivity |]. split; [left; reflexivity |].
    split; [intros _; split; reflexivity |]. discriminate.
Qed.

Lemma testSegments_sound (fuel : nat) (p : float * float)
    (preferredHeading : option float) (stickyRoadKey : option string)
    (segs : list segment) (todo : list segment) :
  ∀ sofar b,
    (∀ seg, seg ∈ todo → seg ∈ segs) →
    candidate fuel p preferredHeading stickyRoadKey segs sofar →
    testSegments toFixed6 project toLocal atan2 fuel p preferredHeading
      stickyRoadKey sofar todo = Some b →
    candidate fuel p preferredHeading stickyRoadKey segs b.
Proof.
  induction todo as [|seg rest IH]; intros sofar b Hsub Hsofar He;
    cbn [testSegments] in He.
  - inversion He; subst. exact Hsofar.
  - destruct (testSegment toFixed6 project toLocal atan2 fuel p preferredHeading
                stickyRoadKey sofar seg) as [sofar'|] eqn:Hs; [| discriminate].
    cbn [mbind option_bind] in He. apply (IH sofar' b); [| | exact He].
    + intros s Hin. apply Hsub. right. exact Hin.
    + apply (testSegment_sound fuel p preferredHeading stickyRoadKey segs
               sofar sofar' seg); [apply Hsub; left | exact Hsofar | exact Hs].
Qed.

(** A road match is never far-fetched.  Its score is a number, at most 256.
    It comes from a segment of the rendered features for which a squared
    pixel distance is computed, a number too; it is named by that segment's
    key, and its score is the one computed from that distance and the
    heading penalty, with the switch penalty when the road is another than
    the sticky one.  Its
    heading is one of the two directions of the segment: the forward one,
    without penalty, when there is no preferred heading, and otherwise one
    whose deviation from the preferred heading is at most 75 degrees and
    makes the penalty. *)
Theorem getRoadMatch_within_reach
    (fuel : nat) (ready : bool) (feats : list feature) (lng lat : float)
    (preferredHeading : option float) (stickyRoadKey : option string)
    (m : RoadMatch.t float) :
  getRoadMatch toFixed6 project toLocal atan2 fuel ready feats lng lat
    preferredHeading stickyRoadKey = Some (Some m) →
  ready = true
  ∧ (RoadMatch.score m <=? 16 * 16)%float = true
  ∧ ∃ (seg : segment) (d2 headingPenalty : float),
      seg ∈ concat (segmentsOfFeature <$> feats)
      ∧ distance2 project (project lng lat) seg = Some d2
      ∧ PrimFloat.is_nan d2 = false
      ∧ RoadMatch.roadKey m = keyOf seg
      ∧ RoadMatch.score m = scoreOf stickyRoadKey d2 headingPenalty (keyOf seg)
      ∧ (RoadMatch.heading m = forwardHeading toLocal atan2 seg
         ∨ RoadMatch.heading m
           = (forwardHeading toLocal atan2 seg + MathPI)%float)
      ∧ (preferredHeading = None →
         RoadMatch.heading m = forwardHeading toLocal atan2 seg
         ∧ headingPenalty = 0%float)
      ∧ (∀ preferred, preferredHeading = Some preferred →
           ∃ dev, angleDiff fuel (RoadMatch.heading m) preferred = Some dev
                  ∧ (dev <=? degToRad 75)%float = true
                  ∧ headingPenalty = (dev * HEADING_WEIGHT)%float).
Proof.
  unfold getRoadMatch. intros He.
  destruct ready; [| discriminate]. split; [reflexivity |].
  cbn [negb] in He.
  destruct (testSegments toFixed6 project toLocal atan2 fuel (project lng lat)
              preferredHeading stickyRoadKey None
              (concat (segmentsOfFeature <$> feats))) as [found|] eqn:Hfound;
    [| discriminate].
  cbn [mbind option_bind] in He.
  pose proof (testSegments_sound fuel (project lng lat) preferredHeading
                stickyRoadKey (concat (segmentsOfFeature <$> feats))
                (concat (segmentsOfFeature <$> feats)) None found
                (λ _ H, H) I Hfound) as Hc.
  destruct found as [[[bestScore bestHeading] bestRoadKey]|]; [| discriminate].
  destruct (16 * 16 <? bestScore)%float eqn:Hfar; [discriminate |].
  inversion He; subst m. clear He. cbn [fst snd] in Hc.
  cbn [RoadMatch.score RoadMatch.heading RoadMatch.roadKey].
  destruct Hc as (Hnan & Hc).
  split; [apply not_ltb_leb; [exact Hnan | reflexivity | exact Hfar] |].
  exact Hc.
Qed.

Lemma angleDiff_more (n m : nat) (a b d : float) :
  (n ≤ m)%nat → angleDiff n a b = Some d → angleDiff m a b = Some d.
Proof.
  rewrite !angleDiff_angleDelta. intros Hm He.
  destruct (angleDelta n a b) as [r|] eqn:E; [| discriminate].
  rewrite (angleDelta_more n m a b r Hm E). exact He.
Qed.

Lemma testSegment_more (n m : nat) (p : float * float)
    (preferredHeading : option float) (stickyRoadKey : option string)
    (sofar b : best) (seg : segment) :
  (n ≤ m)%nat →
  testSegment toFixed6 project toLocal atan2 n p preferredHeading
    stickyRoadKey sofar seg = Some b →
  testSegment toFixed6 project toLocal atan2 m p preferredHeading
    stickyRoadKey sofar seg = Some b.
Proof.
  intros Hm. unfold testSegment.
  destruct (distance2 project p seg) as [d2|]; [| exact (λ H, H)].
  destruct seg as [[[aLng aLat] bLng] bLat]. cbv beta iota zeta.
  set (hF := forwardHeading toLocal atan2 (aLng, aLat, bLng, bLat)).
  destruct preferredHeading as [preferred|]; [| exact (λ H, H)].
  destruct (angleDiff n hF preferred) as [forwardDiff|] eqn:Hf; [| discriminate].
  rewrite (angleDiff_more n m _ _ _ Hm Hf). cbn [mbind option_bind].
  destruct (angleDiff n (hF + MathPI) preferred) as [reverseDiff|] eqn:Hr;
    [| discriminate].
  rewrite (angleDiff_more n m _ _ _ Hm Hr). cbn [mbind option_bind].
  destruct (forwardDiff <=? reverseDiff)%float.
  - rewrite Hf, (angleDiff_more n m _ _ _ Hm Hf). exact (λ H, H).
  - rewrite Hr, (angleDiff_more n m _ _ _ Hm Hr). exact (λ H, H).
Qed.

Lemma testSegments_more (n m : nat) (p : float * float)
    (preferredHeading : option float) (stickyRoadKey : option string)
    (segs : list segment) : ∀ sofar b,
  (n ≤ m)%nat →
  testSegments toFixed6 project toLocal atan2 n p preferredHeading
    stickyRoadKey sofar segs = Some b →
  testSegments toFixed6 project toLocal atan2 m p preferredHeading
    stickyRoadKey sofar segs = Some b.
Proof.
  induction segs as [|seg rest IH]; intros sofar b Hm He; cbn [testSegments] in *;
    [exact He |].
  destruct (testSegment toFixed6 project toLocal atan2 n p preferredHeading
              stickyRoadKey sofar seg) as [sofar'|] eqn:Hs; [| discriminate].
  rewrite (testSegment_more n m _ _ _ _ _ _ Hm Hs). cbn [mbind option_bind] in *.
  exact (IH _ _ Hm He).
Qed.

(** The headings whose deviation from the preferred heading is computed
    differ from it by at most two turns. *)
Abbreviation withinTwoTurns d :=
  ((- (4 * MathPI) <=? d)%float = true ∧ (d <=? 4 * MathPI)%float = true).

Abbreviation headingsWithinTwoTurns preferredHeading segs :=
  (∀ (seg : segment) (preferred : float),
     seg ∈ segs → preferredHeading = Some preferred →
     withinTwoTurns (forwardHeading toLocal atan2 seg - preferred)%float
     ∧ withinTwoTurns
         (forwardHeading toLocal atan2 seg + MathPI - preferred)%float).

Lemma angleDiff_two_turns (a b : float) :
  withinTwoTurns (a - b)%float → ∃ d, angleDiff 2 a b = Some d.
Proof.
  intros [Hlo Hhi]. destruct (angleDelta_two_turns a b Hlo Hhi) as (r & Hr & _).
  exists (PrimFloat.abs r). rewrite angleDiff_angleDelta, Hr. reflexivity.
Qed.

Lemma testSegment_two_turns (p : float * float)
    (preferredHeading : option float) (stickyRoadKey : option string)
    (sofar : best) (seg : segment) :
  (∀ preferred, preferredHeading = Some preferred →
     withinTwoTurns (forwardHeading toLocal atan2 seg - preferred)%float
     ∧ withinTwoTurns
         (forwardHeading toLocal atan2 seg + MathPI - preferred)%float) →
  ∃ b, testSegment toFixed6 project toLocal atan2 2 p preferredHeading
         stickyRoadKey sofar seg = Some b.
Proof.
  intros Hw. unfold testSegment.
  destruct (distance2 project p seg) as [d2|]; [| eauto].
  destruct seg as [[[aLng aLat] bLng] bLat]. cbv beta iota zeta.
  set (hF := forwardHeading toLocal atan2 (aLng, aLat, bLng, bLat)) in *.
  destruct preferredHeading as [preferred|]; [| eauto].
  destruct (Hw preferred eq_refl) as [Hf Hr].
  destruct (angleDiff_two_turns _ _ Hf) as [forwardDiff Ef].
  destruct (angleDiff_two_turns _ _ Hr) as [reverseDiff Er].
  rewrite Ef. cbn [mbind option_bind]. rewrite Er. cbn [mbind option_bind].
  destruct (forwardDiff <=? reverseDiff)%float.
  - rewrite Ef. cbn [mbind option_bind]. destruct (_ <? _)%float; eauto.
  - rewrite Er. cbn [mbind option_bind]. destruct (_ <? _)%float; eauto.
Qed.

Lemma testSegments_two_turns (p : float * float)
    (preferredHeading : option float) (stickyRoadKey : option string)
    (segs : list segment) : ∀ sofar,
  headingsWithinTwoTurns preferredHeading segs →
  ∃ b, testSegments toFixed6 project toLocal atan2 2 p preferredHeading
         stickyRoadKey sofar segs = Some b.
Proof.
  induction segs as [|seg rest IH]; intros sofar Hw; cbn [testSegments];
    [eauto |].
  destruct (testSegment_two_turns p preferredHeading stickyRoadKey sofar seg)
    as [sofar' Hs].
  { intros preferred Hp. apply Hw; [left | exact Hp]. }
  rewrite Hs. cbn [mbind option_bind]. apply IH.
  intros s ph Hin. apply Hw. right. exact Hin.
Qed.

(** Road matching answers whenever the angle loops end, which they do when
    there is no preferred heading and when every segment heading, either
    way, differs from the preferred heading by at most two turns.  An
    answer does not change with more fuel.  The answer is "no match" when
    the map or the road layers are missing and when no segment is rendered
    around the vehicle. *)
Theorem getRoadMatch_answers
    (ready : bool) (feats : list feature) (lng lat : float)
    (preferredHeading : option float) (stickyRoadKey : option string) :
  (headingsWithinTwoTurns preferredHeading
     (concat (segmentsOfFeature <$> feats)) →
   ∃ r, ∀ fuel, (2 ≤ fuel)%nat →
     getRoadMatch toFixed6 project toLocal atan2 fuel ready feats lng lat
       preferredHeading stickyRoadKey = Some r)
  ∧ (∀ fuel fuel' r, (fuel ≤ fuel')%nat →
       getRoadMatch toFixed6 project toLocal atan2 fuel ready feats lng lat
         preferredHeading stickyRoadKey = Some r →
       getRoadMatch toFixed6 project toLocal atan2 fuel' ready feats lng lat
         preferredHeading stickyRoadKey = Some r)
  ∧ (∀ fuel, ready = false ∨ concat (segmentsOfFeature <$> feats) = [] →
       getRoadMatch toFixed6 project toLocal atan2 fuel ready feats lng lat
         preferredHeading stickyRoadKey = Some None).
Proof.
  assert (Hmore : ∀ fuel fuel' r, (fuel ≤ fuel')%nat →
            getRoadMatch toFixed6 project toLocal atan2 fuel ready feats lng lat
              preferredHeading stickyRoadKey = Some r →
            getRoadMatch toFixed6 project toLocal atan2 fuel' ready feats lng lat
              preferredHeading stickyRoadKey = Some r).
  { intros fuel fuel' r Hf. unfold getRoadMatch.
    destruct ready; cbn [negb]; [| exact (λ H, H)].
    destruct (testSegments toFixed6 project toLocal atan2 fuel (project lng lat)
                preferredHeading stickyRoadKey None
                (concat (segmentsOfFeature <$> feats))) as [found|] eqn:Hfound;
      [| discriminate].
    rewrite (testSegments_more fuel fuel' _ _ _ _ _ _ Hf Hfound). exact (λ H, H). }
  split; [| split; [exact Hmore |]].
  - intros Hw.
    assert (H2 : ∃ r, getRoadMatch toFixed6 project toLocal atan2 2 ready feats
                        lng lat preferredHeading stickyRoadKey = Some r).
    { unfold getRoadMatch. destruct ready; cbn [negb]; [| eauto].
      destruct (testSegments_two_turns (project lng lat) preferredHeading
                  stickyRoadKey (concat (segmentsOfFeature <$> feats)) None Hw)
        as [b Hb].
      rewrite Hb. cbn [mbind option_bind]. eauto. }
    destruct H2 as [r Hr]. exists r. intros fuel Hf.
    exact (Hmore 2%nat fuel r Hf Hr).
  - intros fuel [Hr | Hs]; unfold getRoadMatch.
    + rewrite Hr. reflexivity.
    + destruct ready; [| reflexivity]. cbn [negb]. rewrite Hs. reflexivity.
Qed.

End RoadMatchingFacts.

Section RoadMatchingExamples.
Import VehicleLayer RoadMatching Samples.

Lemma sampleRoad_matches :
  getRoadMatch printZero flat flat levelAtan2 0 true sampleRoad 5 3 None None
  = Some (Some sampleMatch).
Proof. vm_compute. reflexivity. Qed.

Lemma getRoadMatch_within_reach_witness :
  getRoadMatch printZero flat flat levelAtan2 0 true sampleRoad 5 3 None None
  = Some (Some sampleMatch)
  ∧ (RoadMatch.score sampleMatch <=? 16 * 16)%float = true.
Proof.
  split; [exact sampleRoad_matches |].
  exact (proj1 (proj2 (getRoadMatch_within_reach printZero flat flat levelAtan2
                         0 true sampleRoad 5 3 None None sampleMatch
                         sampleRoad_matches))).
Defined.

(** A squared distance just above 96 pixels and the switch penalty of 160
    round to a score of exactly 256, which is still a match. *)
Example switch_penalty_rounds_to_256 :
  (0x1.8000000000001p+6 + SWITCH_PENALTY)%float = 256%float
  ∧ (96 <? 0x1.8000000000001p+6)%float = true
  ∧ (16 * 16 <? 0x1.8000000000001p+6 + SWITCH_PENALTY)%float = false.
Proof. repeat split; vm_compute; reflexivity. Qed.

End RoadMatchingExamples.
